(** * redis-sqlite: the storage engine, embedded and checked against its
      specification

    The development follows the TypeScript sources:

    - [src/redis-sqlite.ts]: class [RedisSQLite] on a raw SQLite connection,
      modelled in module [Engine] on top of the statements of module [Sql];
    - [src/redis-sqlite-typepersist.ts]: the same class on the typepersist
      query builder, modelled in module [TypePersist].

    Conventions.  A table is the list of its rows in rowid order.  SQL NULL in
    the [expiry] column is [None].  JavaScript numbers that hold indices,
    counts and millisecond timestamps are integers of [Z]: the model covers
    calls with whole numbers whose sums and products stay inside the safe
    integers of JavaScript (below 2^53 in absolute value), where the
    arithmetic of doubles is exact; [Spec.safe_integer] names that range
    where a statement depends on it.  Every reading of [Date.now()] inside
    one call is the argument [now] of that call.  A rejected promise / thrown
    [Error] is the outcome [Throw msg]. *)

From stdpp Require Import base numbers list strings gmap sorting.

Local Open Scope Z_scope.

(** ** Outcomes of calls *)

Inductive outcome (A : Type) : Type :=
| Ok (a : A)
| Throw (msg : string).
Arguments Ok {A} a.
Arguments Throw {A} msg.

Definition WRONGTYPE : string :=
  "WRONGTYPE Operation against a key holding the wrong kind of value".
Definition NOT_INITIALIZED : string := "Database not initialized".
Definition NO_TRANSACTION : string := "No transaction in progress".
Definition HMSET_ARITY : string := "Wrong number of arguments for HMSET".
Definition NESTED_BEGIN : string :=
  "SQLITE_ERROR: cannot start a transaction within a transaction".
Definition NO_ACTIVE_COMMIT : string :=
  "SQLITE_ERROR: cannot commit - no transaction is active".
Definition NO_ACTIVE_ROLLBACK : string :=
  "SQLITE_ERROR: cannot rollback - no transaction is active".
(** The primary key of list_store, with the default table prefix. *)
Definition CONSTRAINT : string :=
  "SQLITE_CONSTRAINT: UNIQUE constraint failed: redis_list_store.key, redis_list_store.index".

(** ** The four tables (initializeTables) *)

Record string_row := StringRow {
  sr_key : string; sr_value : string; sr_expiry : option Z }.
Record hash_row := HashRow {
  hr_key : string; hr_field : string; hr_value : string; hr_expiry : option Z }.
Record list_row := ListRow {
  lr_key : string; lr_index : Z; lr_value : string; lr_expiry : option Z }.
Record set_row := SetRow {
  mr_key : string; mr_member : string; mr_expiry : option Z }.

Record tables := Tables {
  string_store : list string_row;
  hash_store : list hash_row;
  list_store : list list_row;
  set_store : list set_row }.

Definition no_rows : tables := Tables [] [] [] [].

(** The columns [key] and [expiry] are common to the four tables; the
    statements that loop over the table names (DEL, EXISTS, EXPIRE, TTL, the
    expiry checker) only use these two. *)
Class Keyed (R : Type) := {
  row_key : R → string;
  row_expiry : R → option Z;
  with_expiry : option Z → R → R }.

#[export] Instance string_row_keyed : Keyed string_row := {|
  row_key := sr_key; row_expiry := sr_expiry;
  with_expiry e r := StringRow (sr_key r) (sr_value r) e |}.
#[export] Instance hash_row_keyed : Keyed hash_row := {|
  row_key := hr_key; row_expiry := hr_expiry;
  with_expiry e r := HashRow (hr_key r) (hr_field r) (hr_value r) e |}.
#[export] Instance list_row_keyed : Keyed list_row := {|
  row_key := lr_key; row_expiry := lr_expiry;
  with_expiry e r := ListRow (lr_key r) (lr_index r) (lr_value r) e |}.
#[export] Instance set_row_keyed : Keyed set_row := {|
  row_key := mr_key; row_expiry := mr_expiry;
  with_expiry e r := SetRow (mr_key r) (mr_member r) e |}.

(** ** SQL statements of redis-sqlite.ts, as functions on table contents *)

Module Sql.

(** [expiry IS NULL OR expiry > ?] *)
Definition is_live (now : Z) (expiry : option Z) : bool :=
  match expiry with
  | None => true
  | Some t => bool_decide (now < t)
  end.

(** [expiry < ?], which is not true of NULL *)
Definition is_elapsed (now : Z) (expiry : option Z) : bool :=
  match expiry with
  | None => false
  | Some t => bool_decide (t < now)
  end.

(** The number of rows a DELETE removed or an UPDATE touched. *)
Definition removed {R} (before after : list R) : Z :=
  Z.of_nat (length before) - Z.of_nat (length after).

Section AnyTable.
Context {R : Type} `{Keyed R}.

(** WHERE key = ? *)
Definition of_key (key : string) (rows : list R) : list R :=
  filter (λ r, row_key r = key) rows.

(** DELETE FROM t WHERE key = ? *)
Definition delete_key (key : string) (rows : list R) : list R :=
  filter (λ r, row_key r ≠ key) rows.

(** UPDATE t SET expiry = ? WHERE key = ? *)
Definition update_expiry (expiry : Z) (key : string) (rows : list R) : list R :=
  (λ r, if decide (row_key r = key) then with_expiry (Some expiry) r else r) <$> rows.

(** [... AND expiry IS NOT NULL LIMIT 1], on the rows of the key in the order
    in which SQLite finds them *)
Definition first_expiry (found : list R) : option Z :=
  head (omap row_expiry found).

(** DELETE FROM t WHERE expiry < ? *)
Definition delete_elapsed (now : Z) (rows : list R) : list R :=
  filter (λ r, ¬ is_elapsed now (row_expiry r)) rows.
End AnyTable.

(** *** string_store *)

(** SELECT ... FROM string_store WHERE key = ? AND (expiry IS NULL OR expiry > ?) *)
Definition select_string (key : string) (now : Z) (rows : list string_row)
  : option string_row :=
  head (filter (λ r, sr_key r = key ∧ is_live now (sr_expiry r)) rows).

(** INSERT OR REPLACE INTO string_store (key, value) VALUES (?, ?): the row
    that holds the primary key is deleted and a new row is inserted; the
    columns that are not listed take their default, NULL. *)
Definition replace_string (key value : string) (rows : list string_row)
  : list string_row :=
  delete_key key rows ++ [StringRow key value None].

(** *** hash_store *)

Definition hash_pk (key field : string) (r : hash_row) : Prop :=
  hr_key r = key ∧ hr_field r = field.

#[export] Instance hash_pk_dec key field r : Decision (hash_pk key field r).
Proof. unfold hash_pk. apply _. Defined.

(** INSERT OR REPLACE INTO hash_store (key, field, value) VALUES (?, ?, ?) *)
Definition replace_hash (key field value : string) (rows : list hash_row)
  : list hash_row :=
  filter (λ r, ¬ hash_pk key field r) rows ++ [HashRow key field value None].

(** SELECT value FROM hash_store WHERE key = ? AND field = ?
    AND (expiry IS NULL OR expiry > ?) *)
Definition select_hash (key field : string) (now : Z) (rows : list hash_row)
  : option hash_row :=
  head (filter (λ r, hash_pk key field r ∧ is_live now (hr_expiry r)) rows).

(** DELETE FROM hash_store WHERE key = ? AND field IN (...) *)
Definition delete_hash (key : string) (fields : list string) (rows : list hash_row)
  : list hash_row :=
  filter (λ r, ¬ (hr_key r = key ∧ hr_field r ∈ fields)) rows.

(** *** list_store *)

Definition list_pk (key : string) (index : Z) (r : list_row) : Prop :=
  lr_key r = key ∧ lr_index r = index.

#[export] Instance list_pk_dec key index r : Decision (list_pk key index r).
Proof. unfold list_pk. apply _. Defined.

(** A row with its index moved. *)
Definition moved (by_ : Z) (r : list_row) : list_row :=
  ListRow (lr_key r) (lr_index r + by_) (lr_value r) (lr_expiry r).

(** The rows with every index of the key moved. *)
Definition shifted (by_ : Z) (key : string) (rows : list list_row)
  : list list_row :=
  (λ r, if decide (lr_key r = key) then moved by_ r else r) <$> rows.

(** UPDATE list_store SET "index" = "index" + ? WHERE key = ?.  SQLite updates
    the rows of the key one after the other, by ascending rowid, and checks
    PRIMARY KEY (key, "index") at every row against the table as it is then:
    [updated] holds the rows the statement has passed, [rest] the rows still
    to come.  A row that would take the key and index of another row aborts
    the statement, which undoes its changes. *)
Fixpoint shift_rows (by_ : Z) (key : string) (updated rest : list list_row)
  : option (list list_row) :=
  match rest with
  | [] => Some updated
  | r :: rest' =>
      if decide (lr_key r = key) then
        if decide (Exists (list_pk key (lr_index r + by_)) (updated ++ rest'))
        then None
        else shift_rows by_ key (updated ++ [moved by_ r]) rest'
      else shift_rows by_ key (updated ++ [r]) rest'
  end.

Definition shift_index (by_ : Z) (key : string) (rows : list list_row)
  : option (list list_row) :=
  shift_rows by_ key [] rows.

(** INSERT INTO list_store (key, "index", value) VALUES (?, ?, ?): fails on
    a row that already holds the primary key (key, index). *)
Definition insert_list (key : string) (index : Z) (value : string)
    (rows : list list_row) : option (list list_row) :=
  if decide (Exists (list_pk key index) rows) then None
  else Some (rows ++ [ListRow key index value None]).

(** SELECT COUNT( * ) FROM list_store WHERE key = ? *)
Definition count_list (key : string) (rows : list list_row) : Z :=
  Z.of_nat (length (of_key key rows)).

Definition index_le (r1 r2 : list_row) : Prop := lr_index r1 ≤ lr_index r2.
Definition index_ge (r1 r2 : list_row) : Prop := lr_index r2 ≤ lr_index r1.

#[export] Instance index_le_dec r1 r2 : Decision (index_le r1 r2).
Proof. unfold index_le. apply _. Defined.
#[export] Instance index_ge_dec r1 r2 : Decision (index_ge r1 r2).
Proof. unfold index_ge. apply _. Defined.

(** SELECT value FROM list_store WHERE key = ? AND "index" BETWEEN ? AND ?
    ORDER BY "index" ASC *)
Definition select_range (key : string) (lo hi : Z) (rows : list list_row)
  : list list_row :=
  merge_sort index_le
    (filter (λ r, lr_key r = key ∧ lo ≤ lr_index r ≤ hi) rows).

(** SELECT value, "index" FROM list_store WHERE key = ?
    ORDER BY "index" DESC LIMIT 1 *)
Definition select_tail (key : string) (rows : list list_row) : option list_row :=
  head (merge_sort index_ge (of_key key rows)).

(** SELECT value FROM list_store WHERE key = ? ORDER BY "index" ASC LIMIT 1 *)
Definition select_head (key : string) (rows : list list_row) : option list_row :=
  head (merge_sort index_le (of_key key rows)).

(** DELETE FROM list_store WHERE key = ? AND "index" = ? *)
Definition delete_index (key : string) (index : Z) (rows : list list_row)
  : list list_row :=
  filter (λ r, ¬ list_pk key index r) rows.

(** *** set_store *)

Definition set_pk (key member : string) (r : set_row) : Prop :=
  mr_key r = key ∧ mr_member r = member.

#[export] Instance set_pk_dec key member r : Decision (set_pk key member r).
Proof. unfold set_pk. apply _. Defined.

(** INSERT OR IGNORE INTO set_store (key, member) VALUES (?, ?), with the
    number of rows it changed *)
Definition insert_ignore_set (key member : string) (rows : list set_row)
  : Z * list set_row :=
  if decide (Exists (set_pk key member) rows) then (0, rows)
  else (1, rows ++ [SetRow key member None]).

(** DELETE FROM set_store WHERE key = ? AND member IN (...) *)
Definition delete_set (key : string) (members : list string) (rows : list set_row)
  : list set_row :=
  filter (λ r, ¬ (mr_key r = key ∧ mr_member r ∈ members)) rows.

(** SELECT 1 FROM set_store WHERE key = ? AND member = ?
    AND (expiry IS NULL OR expiry > ?) *)
Definition select_member (key member : string) (now : Z) (rows : list set_row)
  : option set_row :=
  head (filter (λ r, set_pk key member r ∧ is_live now (mr_expiry r)) rows).

Definition member_le (r1 r2 : set_row) : Prop :=
  String.leb (mr_member r1) (mr_member r2).

#[export] Instance member_le_dec r1 r2 : Decision (member_le r1 r2).
Proof. unfold member_le. apply _. Defined.

(** SELECT member FROM set_store WHERE key = ?
    AND (expiry IS NULL OR expiry > ?) ORDER BY member *)
Definition select_members (key : string) (now : Z) (rows : list set_row)
  : list set_row :=
  merge_sort member_le
    (filter (λ r, mr_key r = key ∧ is_live now (mr_expiry r)) rows).

(** *** The expiry of a key *)

Definition field_le (r1 r2 : hash_row) : Prop :=
  String.leb (hr_field r1) (hr_field r2).

#[export] Instance field_le_dec r1 r2 : Decision (field_le r1 r2).
Proof. unfold field_le. apply _. Defined.

(** SELECT expiry FROM <table> WHERE key = ? AND expiry IS NOT NULL LIMIT 1.
    There is no ORDER BY: SQLite searches the rows of the key through the
    index of the primary key, where they stand in the order of its second
    column.  string_store has [key] alone as its primary key. *)
Definition select_expiry_string (key : string) (rows : list string_row)
  : option Z :=
  first_expiry (of_key key rows).
Definition select_expiry_hash (key : string) (rows : list hash_row)
  : option Z :=
  first_expiry (merge_sort field_le (of_key key rows)).
Definition select_expiry_list (key : string) (rows : list list_row)
  : option Z :=
  first_expiry (merge_sort index_le (of_key key rows)).
Definition select_expiry_set (key : string) (rows : list set_row)
  : option Z :=
  first_expiry (merge_sort member_le (of_key key rows)).

End Sql.

(** ** The engine of redis-sqlite.ts *)

Module Engine.
Import Sql.

(** *** The SQLite connection

    [snapshot] is [Some t] exactly while a transaction is open; [t] is what
    ROLLBACK restores.  The connection that runs a transaction sees its own
    uncommitted rows, so [data] is what every statement of the engine reads. *)
Record connection := Connection { data : tables; snapshot : option tables }.

Definition sql_begin (c : connection) : outcome unit * connection :=
  match snapshot c with
  | Some _ => (Throw NESTED_BEGIN, c)
  | None => (Ok (), Connection (data c) (Some (data c)))
  end.

Definition sql_commit (c : connection) : outcome unit * connection :=
  match snapshot c with
  | Some _ => (Ok (), Connection (data c) None)
  | None => (Throw NO_ACTIVE_COMMIT, c)
  end.

Definition sql_rollback (c : connection) : outcome unit * connection :=
  match snapshot c with
  | Some t => (Ok (), Connection t None)
  | None => (Throw NO_ACTIVE_ROLLBACK, c)
  end.

(** *** Commands that [exec] can find in the queue: the data methods of the
    class, by name and arguments

    [addCommand] takes any string as the name and any array as the arguments,
    and [exec] looks the method up by that name.  The model covers the queue
    entries that name one of the data methods below with the arguments of its
    signature, which is what the pipelines of ioredis-sqlite.ts and
    node-redis-sqlite.ts queue, brpoplpush apart.  A queue entry that names
    another member of the class (close, exec, multi, brpoplpush, a private
    method) or a name that is no method is outside the model. *)
Inductive command :=
| SET (key value : string)
| GET (key : string)
| MGET (keys : list string)
| LPUSH (key : string) (values : list string)
| RPUSH (key : string) (values : list string)
| LRANGE (key : string) (start stop : Z)
| RPOP (key : string)
| LPOP (key : string)
| RPOPLPUSH (source destination : string)
| HSET (key field value : string)
| HMSET (key : string) (fieldValues : list string)
| HGET (key field : string)
| HDEL (key : string) (fields : list string)
| DEL (keys : list string)
| EXISTS (keys : list string)
| HMGET (key : string) (fields : list string)
| SISMEMBER (key member : string)
| SMEMBERS (key : string)
| SADD (key : string) (members : list string)
| SREM (key : string) (members : list string)
| EXPIRE (key : string) (seconds : Z)
| TTL (key : string)
| FLUSHDB
| FLUSHALL
| INFO
| AUTH (password : string).

(** What a method resolves to. *)
Inductive reply :=
| Status                               (* "OK" *)
| Bulk (value : option string)         (* string | null *)
| Int (n : Z)
| Array (values : list (option string))
| Undefined                            (* Promise<void> *)
| Version (redis_version : string).

(** *** Blocking operations and the timers of the runtime

    The functions stored in [blockingOperations] and handed to [setTimeout]
    are closures; a closure is named by what it captures.  [PromiseResolve p]
    is the [resolve] function of promise [p]; [WakeUp p destination timeoutId]
    is the async arrow function that brpoplpush registers. *)
Inductive resolver :=
| PromiseResolve (promise : nat)
| WakeUp (promise : nat) (destination : string) (timeoutId : nat).

#[export] Instance resolver_eq_dec : EqDecision resolver.
Proof. solve_decision. Defined.

(** The callback that brpoplpush passes to [setTimeout]. *)
Record timeout := Timeout { tm_source : string; tm_promise : nat; tm_delay : Z }.

Record engine := MkEngine {
  db : option connection;
  inTransaction : bool;
  transactionMode : bool;
  transactionCommands : list command;
  password : option string;
  isAuthenticated : bool;
  blockingOperations : gmap string (list resolver);
  expiryCheckerId : option nat;
  (* the part of the JavaScript runtime the class talks to *)
  timeouts : gmap nat timeout;          (* pending setTimeout callbacks *)
  intervals : gset nat;                 (* active setInterval handles *)
  settled : gmap nat (option string);   (* promises of brpoplpush that are resolved *)
  next_handle : nat }.

Definition with_db (v : option connection) (e : engine) : engine :=
  MkEngine v (inTransaction e) (transactionMode e) (transactionCommands e)
    (password e) (isAuthenticated e) (blockingOperations e) (expiryCheckerId e)
    (timeouts e) (intervals e) (settled e) (next_handle e).
Definition with_inTransaction (v : bool) (e : engine) : engine :=
  MkEngine (db e) v (transactionMode e) (transactionCommands e)
    (password e) (isAuthenticated e) (blockingOperations e) (expiryCheckerId e)
    (timeouts e) (intervals e) (settled e) (next_handle e).
Definition with_transactionMode (v : bool) (e : engine) : engine :=
  MkEngine (db e) (inTransaction e) v (transactionCommands e)
    (password e) (isAuthenticated e) (blockingOperations e) (expiryCheckerId e)
    (timeouts e) (intervals e) (settled e) (next_handle e).
Definition with_transactionCommands (v : list command) (e : engine) : engine :=
  MkEngine (db e) (inTransaction e) (transactionMode e) v
    (password e) (isAuthenticated e) (blockingOperations e) (expiryCheckerId e)
    (timeouts e) (intervals e) (settled e) (next_handle e).
Definition with_isAuthenticated (v : bool) (e : engine) : engine :=
  MkEngine (db e) (inTransaction e) (transactionMode e) (transactionCommands e)
    (password e) v (blockingOperations e) (expiryCheckerId e)
    (timeouts e) (intervals e) (settled e) (next_handle e).
Definition with_blockingOperations (v : gmap string (list resolver)) (e : engine)
  : engine :=
  MkEngine (db e) (inTransaction e) (transactionMode e) (transactionCommands e)
    (password e) (isAuthenticated e) v (expiryCheckerId e)
    (timeouts e) (intervals e) (settled e) (next_handle e).
Definition with_expiryCheckerId (v : option nat) (e : engine) : engine :=
  MkEngine (db e) (inTransaction e) (transactionMode e) (transactionCommands e)
    (password e) (isAuthenticated e) (blockingOperations e) v
    (timeouts e) (intervals e) (settled e) (next_handle e).
Definition with_timeouts (v : gmap nat timeout) (e : engine) : engine :=
  MkEngine (db e) (inTransaction e) (transactionMode e) (transactionCommands e)
    (password e) (isAuthenticated e) (blockingOperations e) (expiryCheckerId e)
    v (intervals e) (settled e) (next_handle e).
Definition with_intervals (v : gset nat) (e : engine) : engine :=
  MkEngine (db e) (inTransaction e) (transactionMode e) (transactionCommands e)
    (password e) (isAuthenticated e) (blockingOperations e) (expiryCheckerId e)
    (timeouts e) v (settled e) (next_handle e).
Definition with_settled (v : gmap nat (option string)) (e : engine) : engine :=
  MkEngine (db e) (inTransaction e) (transactionMode e) (transactionCommands e)
    (password e) (isAuthenticated e) (blockingOperations e) (expiryCheckerId e)
    (timeouts e) (intervals e) v (next_handle e).
Definition with_next_handle (v : nat) (e : engine) : engine :=
  MkEngine (db e) (inTransaction e) (transactionMode e) (transactionCommands e)
    (password e) (isAuthenticated e) (blockingOperations e) (expiryCheckerId e)
    (timeouts e) (intervals e) (settled e) v.

(** [new RedisSQLite(options)] *)
Definition constructor (options_password : option string) : engine :=
  MkEngine None false false [] options_password false ∅ None ∅ ∅ ∅ 0%nat.

(** *** Methods run in a state-and-exception monad over the engine *)

Definition M (A : Type) : Type := engine → outcome A * engine.

Definition ret {A} (a : A) : M A := λ e, (Ok a, e).
Definition throw {A} (msg : string) : M A := λ e, (Throw msg, e).
Definition bind {A B} (m : M A) (k : A → M B) : M B := λ e,
  match m e with
  | (Ok a, e') => k a e'
  | (Throw msg, e') => (Throw msg, e')
  end.
(** [try { body } catch (error) { handler }] *)
Definition try_catch {A} (body : M A) (handler : string → M A) : M A := λ e,
  match body e with
  | (Ok a, e') => (Ok a, e')
  | (Throw msg, e') => handler msg e'
  end.
Definition read {A} (field : engine → A) : M A := λ e, (Ok (field e), e).
Definition write (update : engine → engine) : M unit := λ e, (Ok (), update e).
Definition when (b : bool) (m : M unit) : M unit := if b then m else ret ().

Notation "'let*' x := m 'in' k" := (bind m (λ x, k))
  (at level 10, x pattern, m at level 100, k at level 200).
Notation "m >> k" := (bind m (λ _, k))
  (at level 100, k at level 200, right associativity).

(** [for (const x of xs) { acc = body(acc, x) }] *)
Fixpoint for_of {A S} (xs : list A) (acc : S) (body : S → A → M S) : M S :=
  match xs with
  | [] => ret acc
  | x :: xs' => let* acc' := body acc x in for_of xs' acc' body
  end.

(** [if (!this.db) throw new Error("Database not initialized")] *)
Definition requireDb : M unit := λ e,
  match db e with
  | None => (Throw NOT_INITIALIZED, e)
  | Some _ => (Ok (), e)
  end.

(** [await this.db.<call>]: a call on the connection.  Past [requireDb] the
    handle is not null. *)
Definition on_db {A} (call : connection → outcome A * connection) : M A := λ e,
  match db e with
  | None => (Throw "TypeError: Cannot read properties of null", e)
  | Some c => let '(r, c') := call c in (r, with_db (Some c') e)
  end.

(** A SELECT. *)
Definition query {A} (q : tables → A) : M A :=
  on_db (λ c, (Ok (q (data c)), c)).
(** An INSERT, UPDATE or DELETE that cannot fail; it answers [changes]. *)
Definition run {A} (stmt : tables → A * tables) : M A :=
  on_db (λ c, let '(a, t) := stmt (data c) in (Ok a, Connection t (snapshot c))).
(** An INSERT or UPDATE on list_store that fails on the primary key; the
    failed statement changes nothing and leaves the transaction as it was. *)
Definition run_checked (stmt : tables → option tables) : M unit :=
  on_db (λ c, match stmt (data c) with
              | Some t => (Ok (), Connection t (snapshot c))
              | None => (Throw CONSTRAINT, c)
              end).

Definition BEGIN_TRANSACTION : M unit := on_db sql_begin.
Definition COMMIT : M unit := on_db sql_commit.
Definition ROLLBACK : M unit := on_db sql_rollback.

(** [!this.inTransaction && !this.transactionMode] *)
Definition standalone : M bool := λ e,
  (Ok (negb (inTransaction e) && negb (transactionMode e)), e).

Definition on_strings (f : list string_row → list string_row) (t : tables) : tables :=
  Tables (f (string_store t)) (hash_store t) (list_store t) (set_store t).
Definition on_hashes (f : list hash_row → list hash_row) (t : tables) : tables :=
  Tables (string_store t) (f (hash_store t)) (list_store t) (set_store t).
Definition on_lists (f : list list_row → list list_row) (t : tables) : tables :=
  Tables (string_store t) (hash_store t) (f (list_store t)) (set_store t).
Definition on_sets (f : list set_row → list set_row) (t : tables) : tables :=
  Tables (string_store t) (hash_store t) (list_store t) (f (set_store t)).

(** The table names that del, exists, expire, ttl, flushdb and the expiry
    checker loop over. *)
Inductive table := string_table | hash_table | list_table | set_table.
Definition table_names : list table :=
  [string_table; hash_table; list_table; set_table].

(** A statement that only mentions [key] and [expiry], on the table of that
    name. *)
Definition on_table (tb : table) (f : ∀ R, Keyed R → list R → list R) (t : tables)
  : tables :=
  match tb with
  | string_table => on_strings (f _ _) t
  | hash_table => on_hashes (f _ _) t
  | list_table => on_lists (f _ _) t
  | set_table => on_sets (f _ _) t
  end.

Definition in_table {A} (tb : table) (f : ∀ R, Keyed R → list R → A) (t : tables) : A :=
  match tb with
  | string_table => f _ _ (string_store t)
  | hash_table => f _ _ (hash_store t)
  | list_table => f _ _ (list_store t)
  | set_table => f _ _ (set_store t)
  end.

(** DELETE FROM <table> WHERE key = ?, with [changes] *)
Definition delete_from (tb : table) (key : string) (t : tables) : Z * tables :=
  (in_table tb (λ R _ rows, Z.of_nat (length (of_key key rows))) t,
   on_table tb (λ R _, delete_key key) t).

(** UPDATE <table> SET expiry = ? WHERE key = ?, with [changes] *)
Definition expire_in (tb : table) (expiry : Z) (key : string) (t : tables)
  : Z * tables :=
  (in_table tb (λ R _ rows, Z.of_nat (length (of_key key rows))) t,
   on_table tb (λ R _, update_expiry expiry key) t).

(** SELECT 1 FROM <table> WHERE key = ? LIMIT 1 *)
Definition key_in (tb : table) (key : string) (t : tables) : bool :=
  in_table tb (λ R _ rows, bool_decide (of_key key rows ≠ [])) t.

(** SELECT expiry FROM <table> WHERE key = ? AND expiry IS NOT NULL LIMIT 1 *)
Definition expiry_in (tb : table) (key : string) (t : tables) : option Z :=
  match tb with
  | string_table => select_expiry_string key (string_store t)
  | hash_table => select_expiry_hash key (hash_store t)
  | list_table => select_expiry_list key (list_store t)
  | set_table => select_expiry_set key (set_store t)
  end.

(** DELETE FROM <table> *)
Definition truncate (tb : table) (t : tables) : unit * tables :=
  ((), on_table tb (λ R _ _, []) t).

(** DELETE FROM <table> WHERE expiry < ? *)
Definition reap (tb : table) (now : Z) (t : tables) : unit * tables :=
  ((), on_table tb (λ R _, delete_elapsed now) t).

(** *** String operations *)

Inductive ok := OK.

Definition set (key value : string) : M ok :=
  requireDb >>
  let* _ := run (λ t, ((), on_strings (replace_string key value) t)) in
  ret OK.

Definition get (key : string) (now : Z) : M (option string) :=
  requireDb >>
  let* result := query (λ t, select_string key now (string_store t)) in
  ret (sr_value <$> result).

Definition mget (keys : list string) (now : Z) : M (list (option string)) :=
  requireDb >>
  for_of keys [] (λ results key,
    let* result := get key now in
    ret (results ++ [result])).

(** [SELECT 1 FROM string_store WHERE key = ? AND (expiry IS NULL OR expiry > ?)]
    followed by [if (stringResult) throw WRONGTYPE] *)
Definition rejectString (key : string) (now : Z) : M unit :=
  let* stringResult := query (λ t, select_string key now (string_store t)) in
  match stringResult with
  | Some _ => throw WRONGTYPE
  | None => ret ()
  end.

(** *** List operations *)

Definition lpush (key : string) (values : list string) (now : Z) : M Z :=
  requireDb >>
  rejectString key now >>
  let* own := standalone in
  when own (BEGIN_TRANSACTION >> write (with_inTransaction true)) >>
  try_catch
    (let* _ := run_checked (λ t,
       rows ← shift_index (Z.of_nat (length values)) key (list_store t);
       Some (on_lists (λ _, rows) t)) in
     for_of (seq 0 (length values)) () (λ _ i,
       run_checked (λ t,
         rows ← insert_list key (Z.of_nat i)
                  (nth (length values - 1 - i)%nat values EmptyString) (list_store t);
         Some (on_lists (λ _, rows) t))) >>
     let* own := standalone in
     when own (COMMIT >> write (with_inTransaction false)) >>
     let* count := query (λ t, count_list key (list_store t)) in
     ret count)
    (λ error,
     let* own := standalone in
     when own (ROLLBACK >> write (with_inTransaction false)) >>
     throw error).

Definition rpush (key : string) (values : list string) (now : Z) : M Z :=
  requireDb >>
  rejectString key now >>
  let* currentLength := query (λ t, count_list key (list_store t)) in
  let* own := standalone in
  when own (BEGIN_TRANSACTION >> write (with_inTransaction true)) >>
  try_catch
    (let* currentLength := for_of values currentLength (λ currentLength value,
       run_checked (λ t,
         rows ← insert_list key currentLength value (list_store t);
         Some (on_lists (λ _, rows) t)) >>
       ret (currentLength + 1)) in
     let* own := standalone in
     when own (COMMIT >> write (with_inTransaction false)) >>
     ret currentLength)
    (λ error,
     let* own := standalone in
     when own (ROLLBACK >> write (with_inTransaction false)) >>
     throw error).

Definition lrange (key : string) (start stop : Z) : M (list string) :=
  requireDb >>
  let* length := query (λ t, count_list key (list_store t)) in
  let realStart := if bool_decide (0 ≤ start) then start else length + start in
  let realStop := if bool_decide (0 ≤ stop) then stop else length + stop in
  let realStart := Z.max 0 realStart in
  let realStop := Z.min (length - 1) realStop in
  if bool_decide (realStop < realStart) then ret []
  else
    let* results := query (λ t, select_range key realStart realStop (list_store t)) in
    ret (lr_value <$> results).

Definition rpop (key : string) (inTransaction_arg : bool) : M (option string) :=
  requireDb >>
  let* result := query (λ t, select_tail key (list_store t)) in
  match result with
  | Some row =>
      when (negb inTransaction_arg)
        (BEGIN_TRANSACTION >> write (with_inTransaction true)) >>
      try_catch
        (let* _ := run (λ t, ((), on_lists (delete_index key (lr_index row)) t)) in
         when (negb inTransaction_arg)
           (COMMIT >> write (with_inTransaction false)) >>
         ret (Some (lr_value row)))
        (λ error,
         when (negb inTransaction_arg)
           (ROLLBACK >> write (with_inTransaction false)) >>
         throw error)
  | None => ret None
  end.

Definition lpop (key : string) : M (option string) :=
  requireDb >>
  let* result := query (λ t, select_head key (list_store t)) in
  match result with
  | Some row =>
      let* own := standalone in
      when own (BEGIN_TRANSACTION >> write (with_inTransaction true)) >>
      try_catch
        (let* _ := run (λ t, ((), on_lists (delete_index key 0) t)) in
         let* _ := run_checked (λ t,
           rows ← shift_index (-1) key (list_store t);
           Some (on_lists (λ _, rows) t)) in
         let* own := standalone in
         when own (COMMIT >> write (with_inTransaction false)) >>
         ret (Some (lr_value row)))
        (λ error,
         let* own := standalone in
         when own (ROLLBACK >> write (with_inTransaction false)) >>
         throw error)
  | None => ret None
  end.

Definition rpoplpush (source destination : string) (now : Z) : M (option string) :=
  requireDb >>
  let* own := standalone in
  when own (BEGIN_TRANSACTION >> write (with_inTransaction true)) >>
  try_catch
    (let* value := rpop source true in
     match value with
     | Some v =>
         let* _ := lpush destination [v] now in
         let* own := standalone in
         when own (COMMIT >> write (with_inTransaction false)) >>
         ret (Some v)
     | None =>
         let* own := standalone in
         when own (ROLLBACK >> write (with_inTransaction false)) >>
         ret None
     end)
    (λ error,
     let* own := standalone in
     when own (ROLLBACK >> write (with_inTransaction false)) >>
     throw error).

(** *** Blocking operations *)

(** [new Promise((resolve) => ...)] and [setTimeout(callback, ms)] take the
    next free handle of the runtime. *)
Definition fresh : M nat := λ e,
  (Ok (next_handle e), with_next_handle (S (next_handle e)) e).

Definition addBlockingOperation (key : string) (r : resolver) : M unit :=
  write (λ e,
    let ops := blockingOperations e in
    let ops := if decide (is_Some (ops !! key)) then ops else <[key := []]> ops in
    with_blockingOperations (alter (λ rs, rs ++ [r]) key ops) e).

(** [operations.indexOf(resolver)] then [operations.splice(index, 1)] *)
Fixpoint splice_first (r : resolver) (rs : list resolver) : list resolver :=
  match rs with
  | [] => []
  | r' :: rs' => if decide (r' = r) then rs' else r' :: splice_first r rs'
  end.

Definition removeBlockingOperation (key : string) (r : resolver) : M unit :=
  write (λ e,
    with_blockingOperations (alter (splice_first r) key (blockingOperations e)) e).

(** [resolve(value)] on promise [p]; a promise settles once. *)
Definition resolve (p : nat) (value : option string) : M unit :=
  write (λ e,
    match settled e !! p with
    | Some _ => e
    | None => with_settled (<[p := value]> (settled e)) e
    end).

(** What the caller of brpoplpush holds: a value, or a promise that is still
    pending when the method returns. *)
Inductive awaited := Now (value : option string) | Pending (promise : nat).

Definition brpoplpush (source destination : string) (timeout_sec : Z) (now : Z)
  : M awaited :=
  let* value := rpoplpush source destination now in
  match value with
  | Some v => ret (Now (Some v))
  | None =>
      let* p := fresh in
      let* timeoutId := fresh in
      write (λ e, with_timeouts
        (<[timeoutId := Timeout source p (timeout_sec * 1000)]> (timeouts e)) e) >>
      addBlockingOperation source (WakeUp p destination timeoutId) >>
      ret (Pending p)
  end.

(** The callback brpoplpush gave to [setTimeout], run by the runtime when the
    timer [timeoutId] fires. *)
Definition onTimeout (timeoutId : nat) : M unit := λ e,
  match timeouts e !! timeoutId with
  | None => (Ok (), e)
  | Some tm =>
      (write (with_timeouts (delete timeoutId (timeouts e))) >>
       removeBlockingOperation (tm_source tm) (PromiseResolve (tm_promise tm)) >>
       resolve (tm_promise tm) None) e
  end.

(** The body of the registered arrow function [async (value) => { ... }]. *)
Definition wakeUp (r : resolver) (value : option string) (now : Z) : M unit :=
  match r with
  | PromiseResolve p => resolve p value
  | WakeUp p destination timeoutId =>
      write (λ e, with_timeouts (delete timeoutId (timeouts e)) e) >>
      match value with
      | Some v => let* _ := lpush destination [v] now in ret ()
      | None => ret ()
      end >>
      resolve p value
  end.

(** *** Hash operations *)

(** [result.changes] of INSERT OR REPLACE is 1: sqlite3_changes counts the
    row the statement inserts, not the row that REPLACE conflict resolution
    deletes. *)
Definition hset (key field value : string) : M Z :=
  requireDb >>
  let* changes := run (λ t, (1, on_hashes (replace_hash key field value) t)) in
  ret changes.

(** [for (let i = 0; i < fieldValues.length; i += 2)] over
    [fieldValues[i], fieldValues[i + 1]] *)
Fixpoint pairs (fieldValues : list string) : list (string * string) :=
  match fieldValues with
  | f :: v :: rest => (f, v) :: pairs rest
  | _ => []
  end.

Definition hmset (key : string) (fieldValues : list string) : M ok :=
  requireDb >>
  if bool_decide (Nat.even (length fieldValues) = false) then throw HMSET_ARITY
  else
    BEGIN_TRANSACTION >>
    try_catch
      (for_of (pairs fieldValues) () (λ _ fv,
         let* _ := hset key fv.1 fv.2 in ret ()) >>
       COMMIT >>
       ret OK)
      (λ error, ROLLBACK >> throw error).

Definition hget (key field : string) (now : Z) : M (option string) :=
  requireDb >>
  rejectString key now >>
  let* result := query (λ t, select_hash key field now (hash_store t)) in
  ret (hr_value <$> result).

Definition hdel (key : string) (fields : list string) : M Z :=
  requireDb >>
  let* changes := run (λ t,
    let rows := delete_hash key fields (hash_store t) in
    (removed (hash_store t) rows, on_hashes (λ _, rows) t)) in
  ret changes.

Definition hmget (key : string) (fields : list string) (now : Z)
  : M (list (option string)) :=
  requireDb >>
  for_of fields [] (λ results field,
    let* result := query (λ t, select_hash key field now (hash_store t)) in
    ret (results ++ [hr_value <$> result])).

(** *** Key operations *)

Definition del (keys : list string) : M Z :=
  requireDb >>
  BEGIN_TRANSACTION >>
  try_catch
    (let* deleted := for_of table_names 0 (λ deleted tb,
       for_of keys deleted (λ deleted key,
         let* changes := run (delete_from tb key) in
         ret (deleted + (if bool_decide (0 < changes) then 1 else 0)))) in
     COMMIT >>
     ret deleted)
    (λ error, ROLLBACK >> throw error).

(** The inner loop of [exists] with its [break]. *)
Definition exists_ (keys : list string) : M Z :=
  requireDb >>
  for_of keys 0 (λ count key,
    let* found := for_of table_names false (λ found tb,
      if found then ret true else query (key_in tb key)) in
    ret (if found then count + 1 else count)).

(** *** Set operations *)

Definition sismember (key member : string) (now : Z) : M Z :=
  requireDb >>
  let* result := query (λ t, select_member key member now (set_store t)) in
  ret (match result with Some _ => 1 | None => 0 end).

Definition smembers (key : string) (now : Z) : M (list string) :=
  requireDb >>
  let* results := query (λ t, select_members key now (set_store t)) in
  ret (mr_member <$> results).

Definition sadd (key : string) (members : list string) (now : Z) : M Z :=
  requireDb >>
  rejectString key now >>
  let* own := standalone in
  when own (BEGIN_TRANSACTION >> write (with_inTransaction true)) >>
  try_catch
    (let* added := for_of members 0 (λ added member,
       let* changes := run (λ t,
         let '(changes, rows) := insert_ignore_set key member (set_store t) in
         (changes, on_sets (λ _, rows) t)) in
       ret (added + changes)) in
     let* own := standalone in
     when own (COMMIT >> write (with_inTransaction false)) >>
     ret added)
    (λ error,
     let* own := standalone in
     when own (ROLLBACK >> write (with_inTransaction false)) >>
     throw error).

Definition srem (key : string) (members : list string) : M Z :=
  requireDb >>
  let* changes := run (λ t,
    let rows := delete_set key members (set_store t) in
    (removed (set_store t) rows, on_sets (λ _, rows) t)) in
  ret changes.

(** *** Key expiration *)

(** [seconds] is a whole number of seconds, and [now + seconds * 1000] is
    computed in the integers: the same as in JavaScript as long as the
    product and the sum are safe integers. *)
Definition expire (key : string) (seconds : Z) (now : Z) : M Z :=
  requireDb >>
  let expiry := now + seconds * 1000 in
  let* updated := for_of table_names 0 (λ updated tb,
    let* changes := run (expire_in tb expiry key) in
    ret (updated + changes)) in
  ret (if bool_decide (0 < updated) then 1 else 0).

(** [Math.ceil(ms / 1000)] for an integer number of milliseconds *)
Definition ceil_seconds (ms : Z) : Z := - ((- ms) `div` 1000).

(** The loop of [ttl] with its [return] from inside: the first table that has
    a row of the key with a non-null expiry decides. *)
Definition ttl (key : string) (now : Z) : M Z :=
  requireDb >>
  let* found := for_of table_names None (λ found tb,
    match found with
    | Some answer => ret (Some answer)
    | None =>
        let* result := query (expiry_in tb key) in
        match result with
        | Some expiry =>
            let ttl := ceil_seconds (expiry - now) in
            ret (Some (if bool_decide (0 < ttl) then ttl else -1))
        | None => ret None
        end
    end) in
  ret (default (-2) found).

(** *** Database operations *)

Definition flushdb : M unit :=
  requireDb >>
  BEGIN_TRANSACTION >>
  try_catch
    (for_of table_names () (λ _ tb, run (truncate tb)) >>
     COMMIT)
    (λ error, ROLLBACK >> throw error).

Definition flushall : M unit := flushdb.

Definition info : M string := ret "6.0.0".

(** *** Authentication *)

(** [!this.password]: null and the empty string are falsy. *)
Definition no_password (e : engine) : bool :=
  match password e with
  | None | Some EmptyString => true
  | Some _ => false
  end.

Definition auth (given : string) : M ok := λ e,
  if no_password e then (Throw "ERR Client sent AUTH, but no password is set", e)
  else if bool_decide (Some given = password e)
       then (Ok OK, with_isAuthenticated true e)
       else (Throw "ERR invalid password", e).

(** *** Transaction support *)

Definition multi : M unit :=
  write (λ e, with_transactionCommands [] (with_transactionMode true e)).

Definition addCommand (cmd : command) : M unit := λ e,
  if transactionMode e
  then (Ok (), with_transactionCommands (transactionCommands e ++ [cmd]) e)
  else (Throw NO_TRANSACTION, e).

(** [(this as any)[cmd.command](...cmd.args)] *)
Definition call (cmd : command) (now : Z) : M reply :=
  match cmd with
  | SET key value => let* _ := set key value in ret Status
  | GET key => let* v := get key now in ret (Bulk v)
  | MGET keys => let* vs := mget keys now in ret (Array vs)
  | LPUSH key values => let* n := lpush key values now in ret (Int n)
  | RPUSH key values => let* n := rpush key values now in ret (Int n)
  | LRANGE key start stop => let* vs := lrange key start stop in ret (Array (Some <$> vs))
  | RPOP key => let* v := rpop key false in ret (Bulk v)
  | LPOP key => let* v := lpop key in ret (Bulk v)
  | RPOPLPUSH source destination =>
      let* v := rpoplpush source destination now in ret (Bulk v)
  | HSET key field value => let* n := hset key field value in ret (Int n)
  | HMSET key fieldValues => let* _ := hmset key fieldValues in ret Status
  | HGET key field => let* v := hget key field now in ret (Bulk v)
  | HDEL key fields => let* n := hdel key fields in ret (Int n)
  | DEL keys => let* n := del keys in ret (Int n)
  | EXISTS keys => let* n := exists_ keys in ret (Int n)
  | HMGET key fields => let* vs := hmget key fields now in ret (Array vs)
  | SISMEMBER key member => let* n := sismember key member now in ret (Int n)
  | SMEMBERS key => let* vs := smembers key now in ret (Array (Some <$> vs))
  | SADD key members => let* n := sadd key members now in ret (Int n)
  | SREM key members => let* n := srem key members in ret (Int n)
  | EXPIRE key seconds => let* n := expire key seconds now in ret (Int n)
  | TTL key => let* n := ttl key now in ret (Int n)
  | FLUSHDB => let* _ := flushdb in ret Undefined
  | FLUSHALL => let* _ := flushall in ret Undefined
  | INFO => let* v := info in ret (Version v)
  | AUTH given => let* _ := auth given in ret Status
  end.

(** [cmd.command === "hget" || cmd.command === "hset" || cmd.command === "hmset"],
    with [cmd.args[0]] *)
Definition hash_command_key (cmd : command) : option string :=
  match cmd with
  | HGET key _ | HSET key _ _ | HMSET key _ => Some key
  | _ => None
  end.

Definition exec (now : Z) : M (list (outcome reply)) :=
  requireDb >>
  let* mode := read transactionMode in
  if negb mode then throw NO_TRANSACTION
  else
    try_catch
      (let* active := read inTransaction in
       when (negb active) (BEGIN_TRANSACTION >> write (with_inTransaction true)) >>
       let* commands := read transactionCommands in
       let* results := for_of commands [] (λ results cmd,
         try_catch
           (match hash_command_key cmd with
            | Some key => rejectString key now
            | None => ret ()
            end >>
            let* result := call cmd now in
            ret (results ++ [Ok result]))
           (λ error, ret (results ++ [Throw error]))) in
       COMMIT >>
       write (with_inTransaction false) >>
       write (with_transactionMode false) >>
       write (with_transactionCommands []) >>
       ret results)
      (λ error,
       let* active := read inTransaction in
       when active (ROLLBACK >> write (with_inTransaction false)) >>
       write (with_transactionMode false) >>
       write (with_transactionCommands []) >>
       throw error).

(** *** Connection and cleanup *)

(** The callback of [startExpiryChecker], run by the runtime on every tick of
    an interval that has not been cleared. *)
Definition onInterval (id : nat) (now : Z) : M unit := λ e,
  if decide (id ∈ intervals e) then
    match db e with
    | None => (Ok (), e)
    | Some _ => for_of table_names () (λ _ tb, run (reap tb now)) e
    end
  else (Ok (), e).

Definition startExpiryChecker : M unit :=
  let* id := fresh in
  write (λ e, with_intervals ({[id]} ∪ intervals e) e) >>
  write (with_expiryCheckerId (Some id)).

(** [connect]: [contents] is what the opened file holds; [":memory:"] is
    empty.  [initializeTables] only creates tables and indexes that do not
    exist yet, which changes no row. *)
Definition connect (contents : tables) : M unit :=
  write (with_db (Some (Connection contents None))) >>
  requireDb >>
  startExpiryChecker.

Definition close : M unit := λ e,
  let e :=
    match expiryCheckerId e with
    | Some id => with_expiryCheckerId None (with_intervals (intervals e ∖ {[id]}) e)
    | None => e
    end in
  match db e with
  | Some _ => (Ok (), with_db None e)
  | None => (Ok (), e)
  end.

(** *** The public methods, as one entry point *)

Inductive request :=
| Command (cmd : command)
| Brpoplpush (source destination : string) (timeout_sec : Z)
| Multi
| AddCommand (cmd : command)
| Exec
| Close.

Inductive response :=
| Reply (r : reply)
| Replies (rs : list (outcome reply))
| Awaited (a : awaited).

Definition serve (rq : request) (now : Z) : M response :=
  match rq with
  | Command cmd => let* r := call cmd now in ret (Reply r)
  | Brpoplpush source destination timeout_sec =>
      let* a := brpoplpush source destination timeout_sec now in ret (Awaited a)
  | Multi => multi >> ret (Reply Undefined)
  | AddCommand cmd => addCommand cmd >> ret (Reply Undefined)
  | Exec => let* rs := exec now in ret (Replies rs)
  | Close => close >> ret (Reply Undefined)
  end.


(** An engine on a fresh in-memory database. *)
Definition connected : engine := (connect no_rows (constructor None)).2.

(** The rows the engine reads. *)
Definition rows (e : engine) : tables :=
  match db e with
  | Some c => data c
  | None => no_rows
  end.

End Engine.

(** ** The engine of redis-sqlite-typepersist.ts

    The typepersist library is a query builder over SQL tables whose rows
    carry a numeric [id].  What the methods below use of it:
    [query(t).where(..).and(..)] selects the rows that satisfy every
    condition, [first()] answers the first of them or undefined, [insert]
    adds a row under a fresh id with the fields it is given, and
    [update(t, id, fields)] overwrites the given fields of the row [id].  A
    comparison [Cmp.Gt] of a missing [expiry] with a number does not hold, in
    SQL (NULL) as in JavaScript (undefined). *)

Module TypePersist.

(** [interface Record] *)
Record record := Rec {
  id : nat;
  key : string;
  value : option string;
  field : option string;
  member : option string;
  index : option Z;
  expiry : option Z }.

Record database := Database {
  string_rows : list record;
  hash_rows : list record;
  list_rows : list record;
  set_rows : list record;
  next_id : nat }.

Definition empty : database := Database [] [] [] [] 1%nat.

(** [("expiry", Cmp.Gt, now)] *)
Definition expiry_gt (now : Z) (r : record) : bool :=
  match expiry r with
  | Some t => bool_decide (now < t)
  | None => false
  end.

(** [db.update(table, id, { value })] *)
Definition update_value (target : nat) (v : string) (rows : list record) : list record :=
  (λ r, if decide (id r = target)
        then Rec (id r) (key r) (Some v) (field r) (member r) (index r) (expiry r)
        else r) <$> rows.

Definition set (k v : string) (d : database) : Engine.ok * database :=
  match head (filter (λ r, key r = k) (string_rows d)) with
  | Some result =>
      (Engine.OK,
       Database (update_value (id result) v (string_rows d))
         (hash_rows d) (list_rows d) (set_rows d) (next_id d))
  | None =>
      (Engine.OK,
       Database (string_rows d ++ [Rec (next_id d) k (Some v) None None None None])
         (hash_rows d) (list_rows d) (set_rows d) (S (next_id d)))
  end.

(** [result?.value ?? null] *)
Definition get (k : string) (now : Z) (d : database) : option string :=
  head (filter (λ r, key r = k ∧ expiry_gt now r) (string_rows d)) ≫= value.

Definition hset (k f v : string) (d : database) : Z * database :=
  match head (filter (λ r, key r = k ∧ field r = Some f) (hash_rows d)) with
  | Some result =>
      (1,
       Database (string_rows d) (update_value (id result) v (hash_rows d))
         (list_rows d) (set_rows d) (next_id d))
  | None =>
      (0,
       Database (string_rows d)
         (hash_rows d ++ [Rec (next_id d) k (Some v) (Some f) None None None])
         (list_rows d) (set_rows d) (S (next_id d)))
  end.

(** [ttl]: the first table with a row of the key whose expiry is not null
    decides, as in the SQLite engine. *)
Definition ttl (k : string) (now : Z) (d : database) : Z :=
  let first_expiry (rows : list record) :=
    head (omap expiry (filter (λ r, key r = k) rows)) in
  let answer (e : Z) :=
    let ttl := Engine.ceil_seconds (e - now) in
    if bool_decide (0 < ttl) then ttl else -1 in
  match first_expiry (string_rows d), first_expiry (hash_rows d),
        first_expiry (list_rows d), first_expiry (set_rows d) with
  | Some e, _, _, _ | None, Some e, _, _
  | None, None, Some e, _ | None, None, None, Some e => answer e
  | None, None, None, None => -2
  end.

(** [db.update(table, id, { expiry })] *)
Definition update_expiry (target : nat) (x : Z) (rows : list record) : list record :=
  (λ r, if decide (id r = target)
        then Rec (id r) (key r) (value r) (field r) (member r) (index r) (Some x)
        else r) <$> rows.

(** One round of the loop of [expire]: the records of the key in one table,
    each updated through its id; whether there was any. *)
Definition expire_table (k : string) (x : Z) (rows : list record)
  : bool * list record :=
  let result := filter (λ r, key r = k) rows in
  (bool_decide (result ≠ []),
   fold_left (λ rows r, update_expiry (id r) x rows) result rows).

Definition expire (k : string) (seconds now : Z) (d : database) : Z * database :=
  let x := now + seconds * 1000 in
  let strings := expire_table k x (string_rows d) in
  let hashes := expire_table k x (hash_rows d) in
  let lists := expire_table k x (list_rows d) in
  let sets := expire_table k x (set_rows d) in
  let updated :=
    (if strings.1 then 1 else 0) + (if hashes.1 then 1 else 0)
    + (if lists.1 then 1 else 0) + (if sets.1 then 1 else 0) in
  (if bool_decide (0 < updated) then 1 else 0,
   Database strings.2 hashes.2 lists.2 sets.2 (next_id d)).

(** *** Lists

    The schema of list_store declares [primaryKey(["key", "index"])].  What
    the library answers when an insert or an update would give a row the key
    and index of another row is not in this repository: the model of a call
    ends there, with [None]. *)

Definition taken (k : string) (i : Z) (besides : nat) (rows : list record) : Prop :=
  Exists (λ r, id r ≠ besides ∧ key r = k ∧ index r = Some i) rows.

#[export] Instance taken_dec k i besides rows : Decision (taken k i besides rows).
Proof. unfold taken. apply _. Defined.

(** [db.update(table, record.id, { index })] *)
Definition update_index (record : record) (i : Z) (rows : list TypePersist.record)
  : option (list TypePersist.record) :=
  if decide (taken (key record) i (id record) rows) then None
  else Some ((λ r, if decide (id r = id record)
                   then Rec (id r) (key r) (value r) (field r) (member r)
                          (Some i) (expiry r)
                   else r) <$> rows).

(** [db.insert(table, { key, index, value })]; ids start at 1. *)
Definition insert_element (k : string) (i : Z) (v : string) (d : database)
  : option database :=
  if decide (taken k i 0%nat (list_rows d)) then None
  else Some (Database (string_rows d) (hash_rows d)
               (list_rows d ++ [Rec (next_id d) k (Some v) None None (Some i) None])
               (set_rows d) (S (next_id d))).

(** A loop whose rounds can end the model. *)
Fixpoint each {A X} (round : X → A → option A) (xs : list X) (a : A) : option A :=
  match xs with
  | [] => Some a
  | x :: xs' => a' ← round x a; each round xs' a'
  end.

Definition lpush (k : string) (values : list string) (now : Z) (d : database)
  : option (outcome Z * database) :=
  if bool_decide (filter (λ r, key r = k ∧ expiry_gt now r) (string_rows d) ≠ [])
  then Some (Throw WRONGTYPE, d)
  else
    let records := filter (λ r, key r = k) (list_rows d) in
    rows ← each (λ record rows,
              update_index record
                (default 0 (index record) + Z.of_nat (length values)) rows)
            records (list_rows d);
    d ← each (λ i d,
           insert_element k (Z.of_nat i)
             (nth (length values - 1 - i)%nat values EmptyString) d)
         (seq 0 (length values))
         (Database (string_rows d) (hash_rows d) rows (set_rows d) (next_id d));
    Some (Ok (Z.of_nat (length (filter (λ r, key r = k) (list_rows d)))), d).

(** [orderBy("index", "asc")] *)
Definition index_le (r1 r2 : record) : Prop :=
  match index r1, index r2 with
  | Some i1, Some i2 => i1 ≤ i2
  | None, _ => True
  | Some _, None => False
  end.

#[export] Instance index_le_dec r1 r2 : Decision (index_le r1 r2).
Proof. unfold index_le. destruct (index r1), (index r2); apply _. Defined.

(** [("index", Cmp.Gte, realStart)] and [("index", Cmp.Lte, realStop)] *)
Definition index_between (lo hi : Z) (r : record) : Prop :=
  match index r with
  | Some i => lo ≤ i ≤ hi
  | None => False
  end.

#[export] Instance index_between_dec lo hi r : Decision (index_between lo hi r).
Proof. unfold index_between. destruct (index r); apply _. Defined.

Definition lrange (k : string) (start stop : Z) (d : database) : list string :=
  let length := Z.of_nat (length (filter (λ r, key r = k) (list_rows d))) in
  let realStart := if bool_decide (0 ≤ start) then start else length + start in
  let realStop := if bool_decide (0 ≤ stop) then stop else length + stop in
  let realStart := Z.max 0 realStart in
  let realStop := Z.min (length - 1) realStop in
  if bool_decide (realStop < realStart) then []
  else
    let results :=
      merge_sort index_le
        (filter (λ r, key r = k ∧ index_between realStart realStop r)
           (list_rows d)) in
    (λ r, default EmptyString (value r)) <$> results.

End TypePersist.

(** ** Properties stated by the specification *)

Module Spec.
Import Sql Engine.

(** The tables that hold at least one row of [key]. *)
Definition holders (key : string) (t : tables) : list table :=
  filter (λ tb, key_in tb key t) table_names.

(** Type exclusivity: rows of [key] are in at most one of the four stores. *)
Definition exclusive (key : string) (t : tables) : Prop :=
  (length (holders key t) ≤ 1)%nat.

(** SET on an existing string key keeps the expiry of its row. *)
Definition set_keeps_expiry (e : engine) (key value : string) : Prop :=
  ∀ r, r ∈ string_store (rows e) → sr_key r = key →
    ∃ r', r' ∈ string_store (rows (set key value e).2) ∧
          sr_key r' = key ∧ sr_value r' = value ∧ sr_expiry r' = sr_expiry r.

(** MULTI, the queueing of [cmds], EXEC. *)
Definition batch (cmds : list command) (now : Z) : M (list (outcome reply)) :=
  multi >>
  for_of cmds () (λ _ cmd, addCommand cmd) >>
  exec now.

(** The commands of [cmds] called one after the other, each with its own
    result or error. *)
Definition direct (cmds : list command) (now : Z) : M (list (outcome reply)) :=
  for_of cmds [] (λ results cmd,
    try_catch
      (let* result := call cmd now in ret (results ++ [Ok result]))
      (λ error, ret (results ++ [Throw error]))).

(** EXEC of a queue leaves the rows that calling its commands in order leaves. *)
Definition exec_refines_direct (e : engine) (cmds : list command) (now : Z) : Prop :=
  rows (batch cmds now e).2 = rows (direct cmds now e).2.

(** A string key with an expiry, as SET then EXPIRE leave it. *)
Definition aged : engine := ((set "k" "v" >> expire "k" 10 5) connected).2.

(** The tables after [UPDATE ... SET expiry = ? WHERE key = ?] on each. *)
Definition expired_tables (expiry : Z) (key : string) (t : tables) : tables :=
  Tables (update_expiry expiry key (string_store t))
         (update_expiry expiry key (hash_store t))
         (update_expiry expiry key (list_store t))
         (update_expiry expiry key (set_store t)).

(** *** What happens to an engine: calls, and callbacks of the runtime *)

Inductive event :=
| Calls (rq : request) (now : Z)
| TimeoutFires (timeoutId : nat)
| IntervalFires (id : nat) (now : Z).

Definition step (ev : event) (e : engine) : engine :=
  match ev with
  | Calls rq now => (serve rq now e).2
  | TimeoutFires timeoutId => (onTimeout timeoutId e).2
  | IntervalFires id now => (onInterval id now e).2
  end.

Fixpoint run_events (evs : list event) (e : engine) : engine :=
  match evs with
  | [] => e
  | ev :: evs' => run_events evs' (step ev e)
  end.


(** *** Triples for the methods: from [P], a normal end in [Q], a throw in [E] *)

Definition hoare {A} (P : engine → Prop) (m : M A)
    (Q : A → engine → Prop) (E : engine → Prop) : Prop :=
  ∀ e, P e →
    match m e with
    | (Ok a, e') => Q a e'
    | (Throw _, e') => E e'
    end.

(** [m] keeps the invariant [I], however it ends. *)
Definition keeps {A} (I : engine → Prop) (m : M A) : Prop :=
  hoare I m (λ _, I) I.

(** *** Lists *)

(** The stored indices of a list key. *)
Definition indices (key : string) (rows : list list_row) : list Z :=
  lr_index <$> of_key key rows.

(** A list of indices that is 0 .. len-1 in some order. *)
Definition contig (l : list Z) : Prop :=
  l ≡ₚ seqZ 0 (Z.of_nat (length l)).

(** List contiguity: the stored indices of [key] are exactly 0 .. len-1. *)
Definition contiguous (key : string) (rows : list list_row) : Prop :=
  contig (indices key rows).

(** The rows LPUSH inserts: index i holds the argument number n-1-i. *)
Definition pushed_rows (key : string) (values : list string) : list list_row :=
  imap (λ i v, ListRow key (Z.of_nat i) v None) (reverse values).

(** The UPDATE that moves the indices of [key] by [by_] goes through: no row
    of the key is moved onto the index that a row after it, in the order of
    the rowids, still holds. *)
Fixpoint shift_free (by_ : Z) (key : string) (rows : list list_row) : Prop :=
  match rows with
  | [] => True
  | r :: rows' =>
      (lr_key r = key → lr_index r + by_ ∉ indices key rows')
      ∧ shift_free by_ key rows'
  end.

#[export] Instance shift_free_dec by_ key rows : Decision (shift_free by_ key rows).
Proof. induction rows; cbn [shift_free]; apply _. Defined.

(** The list table after an LPUSH whose UPDATE went through: every row of the
    key moved up by the number of arguments, then the new rows. *)
Definition after_lpush (key : string) (values : list string) (rows : list list_row)
  : list list_row :=
  shifted (Z.of_nat (length values)) key rows ++ pushed_rows key values.

(** The rows RPUSH inserts from index [from] on, in argument order. *)
Fixpoint appended_rows (key : string) (from : Z) (values : list string)
  : list list_row :=
  match values with
  | [] => []
  | v :: values' => ListRow key from v None :: appended_rows key (from + 1) values'
  end.

Inductive list_op :=
| Lpush (key : string) (values : list string)
| Rpush (key : string) (values : list string)
| Lpop (key : string)
| Rpop (key : string)
| Lrange (key : string) (start stop : Z).

Definition list_command (op : list_op) : command :=
  match op with
  | Lpush key values => LPUSH key values
  | Rpush key values => RPUSH key values
  | Lpop key => LPOP key
  | Rpop key => RPOP key
  | Lrange key start stop => LRANGE key start stop
  end.

(** A list operation called directly, or a MULTI/EXEC of list operations. *)
Inductive list_step :=
| Direct (op : list_op) (now : Z)
| Batch (ops : list list_op) (now : Z).

Definition list_run (s : list_step) (e : engine) : engine :=
  match s with
  | Direct op now => (call (list_command op) now e).2
  | Batch ops now => (batch (list_command <$> ops) now e).2
  end.

(** The engine after each step of a sequence. *)
Fixpoint list_trace (steps : list list_step) (e : engine) : list engine :=
  match steps with
  | [] => []
  | s :: steps' => list_run s e :: list_trace steps' (list_run s e)
  end.

(** LPOP, the one method that deletes a row before it runs the UPDATE of the
    indices. *)
Definition is_lpop (cmd : command) : bool :=
  match cmd with
  | LPOP _ => true
  | _ => false
  end.

(** The steps that run LPOP. *)
Definition pops_head (s : list_step) : bool :=
  match s with
  | Direct op _ => is_lpop (list_command op)
  | Batch ops _ => existsb (λ op, is_lpop (list_command op)) ops
  end.

(** LPUSH a, LPUSH b, LPUSH c, LPOP on one key. *)
Definition three_pushes_and_a_pop (key : string) : list list_op :=
  [Lpush key ["a"]; Lpush key ["b"]; Lpush key ["c"]; Lpop key].

(** The invariant behind list contiguity: the rows the engine reads, and the
    rows a ROLLBACK would restore, are contiguous for every key. *)
Definition contiguous_tables (t : tables) : Prop :=
  ∀ key, contiguous key (list_store t).

Definition connection_ok (c : connection) : Prop :=
  contiguous_tables (data c) ∧ ∀ t, snapshot c = Some t → contiguous_tables t.

Definition lists_ok (e : engine) : Prop :=
  ∃ c, db e = Some c ∧ connection_ok c.

(** ** Further notions used by the properties beyond the claims *)

(** Some table holds a row of [key], live or not. *)
Definition held (key : string) (t : tables) : bool :=
  key_in string_table key t || key_in hash_table key t
  || key_in list_table key t || key_in set_table key t.

(** The tables after one tick of the expiry checker. *)
Definition reaped (now : Z) (t : tables) : tables :=
  Tables (delete_elapsed now (string_store t)) (delete_elapsed now (hash_store t))
         (delete_elapsed now (list_store t)) (delete_elapsed now (set_store t)).

(** Whether the connection has a transaction open. *)
Definition open (c : connection) : bool :=
  match snapshot c with Some _ => true | None => false end.

(** A condition on the open transaction and on the two flags of the class,
    [inTransaction] and [transactionMode], of an engine with a database. *)
Definition transaction_state (R : bool → bool → bool → Prop) (e : engine) : Prop :=
  ∃ c, db e = Some c ∧ R (open c) (inTransaction e) (transactionMode e).

(** The flag [inTransaction] says whether a transaction is open. *)
Definition flag_agrees : engine → Prop :=
  transaction_state (λ is_open flag _, flag = is_open).

(** The state in which [exec] runs the queued commands: its transaction is
    open and both flags are set. *)
Definition inside_exec : engine → Prop :=
  transaction_state (λ is_open flag mode,
    is_open = true ∧ flag = true ∧ mode = true).

(** Between the BEGIN and the COMMIT of a method that does not set the flag. *)
Definition inside_private : engine → Prop :=
  transaction_state (λ is_open flag _, is_open = true ∧ flag = false).

(** What [exec] needs to run the queue [cmds], and what it leaves behind. *)
Definition exec_ready (cmds : list command) (e : engine) : Prop :=
  flag_agrees e ∧ transactionMode e = true ∧ transactionCommands e = cmds.

Definition exec_done (e : engine) : Prop :=
  flag_agrees e ∧ inTransaction e = false ∧ transactionMode e = false
  ∧ transactionCommands e = [].

(** No transaction is open. *)
Definition committed : engine → Prop :=
  transaction_state (λ is_open _ _, is_open = false).

(** The events that close the database. *)
Definition closes (ev : event) : bool :=
  match ev with Calls Close _ => true | _ => false end.

(** The tables without the rows of the keys [keys]. *)
Definition without {R} `{Keyed R} (keys : list string) (rows : list R) : list R :=
  filter (λ r, row_key r ∉ keys) rows.

Definition deleted_tables (keys : list string) (t : tables) : tables :=
  Tables (without keys (string_store t)) (without keys (hash_store t))
         (without keys (list_store t)) (without keys (set_store t)).

(** How many different keys of [keys] have a row in the table [tb]. *)
Definition held_in (tb : table) (keys : list string) (t : tables) : nat :=
  length (filter (λ key, key_in tb key t = true) (remove_dups keys)).

(** The set rows after the INSERT OR IGNORE of each of [members] in turn. *)
Definition after_sadd (key : string) (members : list string) (rows : list set_row)
  : list set_row :=
  fold_left (λ rows member, (insert_ignore_set key member rows).2) members rows.

(** The members of [members] that are new to the set [key]. *)
Definition new_members (key : string) (members : list string) (rows : list set_row)
  : list string :=
  filter (λ member, ¬ Exists (set_pk key member) rows) (remove_dups members).

(** The primary key of set_store: no two rows with one key and member. *)
Definition set_unique (rows : list set_row) : Prop :=
  NoDup ((λ r, (mr_key r, mr_member r)) <$> rows).

(** The list stored under [key] as a reader sees it: its values by
    ascending index. *)
Definition elements (key : string) (rows : list list_row) : list string :=
  lr_value <$> merge_sort index_le (of_key key rows).

(** The ticks of the expiry checker. *)
Definition reaps (ev : event) : bool :=
  match ev with IntervalFires _ _ => true | _ => false end.

(** The engine with another password and authentication flag. *)
Definition with_credentials (pw : option string) (b : bool) (e : engine) : engine :=
  MkEngine (db e) (inTransaction e) (transactionMode e) (transactionCommands e)
    pw b (blockingOperations e) (expiryCheckerId e)
    (timeouts e) (intervals e) (settled e) (next_handle e).

(** [m] does the same whatever [f] changed, and leaves what [f] changed. *)
Definition commutes {A} (f : engine → engine) (m : M A) : Prop :=
  ∀ e, m (f e) = ((m e).1, f (m e).2).

(** The requests that run AUTH, the one method that reads the password:
    AUTH itself, and an EXEC with AUTH in its queue. *)
Definition is_auth (cmd : command) : bool :=
  match cmd with AUTH _ => true | _ => false end.

Definition runs_auth (rq : request) (e : engine) : bool :=
  match rq with
  | Command cmd => is_auth cmd
  | Exec => existsb is_auth (transactionCommands e)
  | _ => false
  end.

(** The events that call LPOP or queue it. *)
Definition lpops (ev : event) : bool :=
  match ev with
  | Calls (Command cmd) _ | Calls (AddCommand cmd) _ => is_lpop cmd
  | _ => false
  end.

(** The lists are contiguous and no LPOP is queued. *)
Definition quiet (e : engine) : Prop :=
  lists_ok e ∧ Forall (λ cmd, is_lpop cmd = false) (transactionCommands e).

(** The safe integers of JavaScript: the numbers on which the arithmetic of
    doubles is the arithmetic of the integers. *)
Definition safe_integer (z : Z) : Prop := - 2 ^ 53 < z < 2 ^ 53.

(** What [exec] does with one queued command: the type check of the hash
    commands, then the method. *)
Definition queued (cmd : command) (now : Z) : M reply :=
  match hash_command_key cmd with
  | Some key => rejectString key now
  | None => ret ()
  end >>
  call cmd now.

(** The queued commands run one after the other, each on the engine that the
    one before it left, whether it returned or threw: the outcomes, and the
    engine after the last. *)
Fixpoint run_queue (cmds : list command) (now : Z) (e : engine)
  : list (outcome reply) * engine :=
  match cmds with
  | [] => ([], e)
  | cmd :: cmds' =>
      let r := queued cmd now e in
      let rs := run_queue cmds' now r.2 in
      (r.1 :: rs.1, rs.2)
  end.

(** The engine after the BEGIN TRANSACTION of [exec], which it runs unless
    the flag [inTransaction] is set. *)
Definition begun (e : engine) : engine :=
  (when (negb (inTransaction e))
     (BEGIN_TRANSACTION >> write (with_inTransaction true)) e).2.

(** The engine after the COMMIT of [exec] and the reset of its fields. *)
Definition ended (e : engine) : engine :=
  with_transactionCommands []
    (with_transactionMode false
       (with_inTransaction false
          (with_db (c ← db e; Some (Connection (data c) None)) e))).

(** The commands that only run SELECTs. *)
Definition read_only (cmd : command) : bool :=
  match cmd with
  | GET _ | MGET _ | LRANGE _ _ _ | HGET _ _ | HMGET _ _
  | SISMEMBER _ _ | SMEMBERS _ | EXISTS _ | TTL _ | INFO => true
  | _ => false
  end.

End Spec.

(** * Proofs *)

Section ListFacts.
Context {A : Type}.

Lemma filter_filter_nil (P Q : A → Prop)
    `{!∀ x, Decision (P x)} `{!∀ x, Decision (Q x)} (l : list A) :
  (∀ x, P x → Q x → False) → filter P (filter Q l) = [].
Proof.
  intros HPQ. induction l as [|x l IH]; [done|].
  rewrite (filter_cons Q). destruct (decide (Q x)); [|done].
  rewrite filter_cons. destruct (decide (P x)); [|done].
  exfalso; eauto.
Qed.

Lemma filter_none (P : A → Prop) `{!∀ x, Decision (P x)} (l : list A) :
  (∀ x, x ∈ l → ¬ P x) → filter P l = [].
Proof.
  intros HP. induction l as [|x l IH]; [done|].
  rewrite filter_cons, decide_False by (apply HP; left).
  apply IH. intros y Hy. apply HP. by right.
Qed.

Lemma filter_all (P : A → Prop) `{!∀ x, Decision (P x)} (l : list A) :
  (∀ x, x ∈ l → P x) → filter P l = l.
Proof.
  intros HP. induction l as [|x l IH]; [done|].
  rewrite filter_cons, decide_True by (apply HP; left).
  f_equal. apply IH. intros y Hy. apply HP. by right.
Qed.

End ListFacts.

Section StringFacts.
Import Sql Engine.

Lemma select_replace_string key value now rows :
  select_string key now (replace_string key value rows)
  = Some (StringRow key value None).
Proof.
  unfold select_string, replace_string, delete_key.
  rewrite filter_app, filter_filter_nil; [|by intros x [? _] ?].
  cbn. by rewrite decide_True.
Qed.

Lemma of_key_replace_string key value rows :
  of_key key (replace_string key value rows) = [StringRow key value None].
Proof.
  unfold of_key, replace_string, delete_key.
  rewrite filter_app, filter_filter_nil; [|by intros x ? ?].
  cbn. by rewrite decide_True.
Qed.

Lemma set_run key value e c :
  set key value (with_db (Some c) e)
  = (Ok OK,
     with_db (Some (Connection (on_strings (replace_string key value) (data c))
                      (snapshot c))) e).
Proof. reflexivity. Qed.

Lemma get_run key now e c :
  get key now (with_db (Some c) e)
  = (Ok (sr_value <$> select_string key now (string_store (data c))),
     with_db (Some c) e).
Proof. reflexivity. Qed.

(** GET after SET in the SQLite engine: the row SET writes has a NULL expiry
    and GET accepts it. *)
Lemma get_after_set key value now e c :
  ((set key value >> get key now) (with_db (Some c) e)).1 = Ok (Some value).
Proof.
  unfold bind. rewrite set_run, get_run. cbn.
  by rewrite select_replace_string.
Qed.

(** C1 (GET after SET, both engines).  The round trip holds in the SQLite
    engine for every key, value, clock reading and connected engine.  In the
    typepersist engine it does not: SET on a new key inserts a row without
    expiry, and GET only accepts rows whose expiry is greater than now, so GET
    answers null. *)
Theorem get_after_set_both_engines :
  (∀ key value now e c,
     ((set key value >> get key now) (with_db (Some c) e)).1 = Ok (Some value))
  ∧ (∀ k v now,
       TypePersist.get k now (TypePersist.set k v TypePersist.empty).2 = None).
Proof.
  split; [apply get_after_set|].
  intros k v now. unfold TypePersist.get. cbn.
  case_decide as Hrow; [|done].
  by destruct Hrow as [_ ?].
Qed.

End StringFacts.

Section SetFacts.
Import Sql Engine Spec.

Lemma aged_rows :
  string_store (rows aged) = [StringRow "k" "v" (Some 10005)].
Proof. reflexivity. Qed.

(** C8, as stated, fails in the SQLite engine: SET on the key of [aged], whose
    row expires at 10005, leaves a row without expiry. *)
Lemma set_drops_expiry_sqlite : ¬ set_keeps_expiry aged "k" "w".
Proof.
  intros Hkeep.
  destruct (Hkeep (StringRow "k" "v" (Some 10005))) as (r' & Hin & _ & _ & Hexp).
  - rewrite aged_rows. left.
  - reflexivity.
  - change (string_store (rows (set "k" "w" aged).2))
      with [StringRow "k" "w" None] in Hin.
    apply list_elem_of_singleton in Hin. by subst r'.
Qed.

Lemma typepersist_update_head k v target (rows : list TypePersist.record) r :
  head (filter (λ r, TypePersist.key r = k) rows) = Some r →
  target = TypePersist.id r →
  head (filter (λ r, TypePersist.key r = k)
          (TypePersist.update_value target v rows))
  = Some (TypePersist.Rec (TypePersist.id r) (TypePersist.key r) (Some v)
            (TypePersist.field r) (TypePersist.member r) (TypePersist.index r)
            (TypePersist.expiry r)).
Proof.
  intros Hhead ->. induction rows as [|x rows IH]; [done|].
  unfold TypePersist.update_value. rewrite fmap_cons.
  fold (TypePersist.update_value (TypePersist.id r) v rows).
  rewrite filter_cons in Hhead. rewrite filter_cons.
  destruct (decide (TypePersist.key x = k)) as [Hk|Hk].
  - cbn in Hhead. injection Hhead as ->.
    rewrite (decide_True (P := TypePersist.id r = TypePersist.id r)) by done.
    cbn. by rewrite decide_True.
  - destruct (decide (TypePersist.id x = TypePersist.id r)); cbn;
      rewrite decide_False by done; by apply IH.
Qed.

Lemma typepersist_update_expiry target v (rows : list TypePersist.record) :
  TypePersist.expiry <$> TypePersist.update_value target v rows
  = TypePersist.expiry <$> rows.
Proof.
  induction rows as [|x rows IH]; [done|].
  cbn. rewrite <- IH. by destruct (decide (TypePersist.id x = target)).
Qed.

(** C8, amended.  SET on a key that has a string row replaces the value.  The
    SQLite engine replaces the whole row: the only row of the key afterwards
    is (key, value, NULL).  The typepersist engine updates the value of the
    row in place: the row keeps its id and its expiry, and the expiry column
    of the table is unchanged. *)
Theorem set_expiry_by_engine :
  (∀ key value e c,
     of_key key (string_store (rows (set key value (with_db (Some c) e)).2))
     = [StringRow key value None])
  ∧ (∀ k v d r,
       head (filter (λ r, TypePersist.key r = k) (TypePersist.string_rows d)) = Some r →
       let d' := (TypePersist.set k v d).2 in
       (∃ r', head (filter (λ r, TypePersist.key r = k) (TypePersist.string_rows d'))
              = Some r'
              ∧ TypePersist.value r' = Some v
              ∧ TypePersist.expiry r' = TypePersist.expiry r
              ∧ TypePersist.id r' = TypePersist.id r)
       ∧ TypePersist.expiry <$> TypePersist.string_rows d'
         = TypePersist.expiry <$> TypePersist.string_rows d).
Proof.
  split.
  - intros key value e c. rewrite set_run. cbn.
    apply of_key_replace_string.
  - intros k v d r Hhead. unfold TypePersist.set. rewrite Hhead. cbn. split.
    + eexists. split; [by apply typepersist_update_head|done].
    + apply typepersist_update_expiry.
Qed.

Lemma set_expiry_by_engine_witness :
  let d := TypePersist.Database
             [TypePersist.Rec 1 "k" (Some "v") None None None (Some 10005)]
             [] [] [] 2 in
  TypePersist.expiry <$> TypePersist.string_rows (TypePersist.set "k" "w" d).2
  = [Some 10005].
Proof.
  intros d.
  exact (proj2 (proj2 set_expiry_by_engine "k" "w" d
                  (TypePersist.Rec 1 "k" (Some "v") None None None (Some 10005))
                  eq_refl)).
Defined.

(** C2.  SET has no type check in either engine.  In the SQLite engine it
    answers OK on every connected engine; called on a key that holds a list
    it leaves rows of the key in the string store and in the list store.  In
    the typepersist engine it touches the string table only. *)
Theorem set_on_list_key :
  (∀ key value e c, (set key value (with_db (Some c) e)).1 = Ok OK)
  ∧ (let e1 := (lpush "k" ["a"] 0 connected).2 in
     (set "k" "v" e1).1 = Ok OK
     ∧ holders "k" (rows e1) = [list_table]
     ∧ holders "k" (rows (set "k" "v" e1).2) = [string_table; list_table]
     ∧ ¬ exclusive "k" (rows (set "k" "v" e1).2))
  ∧ (∀ k v d,
       TypePersist.hash_rows (TypePersist.set k v d).2 = TypePersist.hash_rows d
       ∧ TypePersist.list_rows (TypePersist.set k v d).2 = TypePersist.list_rows d
       ∧ TypePersist.set_rows (TypePersist.set k v d).2 = TypePersist.set_rows d).
Proof.
  split; [done|]. split.
  - cbv zeta. split; [reflexivity|]. split; [reflexivity|]. split; [reflexivity|].
    unfold exclusive.
    change (holders "k" (rows (set "k" "v" (lpush "k" ["a"] 0 connected).2).2))
      with [string_table; list_table].
    cbn. lia.
  - intros k v d. unfold TypePersist.set.
    by destruct (head _).
Qed.

End SetFacts.

Section HashFacts.
Import Sql Engine Spec.

Lemma hset_run key field value e c :
  hset key field value (with_db (Some c) e)
  = (Ok 1,
     with_db (Some (Connection (on_hashes (replace_hash key field value) (data c))
                      (snapshot c))) e).
Proof. reflexivity. Qed.

(** C6.  Neither engine has the return value the claim states.  The SQLite
    engine answers [changes] of INSERT OR REPLACE, which is 1 also when the
    field existed.  The typepersist engine answers 1 when it found the field
    and 0 when it inserted it: on a new field 0, on a second HSET of the same
    field 1. *)
Theorem hset_return_value_by_engine :
  (∀ key field value e c, (hset key field value (with_db (Some c) e)).1 = Ok 1)
  ∧ (∀ key field v v' e c,
       ((hset key field v >> hset key field v') (with_db (Some c) e)).1 = Ok 1)
  ∧ (∀ k f v, (TypePersist.hset k f v TypePersist.empty).1 = 0)
  ∧ (∀ k f v v',
       (TypePersist.hset k f v' (TypePersist.hset k f v TypePersist.empty).2).1 = 1).
Proof.
  split; [done|]. split.
  - intros. unfold bind. by rewrite !hset_run.
  - split; [done|]. intros k f v v'.
    unfold TypePersist.hset. cbn. by rewrite decide_True.
Qed.

End HashFacts.

Section ExpiryFacts.
Import Sql Engine Spec.

(** What [ttl] answers, from the four SELECTs in the order of the loop. *)
Lemma ttl_run key now e c :
  ttl key now (with_db (Some c) e)
  = (Ok (match expiry_in string_table key (data c),
               expiry_in hash_table key (data c),
               expiry_in list_table key (data c),
               expiry_in set_table key (data c) with
         | Some x, _, _, _ | None, Some x, _, _
         | None, None, Some x, _ | None, None, None, Some x =>
             if bool_decide (0 < ceil_seconds (x - now))
             then ceil_seconds (x - now) else -1
         | None, None, None, None => -2
         end),
     with_db (Some c) e).
Proof.
  cbv beta iota zeta delta [ttl bind requireDb for_of table_names query on_db ret
    db with_db fold_left].
  cbn -[expiry_in].
  destruct (expiry_in string_table key (data c)); cbn -[expiry_in];
    destruct (expiry_in hash_table key (data c)); cbn -[expiry_in];
    destruct (expiry_in list_table key (data c)); cbn -[expiry_in];
    destruct (expiry_in set_table key (data c)); reflexivity.
Qed.

Lemma ceil_seconds_spec ms :
  1000 * (ceil_seconds ms - 1) < ms ≤ 1000 * ceil_seconds ms.
Proof.
  unfold ceil_seconds.
  pose proof (Z.div_mod (- ms) 1000 ltac:(lia)).
  pose proof (Z.mod_pos_bound (- ms) 1000 ltac:(lia)).
  lia.
Qed.

Lemma ttl_absent key now e c :
  (∀ tb, key_in tb key (data c) = false) →
  (ttl key now (with_db (Some c) e)).1 = Ok (-2).
Proof.
  intros Habsent. rewrite ttl_run. cbn [fst].
  assert (∀ tb, expiry_in tb key (data c) = None) as Hnone.
  { intros tb. specialize (Habsent tb).
    unfold key_in, expiry_in, select_expiry_string, select_expiry_hash,
      select_expiry_list, select_expiry_set, first_expiry in *.
    destruct tb; cbn in *; apply bool_decide_eq_false in Habsent;
      apply dec_stable in Habsent; by rewrite Habsent. }
  by rewrite !Hnone.
Qed.

Lemma expire_run key seconds now e c :
  ∃ n, expire key seconds now (with_db (Some c) e)
  = (Ok n,
     with_db (Some (Connection (expired_tables (now + seconds * 1000) key (data c))
                      (snapshot c))) e).
Proof.
  eexists.
  cbv beta iota zeta delta [expire bind requireDb for_of table_names run on_db ret
    expire_in on_table in_table db with_db on_strings on_hashes on_lists on_sets].
  cbn. reflexivity.
Qed.

Lemma of_key_update_expiry_string x key (rows : list string_row) :
  of_key key (update_expiry x key rows)
  = with_expiry (Some x) <$> of_key key rows.
Proof.
  unfold of_key, update_expiry. induction rows as [|r rows IH]; [done|].
  rewrite fmap_cons, !filter_cons.
  destruct (decide (row_key r = key)) as [Hk|Hk].
  - rewrite decide_True by exact Hk. by rewrite fmap_cons, IH.
  - by rewrite decide_False by exact Hk.
Qed.

Lemma ttl_future key value seconds now now' e c :
  now' < now + seconds * 1000 →
  ((set key value >> expire key seconds now >> ttl key now')
     (with_db (Some c) e)).1
  = Ok (ceil_seconds (now + seconds * 1000 - now')).
Proof.
  intros Hfuture. unfold bind at 1. rewrite set_run.
  unfold bind at 1.
  destruct (expire_run key seconds now e
    (Connection (on_strings (replace_string key value) (data c)) (snapshot c)))
    as [n ->].
  rewrite ttl_run. cbn [fst data].
  unfold expiry_in at 1.
  cbn [in_table expired_tables string_store on_strings].
  unfold select_expiry_string, first_expiry.
  rewrite of_key_update_expiry_string, of_key_replace_string. cbn.
  rewrite bool_decide_true; [done|].
  pose proof (ceil_seconds_spec (now + seconds * 1000 - now')). lia.
Qed.

(** C7.  TTL of a key that exists without expiry is -2, not -1: the loop only
    looks for rows whose expiry is not null, finds none, and falls through to
    the answer for a missing key.  This holds for SET on any key of an empty
    SQLite database, and in the typepersist engine.  ([ttl_absent] and
    [ttl_future] are the two cases of the claim that hold.) *)
Theorem ttl_without_expiry :
  (∀ key value now e,
     ((set key value >> ttl key now) (with_db (Some (Connection no_rows None)) e)).1
     = Ok (-2))
  ∧ ((set "k" "v" >> ttl "k" 0) connected).1 = Ok (-2)
  ∧ (∀ k v now, TypePersist.ttl k now (TypePersist.set k v TypePersist.empty).2 = -2).
Proof.
  split; [|split].
  - intros key value now e. unfold bind. rewrite set_run, ttl_run.
    unfold expiry_in.
    cbn [fst data in_table string_store hash_store list_store set_store
         on_strings no_rows].
    unfold select_expiry_string, first_expiry.
    rewrite of_key_replace_string. done.
  - reflexivity.
  - intros k v now. unfold TypePersist.ttl. cbn.
    case_decide; done.
Qed.

End ExpiryFacts.

Section ExecFacts.
Import Sql Engine Spec.

(** C5.  EXEC does not leave the rows that the direct calls leave.
    HMSET begins a transaction of its own whatever the state of the engine;
    inside EXEC, whose transaction is open, SQLite refuses the nested BEGIN,
    the error is recorded in the result slot and no field is written.  Called
    directly, the same HMSET writes the field.  Besides, EXEC checks the key
    of HSET against the string store and HSET itself does not: on a string
    key EXEC records WRONGTYPE and the direct call adds the field. *)
Theorem exec_differs_from_direct_calls :
  (∀ key field value now,
     (batch [HMSET key [field; value]] now connected).1 = Ok [Throw NESTED_BEGIN]
     ∧ hash_store (rows (batch [HMSET key [field; value]] now connected).2) = []
     ∧ (direct [HMSET key [field; value]] now connected).1 = Ok [Ok Status]
     ∧ hash_store (rows (direct [HMSET key [field; value]] now connected).2)
       = [HashRow key field value None]
     ∧ ¬ exec_refines_direct connected [HMSET key [field; value]] now)
  ∧ (let e1 := (set "k" "v" connected).2 in
     (batch [HSET "k" "f" "x"] 0 e1).1 = Ok [Throw WRONGTYPE]
     ∧ (direct [HSET "k" "f" "x"] 0 e1).1 = Ok [Ok (Int 1)]
     ∧ ¬ exec_refines_direct e1 [HSET "k" "f" "x"] 0).
Proof.
  split.
  - intros key field value now.
    split; [reflexivity|]. split; [reflexivity|].
    split; [reflexivity|]. split; [reflexivity|].
    unfold exec_refines_direct. intros Heq.
    apply (f_equal hash_store) in Heq. discriminate Heq.
  - cbv zeta. split; [reflexivity|]. split; [reflexivity|].
    unfold exec_refines_direct. intros Heq.
    apply (f_equal hash_store) in Heq. discriminate Heq.
Qed.

End ExecFacts.

Section CloseFacts.
Import Sql Engine Spec.






End CloseFacts.

Section Triples.
Import Sql Engine Spec.
Implicit Types (P E : engine → Prop).

Lemma hoare_ret {A} P (Q : A → engine → Prop) E (a : A) :
  (∀ e, P e → Q a e) → hoare P (ret a) Q E.
Proof. intros HQ e HP. by apply HQ. Qed.

Lemma hoare_throw {A} P (Q : A → engine → Prop) E msg :
  (∀ e, P e → E e) → hoare P (throw msg) Q E.
Proof. intros HE e HP. by apply HE. Qed.

Lemma hoare_bind {A B} P (R : A → engine → Prop) (Q : B → engine → Prop) E
    (m : M A) (k : A → M B) :
  hoare P m R E → (∀ a, hoare (R a) (k a) Q E) → hoare P (bind m k) Q E.
Proof.
  intros Hm Hk e HP. unfold bind. specialize (Hm e HP).
  destruct (m e) as [[a|msg] e']; [|done]. by apply Hk.
Qed.

Lemma hoare_try_catch {A} P (Q : A → engine → Prop) E E' (body : M A) handler :
  hoare P body Q E' → (∀ msg, hoare E' (handler msg) Q E) →
  hoare P (try_catch body handler) Q E.
Proof.
  intros Hbody Hhandler e HP. unfold try_catch. specialize (Hbody e HP).
  destruct (body e) as [[a|msg] e']; [done|]. by apply Hhandler.
Qed.

Lemma hoare_conseq {A} P P' (Q Q' : A → engine → Prop) E E' (m : M A) :
  hoare P m Q E → (∀ e, P' e → P e) → (∀ a e, Q a e → Q' a e) →
  (∀ e, E e → E' e) → hoare P' m Q' E'.
Proof.
  intros Hm HP HQ HE e HP'. specialize (Hm e (HP e HP')).
  destruct (m e) as [[a|msg] e']; eauto.
Qed.

Lemma hoare_for_of {A X} (I : A → engine → Prop) E (xs : list X) acc
    (body : A → X → M A) :
  (∀ acc x, x ∈ xs → hoare (I acc) (body acc x) I E) →
  hoare (I acc) (for_of xs acc body) I E.
Proof.
  revert acc. induction xs as [|x xs IH]; intros acc Hbody.
  - by apply hoare_ret.
  - cbn [for_of]. eapply hoare_bind.
    + apply Hbody. left.
    + intros acc'. apply IH. intros acc'' y Hy. apply Hbody. by right.
Qed.

Lemma keeps_ret {A} I (a : A) : keeps I (ret a).
Proof. by apply hoare_ret. Qed.

Lemma keeps_throw {A} I msg : keeps I (throw (A := A) msg).
Proof. by apply hoare_throw. Qed.

Lemma keeps_bind {A B} I (m : M A) (k : A → M B) :
  keeps I m → (∀ a, keeps I (k a)) → keeps I (bind m k).
Proof. intros Hm Hk. eapply hoare_bind; [exact Hm|exact Hk]. Qed.

Lemma keeps_try_catch {A} I (body : M A) handler :
  keeps I body → (∀ msg, keeps I (handler msg)) → keeps I (try_catch body handler).
Proof. intros Hb Hh. eapply hoare_try_catch; [exact Hb|exact Hh]. Qed.

Lemma keeps_for_of {A X} I (xs : list X) (acc : A) body :
  (∀ acc x, keeps I (body acc x)) → keeps I (for_of xs acc body).
Proof.
  intros Hbody. apply (hoare_for_of (λ _, I)). intros ? ? _. apply Hbody.
Qed.

Lemma keeps_read {A} I (field : engine → A) : keeps I (read field).
Proof. by intros e HI. Qed.

End Triples.

Section Leaves.
Import Sql Engine Spec.

Lemma keeps_when I b m : keeps I m → keeps I (when b m).
Proof. intros Hm. destruct b; [done|]. apply keeps_ret. Qed.

Lemma keeps_requireDb I : keeps I requireDb.
Proof. intros e HI. unfold requireDb. by destruct (db e). Qed.

Lemma keeps_standalone I : keeps I standalone.
Proof. by intros e HI. Qed.

Lemma keeps_write I f : (∀ e, I e → I (f e)) → keeps I (write f).
Proof. intros Hf e HI. by apply Hf. Qed.

Lemma keeps_elim {A} I (m : M A) e : keeps I m → I e → I (m e).2.
Proof.
  intros Hk HI. specialize (Hk e HI). by destruct (m e) as [[a|msg] e'].
Qed.

End Leaves.

(** The structural part of a proof that a method keeps an invariant. *)
Ltac keeps_structure :=
  repeat (lazy beta zeta;
    lazymatch goal with
    | |- Spec.keeps _ (Engine.bind _ _) => apply keeps_bind; [|intros ?]
    | |- Spec.keeps _ (Engine.try_catch _ _) => apply keeps_try_catch; [|intros ?]
    | |- Spec.keeps _ (Engine.for_of _ _ _) => apply keeps_for_of; intros ? ?
    | |- Spec.keeps _ (Engine.when _ _) => apply keeps_when
    | |- Spec.keeps _ (Engine.ret _) => apply keeps_ret
    | |- Spec.keeps _ (Engine.throw _) => apply keeps_throw
    | |- Spec.keeps _ (Engine.read _) => apply keeps_read
    | |- Spec.keeps _ Engine.requireDb => apply keeps_requireDb
    | |- Spec.keeps _ Engine.standalone => apply keeps_standalone
    | |- Spec.keeps _ (match ?x with _ => _ end) => destruct x
    end).

Section Frame.
Import Sql Engine Spec.
Context (I : engine → Prop).
Context (I_db : ∀ v e, I e → I (with_db v e)).
Context (I_inTransaction : ∀ v e, I e → I (with_inTransaction v e)).
Context (I_transactionMode : ∀ v e, I e → I (with_transactionMode v e)).
Context (I_transactionCommands : ∀ v e, I e → I (with_transactionCommands v e)).
Context (I_isAuthenticated : ∀ v e, I e → I (with_isAuthenticated v e)).

Lemma frame_on_db {A} (f : connection → outcome A * connection) : keeps I (on_db f).
Proof.
  intros e HI. unfold on_db. destruct (db e) as [c|]; [|done].
  destruct (f c) as [[a|msg] c']; by apply I_db.
Qed.

Ltac frame_leaf :=
  first [ apply frame_on_db
        | apply keeps_write; intros; by eauto ].

Ltac frame_method :=
  keeps_structure;
  unfold rejectString, query, run, run_checked, BEGIN_TRANSACTION, COMMIT, ROLLBACK;
  keeps_structure; try frame_leaf.

Lemma frame_lpush key values now : keeps I (lpush key values now).
Proof. unfold lpush. frame_method. Qed.

Lemma frame_rpop key b : keeps I (rpop key b).
Proof. unfold rpop. frame_method. Qed.

Lemma frame_auth pw : keeps I (auth pw).
Proof.
  intros e HI. unfold auth. destruct (no_password e); [done|].
  case_bool_decide; [by apply I_isAuthenticated|done].
Qed.

Lemma frame_call cmd now : keeps I (call cmd now).
Proof.
  pose proof frame_lpush. pose proof frame_rpop. pose proof frame_auth.
  destruct cmd; unfold call;
    unfold set, get, mget, rpush, lrange, lpop, rpoplpush, hset, hmset, hget, hdel, del,
      exists_, hmget, sismember, smembers, sadd, srem, expire, ttl, flushall, flushdb, info;
    unfold get, hset;
    frame_method; eauto.
Qed.

End Frame.

Section FrameAll.
Import Sql Engine Spec.
Context (I : engine → Prop).
Context (I_db : ∀ v e, I e → I (with_db v e)).
Context (I_inTransaction : ∀ v e, I e → I (with_inTransaction v e)).
Context (I_transactionMode : ∀ v e, I e → I (with_transactionMode v e)).
Context (I_transactionCommands : ∀ v e, I e → I (with_transactionCommands v e)).
Context (I_isAuthenticated : ∀ v e, I e → I (with_isAuthenticated v e)).
Context (I_expiryCheckerId : ∀ v e, I e → I (with_expiryCheckerId v e)).
Context (I_intervals : ∀ v e, I e → I (with_intervals v e)).
Context (I_next_handle : ∀ v e, I e → I (with_next_handle v e)).
Context (I_timeouts : ∀ v e, I e → I (with_timeouts v e)).
Context (I_register : ∀ key r, keeps I (addBlockingOperation key r)).

Lemma frame_all_call cmd now : keeps I (call cmd now).
Proof. by apply frame_call. Qed.

Lemma frame_all_on_db {A} (f : connection → outcome A * connection) : keeps I (on_db f).
Proof. by apply frame_on_db. Qed.

Lemma frame_rpoplpush source destination now :
  keeps I (rpoplpush source destination now).
Proof.
  pose proof (frame_all_call (RPOPLPUSH source destination) now) as Hcall.
  intros e HI. specialize (Hcall e HI). unfold call, bind in Hcall.
  destruct (rpoplpush source destination now e) as [[v|msg] e']; exact Hcall.
Qed.

Lemma frame_fresh : keeps I fresh.
Proof. intros e HI. by apply I_next_handle. Qed.

Lemma frame_brpoplpush source destination timeout_sec now :
  keeps I (brpoplpush source destination timeout_sec now).
Proof.
  unfold brpoplpush. keeps_structure;
    first [ apply frame_rpoplpush | apply frame_fresh | apply I_register
          | apply keeps_write; intros; by eauto ].
Qed.

Lemma frame_exec now : keeps I (exec now).
Proof.
  unfold exec. keeps_structure;
    unfold rejectString, query, BEGIN_TRANSACTION, COMMIT, ROLLBACK; keeps_structure;
    first [ apply frame_all_on_db | apply frame_all_call
          | apply keeps_write; intros; by eauto ].
Qed.

Lemma frame_close : keeps I close.
Proof.
  intros e HI. unfold close.
  destruct (expiryCheckerId e); cbn; destruct (db e); cbn; eauto.
Qed.

Lemma frame_serve rq now : keeps I (serve rq now).
Proof.
  destruct rq; unfold serve, multi; keeps_structure;
    first [ apply frame_all_call | apply frame_brpoplpush | apply frame_exec
          | apply frame_close
          | apply keeps_write; intros; by eauto
          | idtac ].
  intros e HI. unfold addCommand. destruct (transactionMode e); eauto.
Qed.

Lemma frame_onInterval id now : keeps I (onInterval id now).
Proof.
  intros e HI. unfold onInterval. case_decide; [|done].
  destruct (db e) eqn:Hdb; [|done].
  assert (keeps I (for_of table_names () (λ _ tb, run (reap tb now)))) as Hloop.
  { apply keeps_for_of. intros ? ?. apply frame_all_on_db. }
  by apply Hloop.
Qed.

End FrameAll.

Section WaiterFacts.
Import Sql Engine Spec.

Lemma register_settled s key r : keeps (λ e, settled e = s) (addBlockingOperation key r).
Proof. by intros e He. Qed.

Lemma serve_settled rq now e : settled (serve rq now e).2 = settled e.
Proof.
  apply (keeps_elim (λ e', settled e' = settled e)); [|done].
  apply frame_serve; try done. apply register_settled.
Qed.

Lemma onInterval_settled id now e : settled (onInterval id now e).2 = settled e.
Proof.
  apply (keeps_elim (λ e', settled e' = settled e)); [|done].
  by apply frame_onInterval.
Qed.

(** A registered waiter stays registered: calls only append to the arrays of
    [blockingOperations]. *)
Lemma register_extends key rs key' r :
  keeps (λ e, ∃ rs', blockingOperations e !! key = Some (rs ++ rs'))
        (addBlockingOperation key' r).
Proof.
  intros e [rs' Hrs]. cbn.
  destruct (decide (key' = key)) as [->|Hne].
  - rewrite decide_True by (by rewrite Hrs).
    exists (rs' ++ [r]). by rewrite lookup_alter_eq, Hrs, (assoc_L (++)).
  - exists rs'. rewrite lookup_alter_ne by done.
    case_decide; [done|]. by rewrite lookup_insert_ne.
Qed.

Lemma serve_waiters rq now e key rs :
  blockingOperations e !! key = Some rs →
  ∃ rs', blockingOperations (serve rq now e).2 !! key = Some (rs ++ rs').
Proof.
  intros Hrs.
  apply (keeps_elim (λ e', ∃ rs', blockingOperations e' !! key = Some (rs ++ rs'))).
  - apply frame_serve; try done. apply register_extends.
  - exists []. by rewrite app_nil_r.
Qed.

(** What the timer callback does to the promises. *)
Lemma onTimeout_settled id e :
  settled (onTimeout id e).2 = settled e
  ∨ ∃ tm, timeouts e !! id = Some tm
          ∧ settled e !! tm_promise tm = None
          ∧ settled (onTimeout id e).2 = <[tm_promise tm := None]> (settled e).
Proof.
  unfold onTimeout. destruct (timeouts e !! id) as [tm|] eqn:Htm; [|by left].
  cbn. destruct (settled e !! tm_promise tm) eqn:Hp; cbn; [by left|].
  right. by exists tm.
Qed.

Lemma step_settled_mono ev e p v :
  settled e !! p = Some v → settled (step ev e) !! p = Some v.
Proof.
  intros Hp. destruct ev as [rq now|id|id now]; cbn.
  - by rewrite serve_settled.
  - destruct (onTimeout_settled id e) as [->|(tm & _ & Hnone & ->)]; [done|].
    rewrite lookup_insert_ne; [done|]. intros <-. congruence.
  - by rewrite onInterval_settled.
Qed.

Lemma run_events_settled_mono evs e p v :
  settled e !! p = Some v → settled (run_events evs e) !! p = Some v.
Proof.
  revert e. induction evs as [|ev evs IH]; intros e Hp; [done|].
  cbn. by apply IH, step_settled_mono.
Qed.

Lemma settled_by_timeout evs e p v :
  settled e !! p = None →
  settled (run_events evs e) !! p = Some v →
  v = None
  ∧ ∃ evs1 timeoutId evs2 tm,
      evs = evs1 ++ TimeoutFires timeoutId :: evs2
      ∧ timeouts (run_events evs1 e) !! timeoutId = Some tm
      ∧ tm_promise tm = p.
Proof.
  revert e. induction evs as [|ev evs IH]; intros e Hnone Hsome.
  { cbn in Hsome. congruence. }
  cbn in Hsome.
  destruct (settled (step ev e) !! p) as [v1|] eqn:Hstep.
  - assert (∃ id tm, ev = TimeoutFires id ∧ timeouts e !! id = Some tm
                     ∧ tm_promise tm = p ∧ v1 = None) as (id & tm & -> & Htm & Hp & ->).
    { destruct ev as [rq now|id|id now]; cbn in Hstep.
      - rewrite serve_settled in Hstep. congruence.
      - destruct (onTimeout_settled id e) as [Heq|(tm & Htm & _ & Heq)];
          rewrite Heq in Hstep; [congruence|].
        destruct (decide (tm_promise tm = p)) as [Hp|Hp].
        + subst p. rewrite lookup_insert_eq in Hstep. injection Hstep as <-.
          by exists id, tm.
        + rewrite lookup_insert_ne in Hstep by done. congruence.
      - rewrite onInterval_settled in Hstep. congruence. }
    apply (run_events_settled_mono evs) in Hstep.
    split; [congruence|]. by exists [], id, evs, tm.
  - destruct (IH _ Hstep Hsome) as (-> & evs1 & id & evs2 & tm & -> & Htm & Hp).
    split; [done|]. by exists (ev :: evs1), id, evs2, tm.
Qed.

Lemma brpoplpush_pending source destination timeout_sec now e p e' :
  brpoplpush source destination timeout_sec now e = (Ok (Pending p), e') →
  ∃ timeoutId rs,
    timeouts e' !! timeoutId = Some (Timeout source p (timeout_sec * 1000))
    ∧ blockingOperations e' !! source = Some (rs ++ [WakeUp p destination timeoutId])
    ∧ settled e' = settled e.
Proof.
  intros Hrun.
  assert (settled e' = settled e) as Hsettled.
  { pose proof (serve_settled (Brpoplpush source destination timeout_sec) now e) as Hs.
    unfold serve, bind in Hs. by rewrite Hrun in Hs. }
  revert Hrun. unfold brpoplpush, bind at 1.
  destruct (rpoplpush source destination now e) as [[[v|]|msg] e1]; [done| |done].
  cbn. intros [= <- <-].
  exists (S (next_handle e1)). cbn.
  case_decide as Hsome.
  - destruct Hsome as [rs Hrs]. exists rs.
    by rewrite lookup_insert_eq, lookup_alter_eq, Hrs.
  - exists []. by rewrite lookup_insert_eq, lookup_alter_eq, lookup_insert_eq.
Qed.

Lemma onTimeout_delivers_nil timeoutId tm e :
  timeouts e !! timeoutId = Some tm →
  settled e !! tm_promise tm = None →
  settled (onTimeout timeoutId e).2 !! tm_promise tm = Some None.
Proof.
  intros Htm Hp. unfold onTimeout. rewrite Htm. cbn. rewrite Hp. cbn.
  by rewrite lookup_insert_eq.
Qed.

(** C9.  No call on the engine resolves the promise of a brpoplpush waiter or
    takes a waiter out of [blockingOperations]: every request leaves [settled]
    as it is and only appends to the arrays of waiters.  A brpoplpush that
    stays pending has registered its waiter and a timer.  In every run of
    calls and runtime callbacks, a promise that becomes settled is settled
    with null, by the firing of a timer that carries this promise; and the
    firing timer of an unsettled promise does settle it with null. *)
Theorem waiters_only_time_out :
  (∀ rq now e, settled (serve rq now e).2 = settled e)
  ∧ (∀ rq now e key rs,
       blockingOperations e !! key = Some rs →
       ∃ rs', blockingOperations (serve rq now e).2 !! key = Some (rs ++ rs'))
  ∧ (∀ source destination timeout_sec now e p e',
       brpoplpush source destination timeout_sec now e = (Ok (Pending p), e') →
       ∃ timeoutId rs,
         timeouts e' !! timeoutId = Some (Timeout source p (timeout_sec * 1000))
         ∧ blockingOperations e' !! source
           = Some (rs ++ [WakeUp p destination timeoutId])
         ∧ settled e' = settled e)
  ∧ (∀ evs e p v,
       settled e !! p = None →
       settled (run_events evs e) !! p = Some v →
       v = None
       ∧ ∃ evs1 timeoutId evs2 tm,
           evs = evs1 ++ TimeoutFires timeoutId :: evs2
           ∧ timeouts (run_events evs1 e) !! timeoutId = Some tm
           ∧ tm_promise tm = p)
  ∧ (∀ timeoutId tm e,
       timeouts e !! timeoutId = Some tm →
       settled e !! tm_promise tm = None →
       settled (onTimeout timeoutId e).2 !! tm_promise tm = Some None).
Proof.
  split; [exact serve_settled|].
  split; [exact serve_waiters|].
  split; [exact brpoplpush_pending|].
  split; [exact settled_by_timeout|exact onTimeout_delivers_nil].
Qed.

Lemma waiters_only_time_out_witness :
  let e0 := (brpoplpush "s" "d" 1 0 connected).2 in
  let evs := [Calls (Command (LPUSH "s" ["a"])) 0;
              Calls (Command (RPUSH "s" ["b"])) 0;
              TimeoutFires 2] in
  (None : option string) = None
  ∧ ∃ evs1 timeoutId evs2 tm,
      evs = evs1 ++ TimeoutFires timeoutId :: evs2
      ∧ timeouts (run_events evs1 e0) !! timeoutId = Some tm
      ∧ tm_promise tm = 1%nat.
Proof.
  intros e0 evs.
  exact (proj1 (proj2 (proj2 (proj2 waiters_only_time_out))) evs e0 1%nat None
           ltac:(vm_compute; reflexivity) ltac:(vm_compute; reflexivity)).
Defined.

End WaiterFacts.

Section Contig.
Import Sql Engine Spec.

Lemma contig_nil : contig [].
Proof. unfold contig. reflexivity. Qed.

Lemma contig_intro (k : nat) l : l ≡ₚ seqZ 0 (Z.of_nat k) → contig l.
Proof.
  intros Hl. unfold contig.
  assert (length l = k) as ->; [|done].
  rewrite Hl, length_seqZ. lia.
Qed.

Lemma fmap_shift_seqZ n m k : (λ i, i + n) <$> seqZ m k = seqZ (n + m) k.
Proof.
  rewrite <- fmap_add_seqZ. apply list_fmap_ext. intros _ i _. lia.
Qed.

Lemma seqZ_of_seq (n : nat) : Z.of_nat <$> seq 0 n = seqZ 0 (Z.of_nat n).
Proof.
  unfold seqZ. rewrite Nat2Z.id.
  apply list_fmap_ext. intros _ i _. lia.
Qed.

Lemma contig_push l (n : nat) :
  contig l → contig (((λ i, i + Z.of_nat n) <$> l) ++ (Z.of_nat <$> seq 0 n)).
Proof.
  unfold contig at 1. intros Hl.
  apply (contig_intro (n + length l)).
  rewrite Hl at 1. rewrite fmap_shift_seqZ, seqZ_of_seq, Z.add_0_r.
  rewrite Permutation_app_comm, Nat2Z.inj_add.
  rewrite seqZ_app by lia. done.
Qed.

Lemma contig_append l : contig l → contig (l ++ [Z.of_nat (length l)]).
Proof.
  unfold contig at 1. intros Hl.
  apply (contig_intro (S (length l))).
  rewrite seqZ_S, Z.add_0_l. by rewrite <- Hl.
Qed.

Lemma contig_elem l i : contig l → i ∈ l ↔ 0 ≤ i < Z.of_nat (length l).
Proof. unfold contig. intros Hl. rewrite Hl at 1. rewrite elem_of_seqZ. lia. Qed.

Lemma contig_pop_head l :
  contig l → contig ((λ i, i + -1) <$> filter (λ i, i ≠ 0) l).
Proof.
  unfold contig at 1. intros Hl.
  destruct (length l) as [|k] eqn:Hlen.
  { apply length_zero_iff_nil in Hlen. by subst l. }
  apply (contig_intro k).
  rewrite Hl. rewrite seqZ_cons by lia.
  rewrite filter_cons, decide_False by (intros ?; done).
  rewrite filter_all.
  - rewrite fmap_shift_seqZ. f_equiv; lia.
  - intros i Hi. apply elem_of_seqZ in Hi. lia.
Qed.

Lemma contig_pop_tail l m :
  contig l → m ∈ l → (∀ i, i ∈ l → i ≤ m) →
  contig (filter (λ i, i ≠ m) l).
Proof.
  intros Hl Hm Hmax.
  assert (m = Z.of_nat (length l) - 1) as Hm'.
  { pose proof (proj1 (contig_elem l m Hl) Hm).
    assert (Z.of_nat (length l) - 1 ∈ l) as Hlast
      by (apply (contig_elem l _ Hl); lia).
    apply Hmax in Hlast. lia. }
  destruct (length l) as [|k] eqn:Hlen.
  { apply length_zero_iff_nil in Hlen. by subst l. }
  apply (contig_intro k).
  unfold contig in Hl. rewrite Hl, Hlen, seqZ_S, filter_app.
  rewrite filter_all.
  - rewrite filter_cons, decide_False by (intros Hne; apply Hne; lia).
    by rewrite app_nil_r.
  - intros i Hi. apply elem_of_seqZ in Hi. lia.
Qed.

End Contig.

Section ListRows.
Import Sql Engine Spec.
Implicit Types (rows : list list_row) (key : string).

Lemma indices_app key rows rows' :
  indices key (rows ++ rows') = indices key rows ++ indices key rows'.
Proof. unfold indices, of_key. by rewrite filter_app, fmap_app. Qed.

Lemma of_key_shift key n rows :
  of_key key (shifted n key rows) = moved n <$> of_key key rows.
Proof.
  unfold of_key, shifted. induction rows as [|r rows IH]; [done|].
  rewrite fmap_cons, !filter_cons.
  destruct (decide (lr_key r = key)) as [Hk|Hk].
  - rewrite !decide_True by exact Hk. by rewrite fmap_cons, IH.
  - by rewrite !decide_False by exact Hk.
Qed.

Lemma indices_shift key n rows :
  indices key (shifted n key rows) = (λ i, i + n) <$> indices key rows.
Proof.
  unfold indices. rewrite of_key_shift, <- !list_fmap_compose.
  by apply list_fmap_ext.
Qed.

Lemma of_key_shift_ne key key' n rows :
  key' ≠ key → of_key key' (shifted n key rows) = of_key key' rows.
Proof.
  intros Hne. unfold of_key, shifted. induction rows as [|r rows IH]; [done|].
  rewrite fmap_cons, !filter_cons.
  destruct (decide (lr_key r = key)) as [Hk|Hk].
  - rewrite !decide_False by (cbn; congruence). done.
  - by rewrite IH.
Qed.

Lemma indices_shift_ne key key' n rows :
  key' ≠ key → indices key' (shifted n key rows) = indices key' rows.
Proof. intros. unfold indices. by rewrite of_key_shift_ne. Qed.

(** The UPDATE row by row: it fails exactly when a row of the key would take
    the index of a row that comes after it. *)
Lemma shift_rows_spec n key updated rest :
  NoDup (indices key rest) →
  (∀ i j, i ∈ indices key updated → j ∈ indices key rest → i ≠ j + n) →
  shift_rows n key updated rest
  = if decide (shift_free n key rest)
    then Some (updated ++ shifted n key rest) else None.
Proof.
  revert updated. induction rest as [|r rest IH]; intros updated Hnodup Hupdated.
  { cbn. by rewrite app_nil_r. }
  cbn [shift_rows shift_free].
  assert (∀ i, Exists (list_pk key i) (updated ++ rest)
               ↔ i ∈ indices key updated ∨ i ∈ indices key rest) as Hexists.
  { intros i. rewrite Exists_exists, <- elem_of_app, <- indices_app.
    unfold indices, of_key. rewrite list_elem_of_fmap.
    setoid_rewrite list_elem_of_filter. unfold list_pk.
    split; intros (x & ? & ? & ?); exists x; by repeat split. }
  destruct (decide (lr_key r = key)) as [Hk|Hk].
  - assert (indices key (r :: rest) = lr_index r :: indices key rest) as Hr.
    { unfold indices, of_key. by rewrite filter_cons, decide_True by exact Hk. }
    rewrite Hr in Hnodup, Hupdated. apply NoDup_cons in Hnodup as [Hfresh Hnodup].
    destruct (decide (Exists _ _)) as [Hex|Hex].
    + apply Hexists in Hex as [Hex|Hex].
      * exfalso. by apply (Hupdated _ (lr_index r) Hex); [left|].
      * rewrite decide_False; [done|]. intros [Hfree _]. by apply Hfree.
    + rewrite IH; [|done|].
      * assert (lr_index r + n ∉ indices key rest) as Hfree
          by (intros Hin; apply Hex, Hexists; by right).
        destruct (decide (shift_free n key rest)) as [Hrest|Hrest].
        -- rewrite decide_True by (split; done).
           unfold shifted. rewrite fmap_cons, decide_True by exact Hk.
           by rewrite <- app_assoc.
        -- rewrite decide_False; [done|]. by intros [_ ?].
      * intros i j. rewrite indices_app, elem_of_app.
        intros [Hi|Hi] Hj.
        -- apply Hupdated; [done|by right].
        -- unfold indices, of_key, moved in Hi. cbn in Hi.
           rewrite decide_True in Hi by exact Hk. cbn in Hi.
           apply list_elem_of_singleton in Hi. subst i.
           intros Heq. apply Hfresh. by replace (lr_index r) with j by lia.
  - assert (indices key (r :: rest) = indices key rest) as Hr.
    { unfold indices, of_key. by rewrite filter_cons, decide_False by exact Hk. }
    rewrite Hr in Hnodup, Hupdated.
    rewrite IH; [|done|].
    + destruct (decide (shift_free n key rest)) as [Hrest|Hrest].
      * rewrite decide_True by (split; done).
        unfold shifted. rewrite fmap_cons, decide_False by exact Hk.
        by rewrite <- app_assoc.
      * rewrite decide_False; [done|]. by intros [_ ?].
    + intros i j. rewrite indices_app, elem_of_app.
      intros [Hi|Hi] Hj; [by apply Hupdated|].
      unfold indices, of_key in Hi. cbn in Hi.
      rewrite decide_False in Hi by exact Hk. by apply elem_of_nil in Hi.
Qed.

Lemma shift_index_spec n key rows :
  NoDup (indices key rows) →
  shift_index n key rows
  = if decide (shift_free n key rows) then Some (shifted n key rows) else None.
Proof.
  intros Hnodup. unfold shift_index. rewrite shift_rows_spec; [done..|].
  intros i j Hi. by apply elem_of_nil in Hi.
Qed.

Lemma shift_free_apart n key rows :
  (∀ i j, i ∈ indices key rows → j ∈ indices key rows → i + n ≠ j) →
  shift_free n key rows.
Proof.
  induction rows as [|r rows IH]; [done|]. intros Hapart. split.
  - intros Hk Hin. apply (Hapart (lr_index r) (lr_index r + n)); [| |done].
    + unfold indices, of_key. rewrite filter_cons, decide_True by exact Hk. by left.
    + unfold indices, of_key in *. rewrite filter_cons.
      case_decide; [by right|done].
  - apply IH. intros i j Hi Hj. apply Hapart.
    + unfold indices, of_key in *. rewrite filter_cons.
      case_decide; [by right|done].
    + unfold indices, of_key in *. rewrite filter_cons.
      case_decide; [by right|done].
Qed.

Lemma indices_delete_index key i rows :
  indices key (delete_index key i rows) = filter (λ j, j ≠ i) (indices key rows).
Proof.
  unfold indices, of_key, delete_index, list_pk.
  induction rows as [|r rows IH]; [done|].
  rewrite (filter_cons (λ r, ¬ _)).
  destruct (decide (¬ (lr_key r = key ∧ lr_index r = i))) as [Hpk|Hpk].
  - rewrite !filter_cons.
    destruct (decide (row_key r = key)) as [Hk|Hk]; [|done].
    rewrite !fmap_cons, filter_cons, decide_True by (cbn in *; tauto).
    by rewrite IH.
  - apply dec_stable in Hpk as [Hk Hi].
    rewrite filter_cons, decide_True by exact Hk.
    rewrite fmap_cons, filter_cons, decide_False by tauto. done.
Qed.

Lemma indices_delete_index_ne key key' i rows :
  key' ≠ key → indices key' (delete_index key i rows) = indices key' rows.
Proof.
  intros Hne. unfold indices, of_key, delete_index, list_pk. f_equal.
  induction rows as [|r rows IH]; [done|].
  rewrite (filter_cons (λ r, ¬ _)).
  destruct (decide (¬ (lr_key r = key ∧ lr_index r = i))) as [Hpk|Hpk].
  - rewrite !filter_cons. by rewrite IH.
  - apply dec_stable in Hpk as [Hk Hi].
    rewrite filter_cons, decide_False by (cbn; congruence). done.
Qed.

Lemma insert_list_fresh key i v rows :
  i ∉ indices key rows →
  insert_list key i v rows = Some (rows ++ [ListRow key i v None]).
Proof.
  intros Hfresh. unfold insert_list. rewrite decide_False; [done|].
  rewrite Exists_exists. intros (r & Hr & Hk & Hi). apply Hfresh.
  unfold indices. apply list_elem_of_fmap. exists r. split; [done|].
  apply list_elem_of_filter. done.
Qed.

Lemma count_list_indices key rows :
  count_list key rows = Z.of_nat (length (indices key rows)).
Proof. unfold count_list, indices. by rewrite length_fmap. Qed.

End ListRows.

Section LpushRun.
Import Sql Engine Spec.

Lemma pushed_rows_seq key values :
  pushed_rows key values
  = (λ i, ListRow key (Z.of_nat i) (nth (length values - 1 - i) values EmptyString) None)
      <$> seq 0 (length values).
Proof.
  unfold pushed_rows. apply list_eq. intros i.
  rewrite list_lookup_imap, list_lookup_fmap.
  destruct (decide (i < length values)%nat) as [Hi|Hi].
  - rewrite reverse_lookup by done. rewrite lookup_seq_lt by done. cbn.
    rewrite nth_lookup.
    replace (length values - 1 - i)%nat with (length values - S i)%nat by lia.
    destruct (values !! (length values - S i)%nat) eqn:Hv; [done|].
    apply lookup_ge_None in Hv. lia.
  - rewrite lookup_seq_ge by lia.
    rewrite (proj2 (lookup_ge_None _ _)); [done|]. rewrite length_reverse. lia.
Qed.

Lemma indices_pushed_rows key values :
  indices key (pushed_rows key values) = Z.of_nat <$> seq 0 (length values).
Proof.
  rewrite pushed_rows_seq. unfold indices, of_key.
  rewrite filter_all.
  - rewrite <- list_fmap_compose. by apply list_fmap_ext.
  - intros r (i & -> & _)%list_elem_of_fmap. done.
Qed.

Lemma indices_pushed_rows_ne key key' values :
  key' ≠ key → indices key' (pushed_rows key values) = [].
Proof.
  intros Hne. rewrite pushed_rows_seq. unfold indices, of_key.
  rewrite filter_none; [done|].
  intros r (i & -> & _)%list_elem_of_fmap. cbn. congruence.
Qed.

(** Calls on a connected engine, with the engine kept in the form
    [with_db (Some c) e]. *)
Lemma requireDb_connected c e :
  requireDb (with_db (Some c) e) = (Ok (), with_db (Some c) e).
Proof. reflexivity. Qed.

Lemma query_connected {A} (q : tables → A) c e :
  query q (with_db (Some c) e) = (Ok (q (data c)), with_db (Some c) e).
Proof. reflexivity. Qed.

Lemma run_connected {A} (stmt : tables → A * tables) c e :
  run stmt (with_db (Some c) e)
  = (Ok (stmt (data c)).1,
     with_db (Some (Connection (stmt (data c)).2 (snapshot c))) e).
Proof. unfold run, on_db. cbn. by destruct (stmt (data c)). Qed.

Lemma run_checked_connected stmt c e :
  run_checked stmt (with_db (Some c) e)
  = match stmt (data c) with
    | Some t => (Ok (), with_db (Some (Connection t (snapshot c))) e)
    | None => (Throw CONSTRAINT, with_db (Some c) e)
    end.
Proof. unfold run_checked, on_db. cbn. by destruct (stmt (data c)). Qed.

Lemma begin_connected c e :
  BEGIN_TRANSACTION (with_db (Some c) e)
  = match snapshot c with
    | Some _ => (Throw NESTED_BEGIN, with_db (Some c) e)
    | None => (Ok (), with_db (Some (Connection (data c) (Some (data c)))) e)
    end.
Proof.
  unfold BEGIN_TRANSACTION, on_db, sql_begin. cbn. by destruct (snapshot c).
Qed.

Lemma commit_connected c e :
  COMMIT (with_db (Some c) e)
  = match snapshot c with
    | Some _ => (Ok (), with_db (Some (Connection (data c) None)) e)
    | None => (Throw NO_ACTIVE_COMMIT, with_db (Some c) e)
    end.
Proof. unfold COMMIT, on_db, sql_commit. cbn. by destruct (snapshot c). Qed.

Lemma rollback_connected c e :
  ROLLBACK (with_db (Some c) e)
  = match snapshot c with
    | Some t => (Ok (), with_db (Some (Connection t None)) e)
    | None => (Throw NO_ACTIVE_ROLLBACK, with_db (Some c) e)
    end.
Proof. unfold ROLLBACK, on_db, sql_rollback. cbn. by destruct (snapshot c). Qed.

Lemma standalone_connected d e :
  standalone (with_db d e)
  = (Ok (negb (inTransaction e) && negb (transactionMode e)), with_db d e).
Proof. reflexivity. Qed.

Lemma write_inTransaction_connected b d e :
  write (with_inTransaction b) (with_db d e)
  = (Ok (), with_db d (with_inTransaction b e)).
Proof. reflexivity. Qed.

(** The loop of INSERTs of lpush, when no row holds one of its indices. *)
Lemma lpush_loop key (f : nat → string) (k a : nat) e t s :
  (∀ i, (a ≤ i < a + k)%nat → Z.of_nat i ∉ indices key (list_store t)) →
  for_of (seq a k) () (λ _ i,
    run_checked (λ t,
      rows ← insert_list key (Z.of_nat i) (f i) (list_store t);
      Some (on_lists (λ _, rows) t)))
    (with_db (Some (Connection t s)) e)
  = (Ok (),
     with_db (Some (Connection
       (on_lists (λ rows, rows ++ ((λ i, ListRow key (Z.of_nat i) (f i) None) <$> seq a k)) t)
       s)) e).
Proof.
  revert a t. induction k as [|k IH]; intros a t Hfresh.
  - cbn. destruct t. unfold on_lists. cbn. by rewrite app_nil_r.
  - cbn [seq for_of]. unfold bind at 1.
    rewrite run_checked_connected. cbn [data snapshot].
    rewrite insert_list_fresh by (apply Hfresh; lia). cbn [mbind option_bind].
    rewrite IH.
    + f_equal. f_equal. f_equal. f_equal. destruct t. unfold on_lists. cbn.
      by rewrite <- (assoc_L (++)).
    + intros i Hi. cbn [on_lists list_store]. rewrite indices_app.
      rewrite elem_of_app. intros [Hin|Hin].
      * by apply (Hfresh i ltac:(lia)).
      * unfold indices, of_key in Hin. cbn in Hin.
        rewrite decide_True in Hin by done. cbn in Hin.
        apply list_elem_of_singleton in Hin. lia.
Qed.

End LpushRun.

Section LpushRun2.
Import Sql Engine Spec.

Lemma rejectString_connected key now c e :
  rejectString key now (with_db (Some c) e)
  = match select_string key now (string_store (data c)) with
    | Some _ => (Throw WRONGTYPE, with_db (Some c) e)
    | None => (Ok (), with_db (Some c) e)
    end.
Proof.
  unfold rejectString, bind. rewrite query_connected.
  by destruct (select_string _ _ _).
Qed.

Lemma count_after_lpush key values rows :
  count_list key (after_lpush key values rows)
  = count_list key rows + Z.of_nat (length values).
Proof.
  rewrite !count_list_indices. unfold after_lpush.
  rewrite indices_app, indices_shift, indices_pushed_rows.
  rewrite length_app, !length_fmap, length_seq. lia.
Qed.

Lemma shift_rows_some n key updated rest l :
  shift_rows n key updated rest = Some l → l = updated ++ shifted n key rest.
Proof.
  revert updated. induction rest as [|r rest IH]; intros updated;
    cbn [shift_rows].
  - intros [= <-]. cbn. by rewrite app_nil_r.
  - unfold shifted. rewrite fmap_cons. fold (shifted n key rest).
    destruct (decide (lr_key r = key)).
    + destruct (decide (Exists _ _)); [done|].
      intros ->%IH. by rewrite <- app_assoc.
    + intros ->%IH. by rewrite <- app_assoc.
Qed.

Lemma shift_index_some n key rows l :
  shift_index n key rows = Some l → l = shifted n key rows.
Proof. unfold shift_index. by intros ->%shift_rows_some. Qed.

(** The writes of lpush: the UPDATE and, when it went through, the loop of
    INSERTs. *)
Lemma lpush_writes key values t s e :
  (∀ i, i ∈ indices key (list_store t) → 0 ≤ i) →
  (let* _ := run_checked (λ t,
     rows ← shift_index (Z.of_nat (length values)) key (list_store t);
     Some (on_lists (λ _, rows) t)) in
   for_of (seq 0 (length values)) () (λ _ i,
     run_checked (λ t,
       rows ← insert_list key (Z.of_nat i)
                (nth (length values - 1 - i)%nat values EmptyString) (list_store t);
       Some (on_lists (λ _, rows) t))))
    (with_db (Some (Connection t s)) e)
  = match shift_index (Z.of_nat (length values)) key (list_store t) with
    | Some _ =>
        (Ok (), with_db (Some (Connection (on_lists (after_lpush key values) t) s)) e)
    | None => (Throw CONSTRAINT, with_db (Some (Connection t s)) e)
    end.
Proof.
  intros Hpos. unfold bind. rewrite run_checked_connected. cbn [data snapshot].
  destruct (shift_index _ key (list_store t)) as [rows|] eqn:Hshift;
    cbn [mbind option_bind]; [|done].
  apply shift_index_some in Hshift as ->.
  rewrite (lpush_loop key (λ i, nth (length values - 1 - i)%nat values EmptyString)).
  - f_equal. f_equal. f_equal. f_equal. destruct t. unfold on_lists, after_lpush.
    cbn. by rewrite pushed_rows_seq.
  - intros i Hi. cbn [on_lists list_store]. rewrite indices_shift.
    intros (j & Hj & Hin)%list_elem_of_fmap. apply Hpos in Hin. lia.
Qed.

(** LPUSH on a key that holds no live string: what it answers and leaves,
    by whether its UPDATE goes through.  When it does not, the catch block
    finds the flag set, or MULTI on, and runs no ROLLBACK. *)
Lemma lpush_run key values now t s e :
  select_string key now (string_store t) = None →
  (inTransaction e = false → transactionMode e = false → s = None) →
  (∀ i, i ∈ indices key (list_store t) → 0 ≤ i) →
  lpush key values now (with_db (Some (Connection t s)) e)
  = match shift_index (Z.of_nat (length values)) key (list_store t) with
    | Some _ =>
        (Ok (count_list key (list_store t) + Z.of_nat (length values)),
         if negb (inTransaction e) && negb (transactionMode e)
         then with_db (Some (Connection (on_lists (after_lpush key values) t) (Some t)))
                (with_inTransaction true e)
         else with_db (Some (Connection (on_lists (after_lpush key values) t) s)) e)
    | None =>
        (Throw CONSTRAINT,
         if negb (inTransaction e) && negb (transactionMode e)
         then with_db (Some (Connection t (Some t))) (with_inTransaction true e)
         else with_db (Some (Connection t s)) e)
    end.
Proof.
  intros Hstring Htx Hpos. unfold lpush.
  unfold bind at 1. rewrite requireDb_connected.
  unfold bind at 1. rewrite rejectString_connected. cbn [data]. rewrite Hstring.
  unfold bind at 1. rewrite standalone_connected.
  destruct (negb (inTransaction e) && negb (transactionMode e)) eqn:Hown.
  - apply andb_prop in Hown as [Hin Hmode].
    apply negb_true_iff in Hin, Hmode. rewrite (Htx Hin Hmode).
    unfold bind at 1. unfold when. unfold bind at 1.
    rewrite begin_connected. cbn [snapshot data].
    rewrite write_inTransaction_connected.
    unfold try_catch. unfold bind at 1.
    pose proof (lpush_writes key values t (Some t) (with_inTransaction true e) Hpos)
      as Hwrites.
    unfold bind at 1 in Hwrites. unfold bind at 1.
    rewrite run_checked_connected in Hwrites |- *.
    cbn [data snapshot] in Hwrites |- *.
    destruct (shift_index _ key (list_store t)) eqn:Hshift;
      cbn [mbind option_bind] in Hwrites |- *.
    + rewrite Hwrites.
      unfold bind at 1. rewrite standalone_connected.
      cbn [inTransaction with_inTransaction negb andb when].
      unfold bind at 1. unfold ret at 1.
      unfold bind at 1. rewrite query_connected. cbn [data on_lists list_store].
      unfold ret. by rewrite count_after_lpush.
    + unfold bind at 1. rewrite standalone_connected.
      cbn [inTransaction with_inTransaction negb andb when].
      unfold bind at 1. unfold ret at 1. reflexivity.
  - unfold bind at 1. unfold when, ret at 1.
    unfold try_catch. unfold bind at 1.
    pose proof (lpush_writes key values t s e Hpos) as Hwrites.
    unfold bind at 1 in Hwrites. unfold bind at 1.
    rewrite run_checked_connected in Hwrites |- *.
    cbn [data snapshot] in Hwrites |- *.
    destruct (shift_index _ key (list_store t)) eqn:Hshift;
      cbn [mbind option_bind] in Hwrites |- *.
    + rewrite Hwrites.
      unfold bind at 1. rewrite standalone_connected. rewrite Hown.
      unfold bind at 1. unfold when, ret at 1.
      unfold bind at 1. rewrite query_connected. cbn [data on_lists list_store].
      unfold ret. by rewrite count_after_lpush.
    + unfold bind at 1. rewrite standalone_connected. rewrite Hown.
      unfold bind at 1. unfold when, ret at 1. reflexivity.
Qed.

(** The same with the two cases named by [shift_free], on rows that respect
    the primary key. *)
Lemma lpush_run_free key values now t s e :
  select_string key now (string_store t) = None →
  (inTransaction e = false → transactionMode e = false → s = None) →
  (∀ i, i ∈ indices key (list_store t) → 0 ≤ i) →
  NoDup (indices key (list_store t)) →
  lpush key values now (with_db (Some (Connection t s)) e)
  = if decide (shift_free (Z.of_nat (length values)) key (list_store t))
    then
      (Ok (count_list key (list_store t) + Z.of_nat (length values)),
       if negb (inTransaction e) && negb (transactionMode e)
       then with_db (Some (Connection (on_lists (after_lpush key values) t) (Some t)))
              (with_inTransaction true e)
       else with_db (Some (Connection (on_lists (after_lpush key values) t) s)) e)
    else
      (Throw CONSTRAINT,
       if negb (inTransaction e) && negb (transactionMode e)
       then with_db (Some (Connection t (Some t))) (with_inTransaction true e)
       else with_db (Some (Connection t s)) e).
Proof.
  intros Hstring Htx Hpos Hnodup. rewrite lpush_run by done.
  rewrite shift_index_spec by done. by case_decide.
Qed.

End LpushRun2.

Section LpushClaim.
Import Sql Engine Spec.

Lemma typepersist_insert_fresh k i v d :
  (∀ r, r ∈ TypePersist.list_rows d → TypePersist.index r ≠ Some i) →
  TypePersist.insert_element k i v d
  = Some (TypePersist.Database (TypePersist.string_rows d) (TypePersist.hash_rows d)
            (TypePersist.list_rows d
               ++ [TypePersist.Rec (TypePersist.next_id d) k (Some v) None None
                     (Some i) None])
            (TypePersist.set_rows d) (S (TypePersist.next_id d))).
Proof.
  intros Hfresh. unfold TypePersist.insert_element.
  rewrite decide_False; [done|]. unfold TypePersist.taken.
  rewrite Exists_exists. intros (r & Hr & _ & _ & Hi). by apply (Hfresh r).
Qed.

Lemma typepersist_lpush_example k v1 v2 v3 now :
  ∃ d, TypePersist.lpush k [v1; v2; v3] now TypePersist.empty = Some (Ok 3, d)
       ∧ TypePersist.lrange k 0 (-1) d = [v3; v2; v1].
Proof.
  eexists. split.
  - unfold TypePersist.lpush. cbn.
    rewrite typepersist_insert_fresh by (intros r Hr; by apply elem_of_nil in Hr).
    cbn.
    rewrite typepersist_insert_fresh
      by (intros r Hr; revert r Hr; apply Forall_forall; by repeat constructor).
    cbn.
    rewrite typepersist_insert_fresh
      by (intros r Hr; revert r Hr; apply Forall_forall; by repeat constructor).
    cbn. destruct (decide (k = k)); [|done]. reflexivity.
  - unfold TypePersist.lrange. cbn.
    destruct (decide (k = k)); [|done]. cbn [length].
    rewrite !decide_True by (split; [done|split; by vm_compute]).
    reflexivity.
Qed.

(** C3.  LPUSH does what the claim says only when its UPDATE goes through.
    SQLite checks PRIMARY KEY (key, "index") at every row the UPDATE moves, in
    the order of the rowids, so the UPDATE fails as soon as a row of the key
    is moved onto the index that a later row still holds.

    On a connected engine where the key holds no live string, BEGIN is legal
    when lpush wants its own transaction, and the stored indices of the key
    are distinct and not negative:
    - when the UPDATE meets no such row ([shift_free]), LPUSH answers the old
      length plus the number of arguments and leaves every old row, those of
      the key with their index raised by the number of arguments, followed by
      the new rows, where index i holds the argument number n-1-i; the other
      tables are untouched;
    - otherwise LPUSH rejects with the error of SQLite and leaves every row as
      it was.
    The second case is that of RPUSH l a b followed by LPUSH l z, on the empty
    database: the row of a would take index 1, which the row of b holds.
    The example of the spec, LPUSH list v1 v2 v3 on an empty key, answers 3
    and LRANGE list 0 -1 then answers [v3; v2; v1], in both engines. *)
Theorem lpush_shift_can_hit_the_primary_key :
  (∀ key values now t s e,
     select_string key now (string_store t) = None →
     (inTransaction e = false → transactionMode e = false → s = None) →
     (∀ i, i ∈ indices key (list_store t) → 0 ≤ i) →
     NoDup (indices key (list_store t)) →
     let n := Z.of_nat (length values) in
     let r := lpush key values now (with_db (Some (Connection t s)) e) in
     if decide (shift_free n key (list_store t)) then
       r.1 = Ok (Z.of_nat (length (filter (λ row, lr_key row = key) (list_store t))) + n)
       ∧ list_store (rows r.2)
         = ((λ row, if decide (lr_key row = key)
                    then ListRow (lr_key row) (lr_index row + n) (lr_value row)
                           (lr_expiry row)
                    else row) <$> list_store t)
           ++ imap (λ i v, ListRow key (Z.of_nat i) v None) (reverse values)
       ∧ string_store (rows r.2) = string_store t
       ∧ hash_store (rows r.2) = hash_store t
       ∧ set_store (rows r.2) = set_store t
     else
       r.1 = Throw CONSTRAINT ∧ rows r.2 = t)
  ∧ (∀ now,
       let e1 := (rpush "l" ["a"; "b"] now connected).2 in
       (lrange "l" 0 (-1) e1).1 = Ok ["a"; "b"]
       ∧ lpush "l" ["z"] now e1 = (Throw CONSTRAINT, e1)
       ∧ list_store (rows e1) = [ListRow "l" 0 "a" None; ListRow "l" 1 "b" None])
  ∧ (∀ now,
       (lpush "list" ["v1"; "v2"; "v3"] now connected).1 = Ok 3
       ∧ ((lpush "list" ["v1"; "v2"; "v3"] now >> lrange "list" 0 (-1)) connected).1
         = Ok ["v3"; "v2"; "v1"])
  ∧ (∀ key v1 v2 v3 now,
       ∃ d, TypePersist.lpush key [v1; v2; v3] now TypePersist.empty = Some (Ok 3, d)
            ∧ TypePersist.lrange key 0 (-1) d = [v3; v2; v1]).
Proof.
  split; [|split; [|split]].
  - intros key values now t s e Hstring Htx Hpos Hnodup n r. subst n r.
    rewrite lpush_run_free by done.
    case_decide.
    + destruct (negb (inTransaction e) && negb (transactionMode e)); cbn;
        done.
    + by destruct (negb (inTransaction e) && negb (transactionMode e)).
  - intros now. split; [|split]; reflexivity.
  - intros now. split; reflexivity.
  - apply typepersist_lpush_example.
Qed.

Lemma lpush_shift_can_hit_the_primary_key_witness :
  let t := Tables [] [] [ListRow "list" 1 "x" None; ListRow "list" 0 "y" None] [] in
  let r := lpush "list" ["v1"; "v2"] 0
             (with_db (Some (Connection t None)) (constructor None)) in
  r.1 = Ok 4
  ∧ list_store (rows r.2)
    = [ListRow "list" 3 "x" None; ListRow "list" 2 "y" None;
       ListRow "list" 0 "v2" None; ListRow "list" 1 "v1" None].
Proof.
  intros t r.
  assert (∀ i, i ∈ indices "list" (list_store t) → 0 ≤ i) as Hpos.
  { intros i Hi. vm_compute in Hi.
    apply elem_of_cons in Hi as [->|Hi]; [lia|].
    apply list_elem_of_singleton in Hi as ->. lia. }
  assert (NoDup (indices "list" (list_store t))) as Hnodup.
  { vm_compute. apply NoDup_cons. split; [|apply NoDup_singleton].
    intros Hin. apply list_elem_of_singleton in Hin. lia. }
  pose proof (proj1 lpush_shift_can_hit_the_primary_key "list" ["v1"; "v2"] 0
                t None (constructor None) eq_refl (λ _ _, eq_refl) Hpos Hnodup)
    as H.
  vm_compute in H. vm_compute. destruct H as (H1 & H2 & _). by split.
Defined.

End LpushClaim.

Section Contiguity.
Import Sql Engine Spec.

Lemma as_connected e c : db e = Some c → e = with_db (Some c) e.
Proof. destruct e. cbn. by intros ->. Qed.

Lemma contiguous_tables_ext t t' :
  list_store t' = list_store t → contiguous_tables t → contiguous_tables t'.
Proof. intros Heq Ht key. unfold contiguous. rewrite Heq. apply Ht. Qed.

Lemma lists_ok_connected c e : connection_ok c → lists_ok (with_db (Some c) e).
Proof. intros Hc. by exists c. Qed.

Lemma lists_ok_inTransaction b e : lists_ok e → lists_ok (with_inTransaction b e).
Proof. by intros (c & Hdb & Hc); exists c. Qed.
Lemma lists_ok_transactionMode b e : lists_ok e → lists_ok (with_transactionMode b e).
Proof. by intros (c & Hdb & Hc); exists c. Qed.
Lemma lists_ok_transactionCommands v e :
  lists_ok e → lists_ok (with_transactionCommands v e).
Proof. by intros (c & Hdb & Hc); exists c. Qed.
Lemma lists_ok_isAuthenticated b e : lists_ok e → lists_ok (with_isAuthenticated b e).
Proof. by intros (c & Hdb & Hc); exists c. Qed.

(** A call on the connection that keeps the connection contiguous keeps the
    engine so. *)
Lemma lists_ok_on_db {A} (call : connection → outcome A * connection) :
  (∀ c, connection_ok c → connection_ok (call c).2) →
  keeps lists_ok (on_db call).
Proof.
  intros Hcall e (c & Hdb & Hc). unfold on_db. rewrite Hdb.
  specialize (Hcall c Hc). destruct (call c) as [[a|msg] c'];
    by apply lists_ok_connected.
Qed.

Lemma lists_ok_query {A} (q : tables → A) : keeps lists_ok (query q).
Proof. apply lists_ok_on_db. intros c Hc. done. Qed.

Lemma lists_ok_run {A} (stmt : tables → A * tables) :
  (∀ t, contiguous_tables t → contiguous_tables (stmt t).2) →
  keeps lists_ok (run stmt).
Proof.
  intros Hstmt. apply lists_ok_on_db. intros c [Hdata Hsnap].
  specialize (Hstmt _ Hdata). destruct (stmt (data c)). by split.
Qed.

Lemma lists_ok_run_checked stmt :
  (∀ t t', contiguous_tables t → stmt t = Some t' → contiguous_tables t') →
  keeps lists_ok (run_checked stmt).
Proof.
  intros Hstmt. apply lists_ok_on_db. intros c [Hdata Hsnap].
  specialize (Hstmt (data c)). destruct (stmt (data c)); [|done].
  split; [by eapply Hstmt|done].
Qed.

Lemma lists_ok_begin : keeps lists_ok BEGIN_TRANSACTION.
Proof.
  apply lists_ok_on_db. intros c Hc. unfold sql_begin.
  destruct (snapshot c) eqn:Hs; [done|]. destruct Hc as [Hdata Hsnap].
  split; [done|]. by intros t [= <-].
Qed.

Lemma lists_ok_commit : keeps lists_ok COMMIT.
Proof.
  apply lists_ok_on_db. intros c Hc. unfold sql_commit.
  destruct (snapshot c) eqn:Hs; [|done]. destruct Hc as [Hdata Hsnap]. by split.
Qed.

Lemma lists_ok_rollback : keeps lists_ok ROLLBACK.
Proof.
  apply lists_ok_on_db. intros c Hc. unfold sql_rollback.
  destruct (snapshot c) as [t|] eqn:Ht; [|done]. destruct Hc as [Hdata Hsnap].
  split; [by apply Hsnap|done].
Qed.

End Contiguity.

Ltac lists_ok_leaf :=
  first [ apply lists_ok_query
        | apply lists_ok_begin
        | apply lists_ok_commit
        | apply lists_ok_rollback
        | apply keeps_write; intros;
          first [ by apply lists_ok_inTransaction
                | by apply lists_ok_transactionMode
                | by apply lists_ok_transactionCommands
                | by apply lists_ok_isAuthenticated ]
        | apply lists_ok_run; intros ? ?;
          first [ assumption
                | eapply contiguous_tables_ext; [|eassumption]; reflexivity ] ].

Ltac lists_ok_method :=
  keeps_structure; unfold Engine.rejectString; keeps_structure; try lists_ok_leaf.

Section ContiguityOfWrites.
Import Sql Engine Spec.

Lemma keeps_bind_assoc {A B C} I (m : M A) (k1 : A → M B) (k2 : B → M C) :
  keeps I (bind (bind m k1) k2) → keeps I (bind m (λ a, bind (k1 a) k2)).
Proof.
  intros Hk e HI. specialize (Hk e HI). unfold bind in *.
  by destruct (m e) as [[a|msg] e'].
Qed.

Lemma contiguous_after_lpush key values t :
  contiguous_tables t → contiguous_tables (on_lists (after_lpush key values) t).
Proof.
  intros Ht key'. unfold contiguous. cbn [on_lists list_store]. unfold after_lpush.
  rewrite indices_app. destruct (decide (key' = key)) as [->|Hne].
  - rewrite indices_shift, indices_pushed_rows. apply contig_push, Ht.
  - rewrite indices_shift_ne, indices_pushed_rows_ne by done.
    rewrite app_nil_r. apply Ht.
Qed.

Lemma contiguous_nonneg key t i :
  contiguous_tables t → i ∈ indices key (list_store t) → 0 ≤ i.
Proof. intros Ht Hi. apply (contig_elem _ _ (Ht key)) in Hi. lia. Qed.

(** The writes of LPUSH keep the lists contiguous whether the UPDATE goes
    through or not: a failed UPDATE changes no row. *)
Lemma lpush_writes_lists_ok key values :
  keeps lists_ok
    (let* _ := run_checked (λ t,
       rows ← shift_index (Z.of_nat (length values)) key (list_store t);
       Some (on_lists (λ _, rows) t)) in
     for_of (seq 0 (length values)) () (λ _ i,
       run_checked (λ t,
         rows ← insert_list key (Z.of_nat i)
                  (nth (length values - 1 - i)%nat values EmptyString) (list_store t);
         Some (on_lists (λ _, rows) t)))).
Proof.
  intros e (c & Hdb & Hdata & Hsnap).
  rewrite (as_connected e c Hdb). destruct c as [t s].
  rewrite lpush_writes by (intros i; by apply contiguous_nonneg).
  destruct (shift_index _ key (list_store t)).
  - apply lists_ok_connected. split; [|done]. by apply contiguous_after_lpush.
  - by apply lists_ok_connected.
Qed.

Lemma lpush_lists_ok key values now : keeps lists_ok (lpush key values now).
Proof.
  unfold lpush.
  apply keeps_bind; [apply keeps_requireDb|intros _].
  apply keeps_bind; [lists_ok_method|intros _].
  apply keeps_bind; [apply keeps_standalone|intros own].
  apply keeps_bind; [lists_ok_method|intros _].
  apply keeps_try_catch; [|intros msg; lists_ok_method].
  apply keeps_bind_assoc.
  apply keeps_bind; [apply lpush_writes_lists_ok|intros _].
  lists_ok_method.
Qed.


Lemma bind_ok {A B} (m : M A) (k : A → M B) e a e' :
  m e = (Ok a, e') → bind m k e = k a e'.
Proof. intros Hm. unfold bind. by rewrite Hm. Qed.

Lemma bind_throw {A B} (m : M A) (k : A → M B) e msg e' :
  m e = (Throw msg, e') → bind m k e = (Throw msg, e').
Proof. intros Hm. unfold bind. by rewrite Hm. Qed.

Lemma try_catch_bind_ok {A B} (m : M A) (k : A → M B) h e a e' :
  m e = (Ok a, e') → try_catch (bind m k) h e = try_catch (k a) h e'.
Proof. intros Hm. unfold try_catch, bind. by rewrite Hm. Qed.

Lemma keeps_intro {A} I (m : M A) : (∀ e, I e → I (m e).2) → keeps I m.
Proof.
  intros Hm e HI. specialize (Hm e HI). by destruct (m e) as [[a|msg] e'].
Qed.

(** BEGIN TRANSACTION under a guard, with the flag. *)
Lemma begin_if_connected b t s e :
  when b (BEGIN_TRANSACTION >> write (with_inTransaction true))
    (with_db (Some (Connection t s)) e)
  = match b, s with
    | true, Some _ => (Throw NESTED_BEGIN, with_db (Some (Connection t s)) e)
    | true, None =>
        (Ok (), with_db (Some (Connection t (Some t))) (with_inTransaction true e))
    | false, _ => (Ok (), with_db (Some (Connection t s)) e)
    end.
Proof.
  destruct b; [|done]. unfold when, bind. rewrite begin_connected. cbn.
  by destruct s.
Qed.

(** *** RPUSH *)

Lemma rpush_loop key values from t s e :
  (∀ i, i ∈ indices key (list_store t) → i < from) →
  for_of values from (λ currentLength value,
    run_checked (λ t,
      rows ← insert_list key currentLength value (list_store t);
      Some (on_lists (λ _, rows) t)) >>
    ret (currentLength + 1))
    (with_db (Some (Connection t s)) e)
  = (Ok (from + Z.of_nat (length values)),
     with_db (Some (Connection
       (on_lists (λ rows, rows ++ appended_rows key from values) t) s)) e).
Proof.
  revert from t. induction values as [|v values IH]; intros from t Hfree.
  - cbn. rewrite Z.add_0_r. destruct t. unfold on_lists. cbn. by rewrite app_nil_r.
  - cbn [for_of]. unfold bind at 1. unfold bind at 1.
    rewrite run_checked_connected. cbn [data snapshot].
    rewrite insert_list_fresh by (intros Hin; apply Hfree in Hin; lia).
    cbn [mbind option_bind]. unfold ret at 1.
    rewrite IH.
    + f_equal; [f_equal; cbn [length]; lia|].
      f_equal. f_equal. f_equal. destruct t. unfold on_lists. cbn.
      by rewrite <- (assoc_L (++)).
    + intros i. cbn [on_lists list_store]. rewrite indices_app, elem_of_app.
      intros [Hin|Hin]; [apply Hfree in Hin; lia|].
      unfold indices, of_key in Hin. cbn in Hin.
      rewrite decide_True in Hin by done. cbn in Hin.
      apply list_elem_of_singleton in Hin. lia.
Qed.

Lemma indices_appended_rows key from values :
  indices key (appended_rows key from values) = seqZ from (Z.of_nat (length values)).
Proof.
  revert from. induction values as [|v values IH]; intros from; [done|].
  cbn [appended_rows length]. rewrite seqZ_cons by lia.
  unfold indices, of_key. rewrite filter_cons, decide_True by done.
  rewrite fmap_cons. cbn [lr_index]. f_equal.
  fold (of_key key (appended_rows key (from + 1) values)).
  fold (indices key (appended_rows key (from + 1) values)).
  rewrite IH. f_equal; lia.
Qed.

Lemma indices_appended_rows_ne key key' from values :
  key' ≠ key → indices key' (appended_rows key from values) = [].
Proof.
  intros Hne. revert from. induction values as [|v values IH]; intros from; [done|].
  cbn [appended_rows]. unfold indices, of_key.
  rewrite filter_cons, decide_False by (cbn; congruence). apply IH.
Qed.

Lemma contig_extend l (n : nat) :
  contig l → contig (l ++ seqZ (Z.of_nat (length l)) (Z.of_nat n)).
Proof.
  unfold contig at 1. intros Hl. apply (contig_intro (length l + n)).
  rewrite Nat2Z.inj_add, seqZ_app by lia. by rewrite <- Hl.
Qed.

Lemma contiguous_after_rpush key values t :
  contiguous_tables t →
  contiguous_tables
    (on_lists (λ rows, rows ++ appended_rows key (count_list key (list_store t)) values) t).
Proof.
  intros Ht key'. unfold contiguous. cbn [on_lists list_store].
  rewrite indices_app. destruct (decide (key' = key)) as [->|Hne].
  - rewrite indices_appended_rows, count_list_indices. apply contig_extend, Ht.
  - rewrite indices_appended_rows_ne by done. rewrite app_nil_r. apply Ht.
Qed.

Lemma rpush_lists_ok key values now : keeps lists_ok (rpush key values now).
Proof.
  apply keeps_intro. intros e (c & Hdb & Hdata & Hsnap).
  rewrite (as_connected e c Hdb). destruct c as [t s]. cbn [data snapshot] in *.
  unfold rpush.
  rewrite (bind_ok _ _ _ _ _ (requireDb_connected _ _)).
  unfold bind at 1. rewrite rejectString_connected. cbn [data].
  destruct (select_string key now (string_store t)).
  { cbn. by apply lists_ok_connected. }
  rewrite (bind_ok _ _ _ _ _ (query_connected _ _ _)). cbn [data].
  rewrite (bind_ok _ _ _ _ _ (standalone_connected _ _)).
  unfold bind at 1. rewrite begin_if_connected.
  destruct (negb (inTransaction e) && negb (transactionMode e)), s as [t0|];
    cbn [snd fst].
  - by apply lists_ok_connected.
  - erewrite try_catch_bind_ok
      by (apply rpush_loop; intros i Hi;
          apply (contig_elem _ _ (Hdata key)) in Hi;
          rewrite count_list_indices; lia).
    apply keeps_elim; [apply keeps_try_catch; [|intros msg]; lists_ok_method|].
    apply lists_ok_connected. split.
    + by apply contiguous_after_rpush.
    + by intros t' [= <-].
  - erewrite try_catch_bind_ok
      by (apply rpush_loop; intros i Hi;
          apply (contig_elem _ _ (Hdata key)) in Hi;
          rewrite count_list_indices; lia).
    apply keeps_elim; [apply keeps_try_catch; [|intros msg]; lists_ok_method|].
    apply lists_ok_connected. split; [by apply contiguous_after_rpush|done].
  - erewrite try_catch_bind_ok
      by (apply rpush_loop; intros i Hi;
          apply (contig_elem _ _ (Hdata key)) in Hi;
          rewrite count_list_indices; lia).
    apply keeps_elim; [apply keeps_try_catch; [|intros msg]; lists_ok_method|].
    apply lists_ok_connected. split; [by apply contiguous_after_rpush|done].
Qed.

(** *** RPOP *)

#[local] Instance index_ge_trans : Transitive index_ge.
Proof. unfold index_ge. intros r1 r2 r3 ? ?. lia. Qed.
#[local] Instance index_ge_total : Total index_ge.
Proof. unfold index_ge. intros r1 r2. lia. Qed.

Lemma select_tail_max key rows row :
  select_tail key rows = Some row →
  lr_index row ∈ indices key rows
  ∧ ∀ i, i ∈ indices key rows → i ≤ lr_index row.
Proof.
  unfold select_tail. intros Hhead.
  pose proof (merge_sort_Permutation index_ge (of_key key rows)) as Hperm.
  pose proof (StronglySorted_merge_sort index_ge (of_key key rows)) as Hsorted.
  destruct (merge_sort index_ge (of_key key rows)) as [|r sorted]; [done|].
  injection Hhead as ->.
  apply StronglySorted_inv in Hsorted as [_ Hall].
  unfold indices. split.
  - apply list_elem_of_fmap. exists row. split; [done|].
    rewrite <- Hperm. left.
  - intros i (r & -> & Hr)%list_elem_of_fmap.
    rewrite <- Hperm in Hr. apply elem_of_cons in Hr as [->|Hr]; [done|].
    rewrite Forall_forall in Hall. by apply Hall.
Qed.

Lemma contiguous_after_rpop key t row :
  contiguous_tables t →
  select_tail key (list_store t) = Some row →
  contiguous_tables (on_lists (delete_index key (lr_index row)) t).
Proof.
  intros Ht Htail key'. unfold contiguous. cbn [on_lists list_store].
  destruct (decide (key' = key)) as [->|Hne].
  - rewrite indices_delete_index.
    destruct (select_tail_max _ _ _ Htail) as [Hin Hmax].
    apply contig_pop_tail; [apply Ht|exact Hin|exact Hmax].
  - rewrite indices_delete_index_ne by done. apply Ht.
Qed.

Lemma rpop_lists_ok key inTransaction_arg :
  keeps lists_ok (rpop key inTransaction_arg).
Proof.
  apply keeps_intro. intros e (c & Hdb & Hdata & Hsnap).
  rewrite (as_connected e c Hdb). destruct c as [t s]. cbn [data snapshot] in *.
  unfold rpop.
  rewrite (bind_ok _ _ _ _ _ (requireDb_connected _ _)).
  rewrite (bind_ok _ _ _ _ _ (query_connected _ _ _)). cbn [data].
  destruct (select_tail key (list_store t)) as [row|] eqn:Htail.
  2: { cbn. by apply lists_ok_connected. }
  unfold bind at 1. rewrite begin_if_connected.
  destruct (negb inTransaction_arg), s as [t0|]; cbn [snd fst].
  - by apply lists_ok_connected.
  - erewrite try_catch_bind_ok by apply run_connected.
    apply keeps_elim; [apply keeps_try_catch; [|intros msg]; lists_ok_method|].
    apply lists_ok_connected. cbn [fst snd data snapshot]. split.
    + by apply contiguous_after_rpop.
    + by intros t' [= <-].
  - erewrite try_catch_bind_ok by apply run_connected.
    apply keeps_elim; [apply keeps_try_catch; [|intros msg]; lists_ok_method|].
    apply lists_ok_connected. cbn [fst snd data snapshot].
    split; [by apply contiguous_after_rpop|done].
  - erewrite try_catch_bind_ok by apply run_connected.
    apply keeps_elim; [apply keeps_try_catch; [|intros msg]; lists_ok_method|].
    apply lists_ok_connected. cbn [fst snd data snapshot].
    split; [by apply contiguous_after_rpop|done].
Qed.

(** *** Every command *)

Lemma rpoplpush_lists_ok source destination now :
  keeps lists_ok (rpoplpush source destination now).
Proof.
  unfold rpoplpush.
  keeps_structure;
    first [ apply rpop_lists_ok | apply lpush_lists_ok | lists_ok_leaf ].
Qed.

Lemma indices_delete_key key key' (rows : list list_row) :
  indices key' (delete_key key rows)
  = if decide (key' = key) then [] else indices key' rows.
Proof.
  unfold indices, of_key, delete_key. case_decide as Hk.
  - subst key'. rewrite filter_filter_nil; [done|]. by intros r ? ?.
  - f_equal. induction rows as [|r rows IH]; [done|].
    rewrite (filter_cons (λ r, row_key r ≠ key)).
    destruct (decide (row_key r ≠ key)) as [Hr|Hr].
    + rewrite !filter_cons. by rewrite IH.
    + apply dec_stable in Hr. rewrite filter_cons, decide_False by congruence.
      done.
Qed.

Lemma indices_update_expiry x key key' (rows : list list_row) :
  indices key' (update_expiry x key rows) = indices key' rows.
Proof.
  unfold indices, of_key, update_expiry.
  induction rows as [|r rows IH]; [done|].
  rewrite fmap_cons, !filter_cons.
  destruct (decide (row_key r = key)) as [Hk|Hk].
  - destruct (decide (row_key r = key')) as [Hk'|Hk'].
    + rewrite decide_True by exact Hk'. rewrite !fmap_cons. by rewrite IH.
    + rewrite decide_False by exact Hk'. exact IH.
  - destruct (decide (row_key r = key')); [rewrite !fmap_cons|]; by rewrite IH.
Qed.

Lemma contiguous_delete_from tb key t :
  contiguous_tables t → contiguous_tables (delete_from tb key t).2.
Proof.
  intros Ht. destruct tb; try exact Ht.
  intros key'. unfold contiguous.
  cbn [delete_from on_table on_lists list_store snd]. rewrite indices_delete_key.
  case_decide; [apply contig_nil|apply Ht].
Qed.

Lemma contiguous_expire_in tb x key t :
  contiguous_tables t → contiguous_tables (expire_in tb x key t).2.
Proof.
  intros Ht. destruct tb; try exact Ht.
  intros key'. unfold contiguous.
  cbn [expire_in on_table on_lists list_store snd].
  rewrite indices_update_expiry. apply Ht.
Qed.

Lemma contiguous_truncate tb t :
  contiguous_tables t → contiguous_tables (truncate tb t).2.
Proof.
  intros Ht. destruct tb; try exact Ht. intros key'. apply contig_nil.
Qed.

Lemma lists_ok_auth given : keeps lists_ok (auth given).
Proof.
  apply keeps_intro. intros e He. unfold auth.
  destruct (no_password e); [done|].
  case_bool_decide; [by apply lists_ok_isAuthenticated|done].
Qed.

(** Every command but LPOP keeps the lists contiguous; LPUSH and RPOPLPUSH do
    so whether their UPDATE goes through or not. *)
Lemma call_lists_ok cmd now :
  is_lpop cmd = false → keeps lists_ok (call cmd now).
Proof.
  intros Hcmd. destruct cmd; try discriminate Hcmd; clear Hcmd; unfold call;
    unfold set, get, mget, lrange, hset, hmset, hget, hdel, del,
      exists_, hmget, sismember, smembers, sadd, srem, expire, ttl, flushall,
      flushdb, info;
    unfold get, hset;
    keeps_structure; unfold rejectString; keeps_structure;
    first [ apply lpush_lists_ok | apply rpush_lists_ok
          | apply rpop_lists_ok | apply rpoplpush_lists_ok
          | lists_ok_leaf
          | apply lists_ok_run; intros ? ?;
            first [ by apply contiguous_delete_from
                  | by apply contiguous_expire_in
                  | by apply contiguous_truncate ]
          | idtac ].
  - apply lists_ok_run. intros t Ht.
    destruct (insert_ignore_set _ _ _). exact Ht.
  - apply lists_ok_auth.
Qed.

Lemma connected_lists_ok : lists_ok connected.
Proof.
  eexists. split; [reflexivity|]. split.
  - intros key. apply contig_nil.
  - intros t [=].
Qed.

Lemma lists_ok_contiguous e key :
  lists_ok e → contiguous key (list_store (rows e)).
Proof. intros (c & Hdb & Hdata & _). unfold rows. rewrite Hdb. apply Hdata. Qed.

(** A run in which RPOP and LPOP do remove rows: the batch commits, which
    closes the transaction, and the pops that follow run on their own. *)
Lemma list_trace_example :
  (λ e, (λ r, (lr_index r, lr_value r)) <$> list_store (rows e))
    <$> list_trace [Batch [Rpush "k" ["a"; "b"; "c"]] 0;
                    Direct (Rpop "k") 0;
                    Direct (Lpop "k") 0;
                    Direct (Lpush "k" ["z"]) 0] connected
  = [[(0, "a"); (1, "b"); (2, "c")];
     [(0, "a"); (1, "b")];
     [(0, "b")];
     [(1, "b"); (0, "z")]].
Proof. reflexivity. Qed.

End ContiguityOfWrites.

Section ReadRuns.
Import Sql Engine Spec.

Lemma mget_run keys now c e :
  mget keys now (with_db (Some c) e)
  = (Ok ((λ key, sr_value <$> select_string key now (string_store (data c))) <$> keys),
     with_db (Some c) e).
Proof.
  unfold mget. unfold bind at 1. rewrite requireDb_connected.
  assert (∀ acc,
    for_of keys acc (λ results key,
      let* result := get key now in ret (results ++ [result]))
      (with_db (Some c) e)
    = (Ok (acc ++ ((λ key, sr_value <$> select_string key now (string_store (data c)))
                     <$> keys)),
       with_db (Some c) e)) as Hloop.
  { induction keys as [|key keys IH]; intros acc.
    - cbn. by rewrite app_nil_r.
    - cbn [for_of]. unfold bind at 1. unfold bind at 1. rewrite get_run.
      unfold ret at 1. rewrite IH. by rewrite fmap_cons, <- (assoc_L (++)). }
  apply Hloop.
Qed.

Lemma hget_run key field now c e :
  hget key field now (with_db (Some c) e)
  = match select_string key now (string_store (data c)) with
    | Some _ => (Throw WRONGTYPE, with_db (Some c) e)
    | None =>
        (Ok (hr_value <$> select_hash key field now (hash_store (data c))),
         with_db (Some c) e)
    end.
Proof.
  unfold hget. unfold bind at 1. rewrite requireDb_connected.
  unfold bind at 1. rewrite rejectString_connected.
  by destruct (select_string _ _ _).
Qed.

Lemma hmget_run key fields now c e :
  hmget key fields now (with_db (Some c) e)
  = (Ok ((λ field, hr_value <$> select_hash key field now (hash_store (data c)))
           <$> fields),
     with_db (Some c) e).
Proof.
  unfold hmget. unfold bind at 1. rewrite requireDb_connected.
  assert (∀ acc,
    for_of fields acc (λ results field,
      let* result := query (λ t, select_hash key field now (hash_store t)) in
      ret (results ++ [hr_value <$> result]))
      (with_db (Some c) e)
    = (Ok (acc ++ ((λ field, hr_value <$> select_hash key field now (hash_store (data c)))
                     <$> fields)),
       with_db (Some c) e)) as Hloop.
  { induction fields as [|f fields IH]; intros acc.
    - cbn. by rewrite app_nil_r.
    - cbn [for_of]. unfold bind at 1. unfold bind at 1. rewrite query_connected.
      unfold ret at 1. rewrite IH. by rewrite fmap_cons, <- (assoc_L (++)). }
  apply Hloop.
Qed.

Lemma sismember_run key member now c e :
  sismember key member now (with_db (Some c) e)
  = (Ok (match select_member key member now (set_store (data c)) with
         | Some _ => 1 | None => 0 end),
     with_db (Some c) e).
Proof. reflexivity. Qed.

Lemma smembers_run key now c e :
  smembers key now (with_db (Some c) e)
  = (Ok (mr_member <$> select_members key now (set_store (data c))),
     with_db (Some c) e).
Proof. reflexivity. Qed.

Lemma lrange_run key start stop c e :
  lrange key start stop (with_db (Some c) e)
  = (Ok (let length := count_list key (list_store (data c)) in
         let realStart :=
           Z.max 0 (if bool_decide (0 ≤ start) then start else length + start) in
         let realStop :=
           Z.min (length - 1) (if bool_decide (0 ≤ stop) then stop else length + stop) in
         if bool_decide (realStop < realStart) then []
         else lr_value <$> select_range key realStart realStop (list_store (data c))),
     with_db (Some c) e).
Proof.
  unfold lrange. unfold bind at 1. rewrite requireDb_connected.
  unfold bind at 1. rewrite query_connected. cbv zeta.
  case_bool_decide; [done|].
  unfold bind. by rewrite query_connected.
Qed.

Lemma exists_tables key c e :
  for_of table_names false (λ found tb,
    if found then ret true else query (key_in tb key))
    (with_db (Some c) e)
  = (Ok (held key (data c)), with_db (Some c) e).
Proof.
  cbv beta iota zeta delta [table_names for_of bind query on_db ret db with_db held].
  destruct (key_in string_table key (data c)); [done|].
  destruct (key_in hash_table key (data c)); [done|].
  destruct (key_in list_table key (data c)); [done|].
  by destruct (key_in set_table key (data c)).
Qed.

Lemma exists_run keys c e :
  exists_ keys (with_db (Some c) e)
  = (Ok (Z.of_nat (length (filter (λ key, held key (data c)) keys))),
     with_db (Some c) e).
Proof.
  unfold exists_. unfold bind at 1. rewrite requireDb_connected.
  assert (∀ count,
    for_of keys count (λ count key,
      let* found := for_of table_names false (λ found tb,
        if found then ret true else query (key_in tb key)) in
      ret (if found then count + 1 else count))
      (with_db (Some c) e)
    = (Ok (count + Z.of_nat (length (filter (λ key, held key (data c)) keys))),
       with_db (Some c) e)) as Hloop.
  { induction keys as [|key keys IH]; intros count.
    - cbn. by rewrite Z.add_0_r.
    - cbn [for_of]. unfold bind at 1. unfold bind at 1.
      rewrite exists_tables. unfold ret at 1. rewrite IH.
      rewrite filter_cons. destruct (held key (data c)).
      + rewrite decide_True by done. cbn [length]. do 2 f_equal. lia.
      + rewrite decide_False by (by intros []). done. }
  rewrite Hloop. by rewrite Z.add_0_l.
Qed.

End ReadRuns.

Section ReadFacts.
Import Sql Engine Spec.

Lemma keeps_query_same {A} e0 (q : tables → A) : keeps (eq e0) (query q).
Proof.
  apply keeps_intro. intros e <-. unfold query, on_db.
  destruct (db e0) as [c|] eqn:Hdb; [|done]. cbn. by apply as_connected.
Qed.

(** X1.  The commands that only run SELECTs leave the engine as it is, whether
    they answer or throw, on a connected engine or a closed one. *)
Theorem read_only_commands_change_nothing cmd now e :
  read_only cmd = true → (call cmd now e).2 = e.
Proof.
  intros Hread. symmetry. apply (keeps_elim (eq e)); [|done].
  destruct cmd; try discriminate Hread; unfold call;
    unfold get, mget, lrange, hget, hmget, sismember, smembers, exists_, ttl, info;
    unfold get;
    keeps_structure; unfold rejectString; keeps_structure;
    apply keeps_query_same.
Qed.

Lemma read_only_commands_change_nothing_witness :
  (call (MGET ["a"; "b"]) 0 connected).2 = connected.
Proof. exact (read_only_commands_change_nothing (MGET ["a"; "b"]) 0 connected eq_refl). Defined.

Lemma held_false key t :
  held key t = false →
  of_key key (string_store t) = [] ∧ of_key key (hash_store t) = []
  ∧ of_key key (list_store t) = [] ∧ of_key key (set_store t) = [].
Proof.
  unfold held, key_in. cbn [in_table].
  rewrite !orb_false_iff, !bool_decide_eq_false.
  intros [[[H1 H2] H3] H4]. by repeat split; apply dec_stable.
Qed.

Lemma filter_sub_nil {A} (P Q : A → Prop)
    `{!∀ x, Decision (P x)} `{!∀ x, Decision (Q x)} (l : list A) :
  (∀ x, P x → Q x) → filter Q l = [] → filter P l = [].
Proof.
  intros HPQ Hnil. apply filter_none. intros x Hx HP.
  assert (x ∈ filter Q l) as Hin by (apply list_elem_of_filter; auto).
  rewrite Hnil in Hin. by apply not_elem_of_nil in Hin.
Qed.

(** X2.  Every read of a key that has no row in any table answers as for a
    missing key, null, the empty list, 0 or -2, and leaves the engine as it
    is. *)
Theorem reads_of_a_missing_key key now member field fields start stop c e :
  held key (data c) = false →
  let s := with_db (Some c) e in
  get key now s = (Ok None, s)
  ∧ lpop key s = (Ok None, s)
  ∧ rpop key false s = (Ok None, s)
  ∧ lrange key start stop s = (Ok [], s)
  ∧ hget key field now s = (Ok None, s)
  ∧ hmget key fields now s = (Ok (replicate (length fields) None), s)
  ∧ sismember key member now s = (Ok 0, s)
  ∧ smembers key now s = (Ok [], s)
  ∧ exists_ [key] s = (Ok 0, s)
  ∧ ttl key now s = (Ok (-2), s).
Proof.
  intros Hheld s. subst s.
  destruct (held_false _ _ Hheld) as (Hs & Hh & Hl & Hm).
  assert (select_string key now (string_store (data c)) = None) as Hstring.
  { unfold select_string. rewrite (filter_sub_nil _ (λ r, row_key r = key)); auto.
    by intros r [? _]. }
  assert (∀ f, select_hash key f now (hash_store (data c)) = None) as Hhash.
  { intros f. unfold select_hash.
    rewrite (filter_sub_nil _ (λ r, row_key r = key)); auto. by intros r [[? _] _]. }
  repeat split.
  - by rewrite get_run, Hstring.
  - unfold lpop. unfold bind at 1. rewrite requireDb_connected.
    unfold bind. rewrite query_connected. unfold select_head. by rewrite Hl.
  - unfold rpop. unfold bind at 1. rewrite requireDb_connected.
    unfold bind. rewrite query_connected. unfold select_tail. by rewrite Hl.
  - rewrite lrange_run. unfold count_list. rewrite Hl. cbn [length].
    cbv zeta. rewrite bool_decide_true; [done|]. repeat case_bool_decide; lia.
  - by rewrite hget_run, Hstring, Hhash.
  - rewrite hmget_run. do 2 f_equal. induction fields as [|f fields IH]; [done|].
    cbn. by rewrite Hhash, IH.
  - rewrite sismember_run. unfold select_member.
    rewrite (filter_sub_nil _ (λ r, row_key r = key)); auto. by intros r [[? _] _].
  - rewrite smembers_run. unfold select_members.
    rewrite (filter_sub_nil _ (λ r, row_key r = key)); auto. by intros r [? _].
  - rewrite exists_run. by rewrite filter_cons, Hheld.
  - rewrite ttl_run.
    unfold expiry_in, select_expiry_string, select_expiry_hash,
      select_expiry_list, select_expiry_set.
    by rewrite Hs, Hh, Hl, Hm.
Qed.

Lemma reads_of_a_missing_key_witness :
  lrange "k" 0 (-1) connected = (Ok [], connected).
Proof.
  exact (proj1 (proj2 (proj2 (proj2
    (reads_of_a_missing_key "k" 0 "m" "f" ["f"] 0 (-1)
       (Connection no_rows None) connected eq_refl))))).
Defined.

End ReadFacts.

Section ExpireFacts.
Import Sql Engine Spec.

Lemma filter_conj {A} (P Q : A → Prop)
    `{!∀ x, Decision (P x)} `{!∀ x, Decision (Q x)} (l : list A) :
  filter (λ x, P x ∧ Q x) l = filter Q (filter P l).
Proof.
  induction l as [|x l IH]; [done|].
  rewrite (filter_cons P), (filter_cons (λ x, P x ∧ Q x)).
  destruct (decide (P x)) as [HP|HP].
  - rewrite filter_cons. destruct (decide (Q x)) as [HQ|HQ].
    + rewrite decide_True by done. by rewrite IH.
    + rewrite decide_False by tauto. done.
  - rewrite decide_False by tauto. done.
Qed.

Lemma filter_filter_sub {A} (P Q : A → Prop)
    `{!∀ x, Decision (P x)} `{!∀ x, Decision (Q x)} (l : list A) :
  (∀ x, P x → Q x) → filter P (filter Q l) = filter P l.
Proof.
  intros HPQ. induction l as [|x l IH]; [done|].
  rewrite (filter_cons Q), (filter_cons P).
  destruct (decide (Q x)) as [HQ|HQ].
  - rewrite filter_cons. by rewrite IH.
  - rewrite decide_False by auto. done.
Qed.

Lemma expire_answer key seconds now c e :
  expire key seconds now (with_db (Some c) e)
  = (Ok (if held key (data c) then 1 else 0),
     with_db (Some (Connection (expired_tables (now + seconds * 1000) key (data c))
                      (snapshot c))) e).
Proof.
  cbv beta iota zeta delta [expire bind requireDb for_of table_names run on_db ret
    expire_in on_table in_table db with_db on_strings on_hashes on_lists on_sets
    data snapshot string_store hash_store list_store set_store fst snd].
  destruct c as [[ss hs ls ms] snap]. cbv beta iota.
  f_equal. f_equal.
  unfold held, key_in. cbn [in_table string_store hash_store list_store set_store].
  destruct (of_key key ss), (of_key key hs), (of_key key ls), (of_key key ms);
    cbn [length bool_decide decide_rel orb]; repeat case_bool_decide;
    cbn; try done; try lia.
Qed.

(** X4.  SET, EXPIRE at [now], GET at [now']: the value until the expiry, null
    from the expiry on.  A delay of zero or less hides the key at once. *)
Theorem expire_then_get key value seconds now now' c e :
  ((set key value >> expire key seconds now >> get key now') (with_db (Some c) e)).1
  = Ok (if bool_decide (now' < now + seconds * 1000) then Some value else None).
Proof.
  unfold bind at 1. rewrite set_run.
  unfold bind at 1. rewrite expire_answer. rewrite get_run.
  cbn [fst data expired_tables string_store on_strings]. f_equal.
  unfold select_string.
  rewrite (filter_conj (λ r, sr_key r = key) (λ r, is_live now' (sr_expiry r))).
  change (filter (λ r, sr_key r = key) ?l) with (of_key key l).
  rewrite of_key_update_expiry_string, of_key_replace_string.
  cbn [fmap list_fmap with_expiry string_row_keyed sr_key sr_value].
  rewrite filter_cons. cbn [sr_expiry is_live].
  case_bool_decide.
  - by rewrite decide_True by done.
  - by rewrite decide_False by (by intros []).
Qed.

End ExpireFacts.

Section ReaperFacts.
Import Sql Engine Spec.

Lemma onInterval_run id now c e :
  id ∈ intervals e →
  onInterval id now (with_db (Some c) e)
  = (Ok (), with_db (Some (Connection (reaped now (data c)) (snapshot c))) e).
Proof.
  intros Hid. unfold onInterval. cbn [intervals with_db db].
  rewrite decide_True by done.
  cbv beta iota zeta delta [for_of table_names bind run on_db ret reap on_table
    db with_db on_strings on_hashes on_lists on_sets data snapshot
    string_store hash_store list_store set_store fst snd].
  by destruct c as [[ss hs ls ms] snap].
Qed.

Lemma live_not_elapsed now now' expiry :
  now ≤ now' → is_live now' expiry → ¬ is_elapsed now expiry.
Proof.
  intros Hle. destruct expiry as [t|]; cbn; [|tauto].
  rewrite !bool_decide_spec. lia.
Qed.

(** X7.  A tick of the expiry checker at [now] deletes the rows whose expiry is
    before [now] and no other row; what GET, MGET, HGET, HMGET, SISMEMBER and
    SMEMBERS answer at [now] or later is the same before and after the tick. *)
Theorem reaping_is_invisible_to_live_reads id now now' c e :
  id ∈ intervals e → now ≤ now' →
  let before := with_db (Some c) e in
  let after := (onInterval id now before).2 in
  rows after = reaped now (data c)
  ∧ (∀ key, (get key now' after).1 = (get key now' before).1)
  ∧ (∀ keys, (mget keys now' after).1 = (mget keys now' before).1)
  ∧ (∀ key field, (hget key field now' after).1 = (hget key field now' before).1)
  ∧ (∀ key fields, (hmget key fields now' after).1 = (hmget key fields now' before).1)
  ∧ (∀ key member,
       (sismember key member now' after).1 = (sismember key member now' before).1)
  ∧ (∀ key, (smembers key now' after).1 = (smembers key now' before).1).
Proof.
  intros Hid Hle before after. subst before after.
  rewrite onInterval_run by done. cbn [snd].
  assert (∀ key, select_string key now'
                   (string_store (reaped now (data c)))
                 = select_string key now' (string_store (data c))) as Hstring.
  { intros key. unfold select_string, reaped, delete_elapsed. cbn [string_store].
    rewrite filter_filter_sub; [done|].
    intros r [_ Hlive]. by eapply live_not_elapsed. }
  assert (∀ key field, select_hash key field now'
                         (hash_store (reaped now (data c)))
                       = select_hash key field now' (hash_store (data c))) as Hhash.
  { intros key field. unfold select_hash, reaped, delete_elapsed. cbn [hash_store].
    rewrite filter_filter_sub; [done|].
    intros r [_ Hlive]. by eapply live_not_elapsed. }
  split; [done|].
  split; [intros key; by rewrite !get_run; cbn [fst data]; rewrite Hstring|].
  split.
  { intros keys. rewrite !mget_run. cbn [fst data]. f_equal.
    apply list_fmap_ext. intros _ key _. by rewrite Hstring. }
  split.
  { intros key field. rewrite !hget_run. cbn [data]. rewrite Hstring.
    destruct (select_string _ _ _); [done|]. cbn [fst]. by rewrite Hhash. }
  split.
  { intros key fields. rewrite !hmget_run. cbn [fst data]. f_equal.
    apply list_fmap_ext. intros _ field _. by rewrite Hhash. }
  split.
  { intros key member. rewrite !sismember_run. cbn [fst data]. do 2 f_equal.
    unfold select_member, reaped, delete_elapsed. cbn [set_store].
    rewrite filter_filter_sub; [done|].
    intros r [_ Hlive]. by eapply live_not_elapsed. }
  intros key. rewrite !smembers_run. cbn [fst data]. do 2 f_equal.
  unfold select_members, reaped, delete_elapsed. cbn [set_store].
  rewrite filter_filter_sub; [done|].
  intros r [_ Hlive]. by eapply live_not_elapsed.
Qed.

Lemma reaping_is_invisible_to_live_reads_witness :
  let c := Connection (Tables [StringRow "k" "v" (Some 10005);
                               StringRow "old" "w" (Some 5)] [] [] []) None in
  (get "k" 7000 (onInterval 0%nat 6000 (with_db (Some c) connected)).2).1
  = (get "k" 7000 (with_db (Some c) connected)).1.
Proof.
  intros c.
  refine (proj1 (proj2 (reaping_is_invisible_to_live_reads 0%nat 6000 7000 c connected
                          _ _)) "k").
  - change (intervals connected) with ({[0%nat]} ∪ ∅ : gset nat).
    apply elem_of_union_l, elem_of_singleton. reflexivity.
  - lia.
Defined.

End ReaperFacts.

(** One structural step of a proof that a method keeps an invariant. *)
Ltac keeps_step :=
  lazy beta zeta;
  lazymatch goal with
  | |- Spec.keeps _ (Engine.bind _ _) => apply keeps_bind; [|intros ?]
  | |- Spec.keeps _ (Engine.try_catch _ _) => apply keeps_try_catch; [|intros ?]
  | |- Spec.keeps _ (Engine.for_of _ _ _) => apply keeps_for_of; intros ? ?
  | |- Spec.keeps _ (Engine.when _ _) => apply keeps_when
  | |- Spec.keeps _ (Engine.ret _) => apply keeps_ret
  | |- Spec.keeps _ (Engine.throw _) => apply keeps_throw
  | |- Spec.keeps _ (Engine.read _) => apply keeps_read
  | |- Spec.keeps _ Engine.requireDb => apply keeps_requireDb
  | |- Spec.keeps _ Engine.standalone => apply keeps_standalone
  | |- Spec.keeps _ (match ?x with _ => _ end) => destruct x
  end.

(** The leaves first, the structure where no leaf applies. *)
Ltac keeps_by leaf := repeat first [ solve [leaf] | keeps_step ].

Section TransactionState.
Import Sql Engine Spec.
Variable R : bool → bool → bool → Prop.

Lemma state_connected c e :
  transaction_state R (with_db (Some c) e)
  ↔ R (open c) (inTransaction e) (transactionMode e).
Proof.
  split; [intros (c' & [= <-] & HR); exact HR|]. intros HR. by exists c.
Qed.

(** A call on the connection that leaves the transaction as it is. *)
Lemma state_on_db {A} (call : connection → outcome A * connection) :
  (∀ c, snapshot (call c).2 = snapshot c) →
  keeps (transaction_state R) (on_db call).
Proof.
  intros Hcall. apply keeps_intro. intros e (c & Hdb & HR).
  unfold on_db. rewrite Hdb. specialize (Hcall c).
  destruct (call c) as [r c']. cbn in *. exists c'. split; [done|].
  unfold open. by rewrite Hcall.
Qed.

Lemma state_query {A} (q : tables → A) : keeps (transaction_state R) (query q).
Proof. by apply state_on_db. Qed.

Lemma state_run {A} (stmt : tables → A * tables) :
  keeps (transaction_state R) (run stmt).
Proof. apply state_on_db. intros c. by destruct (stmt (data c)). Qed.

Lemma state_run_checked stmt : keeps (transaction_state R) (run_checked stmt).
Proof. apply state_on_db. intros c. by destruct (stmt (data c)). Qed.

Lemma state_auth given : keeps (transaction_state R) (auth given).
Proof.
  apply keeps_intro. intros e He. unfold auth.
  destruct (no_password e); [done|]. by case_bool_decide.
Qed.

End TransactionState.

Ltac state_leaf :=
  first [ apply state_query | apply state_run | apply state_run_checked
        | apply state_auth ].

(** The methods that neither begin nor end a transaction keep every condition
    on the transaction state. *)
Section PlainMethods.
Import Sql Engine Spec.
Variable R : bool → bool → bool → Prop.

Lemma state_rejectString key now : keeps (transaction_state R) (rejectString key now).
Proof. unfold rejectString. keeps_by state_leaf. Qed.
Lemma state_set key value : keeps (transaction_state R) (set key value).
Proof. unfold set. keeps_by state_leaf. Qed.
Lemma state_get key now : keeps (transaction_state R) (get key now).
Proof. unfold get. keeps_by state_leaf. Qed.
Lemma state_mget keys now : keeps (transaction_state R) (mget keys now).
Proof. unfold mget, get. keeps_by state_leaf. Qed.
Lemma state_lrange key start stop : keeps (transaction_state R) (lrange key start stop).
Proof. unfold lrange. keeps_by state_leaf. Qed.
Lemma state_hset key field value : keeps (transaction_state R) (hset key field value).
Proof. unfold hset. keeps_by state_leaf. Qed.
Lemma state_hget key field now : keeps (transaction_state R) (hget key field now).
Proof. unfold hget, rejectString. keeps_by state_leaf. Qed.
Lemma state_hdel key fields : keeps (transaction_state R) (hdel key fields).
Proof. unfold hdel. keeps_by state_leaf. Qed.
Lemma state_hmget key fields now : keeps (transaction_state R) (hmget key fields now).
Proof. unfold hmget. keeps_by state_leaf. Qed.
Lemma state_exists keys : keeps (transaction_state R) (exists_ keys).
Proof. unfold exists_. keeps_by state_leaf. Qed.
Lemma state_sismember key member now : keeps (transaction_state R) (sismember key member now).
Proof. unfold sismember. keeps_by state_leaf. Qed.
Lemma state_smembers key now : keeps (transaction_state R) (smembers key now).
Proof. unfold smembers. keeps_by state_leaf. Qed.
Lemma state_srem key members : keeps (transaction_state R) (srem key members).
Proof. unfold srem. keeps_by state_leaf. Qed.
Lemma state_expire key seconds now : keeps (transaction_state R) (expire key seconds now).
Proof. unfold expire. keeps_by state_leaf. Qed.
Lemma state_ttl key now : keeps (transaction_state R) (ttl key now).
Proof. unfold ttl. keeps_by state_leaf. Qed.
Lemma state_info : keeps (transaction_state R) info.
Proof. unfold info. keeps_by state_leaf. Qed.

End PlainMethods.

Ltac state_method :=
  first [ apply state_rejectString | apply state_set | apply state_get
        | apply state_mget | apply state_lrange | apply state_hset
        | apply state_hget | apply state_hdel | apply state_hmget
        | apply state_exists | apply state_sismember | apply state_smembers
        | apply state_srem | apply state_expire | apply state_ttl
        | apply state_info | state_leaf ].

(** The transaction statements, on an engine with a database. *)
Section FlagFacts.
Import Sql Engine Spec.

Lemma commit_if_connected b t s e :
  when b (COMMIT >> write (with_inTransaction false))
    (with_db (Some (Connection t s)) e)
  = match b, s with
    | true, Some _ =>
        (Ok (), with_db (Some (Connection t None)) (with_inTransaction false e))
    | true, None => (Throw NO_ACTIVE_COMMIT, with_db (Some (Connection t s)) e)
    | false, _ => (Ok (), with_db (Some (Connection t s)) e)
    end.
Proof.
  destruct b; [|done]. unfold when, bind. rewrite commit_connected. cbn.
  by destruct s.
Qed.

Lemma rollback_if_connected b t s e :
  when b (ROLLBACK >> write (with_inTransaction false))
    (with_db (Some (Connection t s)) e)
  = match b, s with
    | true, Some t0 =>
        (Ok (), with_db (Some (Connection t0 None)) (with_inTransaction false e))
    | true, None => (Throw NO_ACTIVE_ROLLBACK, with_db (Some (Connection t s)) e)
    | false, _ => (Ok (), with_db (Some (Connection t s)) e)
    end.
Proof.
  destruct b; [|done]. unfold when, bind. rewrite rollback_connected. cbn.
  by destruct s.
Qed.

Lemma flag_begin_unit b :
  keeps flag_agrees (when b (BEGIN_TRANSACTION >> write (with_inTransaction true))).
Proof.
  apply keeps_intro. intros e (c & Hdb & Hflag).
  rewrite (as_connected e c Hdb). destruct c as [t s].
  rewrite begin_if_connected.
  destruct b, s; cbn [snd]; by apply state_connected.
Qed.

Lemma flag_commit_unit b :
  keeps flag_agrees (when b (COMMIT >> write (with_inTransaction false))).
Proof.
  apply keeps_intro. intros e (c & Hdb & Hflag).
  rewrite (as_connected e c Hdb). destruct c as [t s].
  rewrite commit_if_connected.
  destruct b, s; cbn [snd]; by apply state_connected.
Qed.

Lemma flag_rollback_unit b :
  keeps flag_agrees (when b (ROLLBACK >> write (with_inTransaction false))).
Proof.
  apply keeps_intro. intros e (c & Hdb & Hflag).
  rewrite (as_connected e c Hdb). destruct c as [t s].
  rewrite rollback_if_connected.
  destruct b, s; cbn [snd]; by apply state_connected.
Qed.

(** A method that runs BEGIN and COMMIT itself and leaves the flag alone. *)
Lemma private_begin :
  hoare flag_agrees BEGIN_TRANSACTION (λ _, inside_private) flag_agrees.
Proof.
  intros e (c & Hdb & Hflag). rewrite (as_connected e c Hdb).
  destruct c as [t s]. rewrite begin_connected.
  destruct s; apply state_connected; cbn in *; done.
Qed.

Lemma private_commit :
  hoare inside_private COMMIT (λ _, flag_agrees) inside_private.
Proof.
  intros e (c & Hdb & Hopen & Hflag). rewrite (as_connected e c Hdb).
  destruct c as [t s]. rewrite commit_connected.
  destruct s; [|done]. apply state_connected; cbn in *; done.
Qed.

Lemma private_rollback :
  hoare inside_private ROLLBACK (λ _, flag_agrees) flag_agrees.
Proof.
  intros e (c & Hdb & Hopen & Hflag). rewrite (as_connected e c Hdb).
  destruct c as [t s]. rewrite rollback_connected.
  destruct s; [|done]. apply state_connected; cbn in *; done.
Qed.

Lemma keeps_then {A B} I (Q : B → engine → Prop) (m : M A) (k : A → M B) :
  keeps I m → (∀ a, hoare I (k a) Q I) → hoare I (bind m k) Q I.
Proof. intros Hm Hk. eapply hoare_bind; [exact Hm|exact Hk]. Qed.

Lemma private_handler {A} error :
  hoare inside_private (ROLLBACK >> throw (A := A) error)
        (λ _, flag_agrees) flag_agrees.
Proof.
  eapply hoare_bind; [apply private_rollback|]. intros ?. by apply hoare_throw.
Qed.

Lemma private_finish {A} (a : A) :
  hoare inside_private (COMMIT >> ret a) (λ _, flag_agrees) inside_private.
Proof.
  eapply hoare_bind; [apply private_commit|]. intros ?. by apply hoare_ret.
Qed.

Lemma flag_hmset key fieldValues : keeps flag_agrees (hmset key fieldValues).
Proof.
  unfold hmset. apply keeps_bind; [apply keeps_requireDb|]. intros ?.
  case_bool_decide; [apply keeps_throw|].
  eapply hoare_bind; [apply private_begin|]. intros ?.
  eapply hoare_try_catch; [|apply private_handler].
  apply keeps_then; [|intros ?; apply private_finish].
  keeps_by ltac:(apply state_hset).
Qed.

Lemma flag_del keys : keeps flag_agrees (del keys).
Proof.
  unfold del. apply keeps_bind; [apply keeps_requireDb|]. intros ?.
  eapply hoare_bind; [apply private_begin|]. intros ?.
  eapply hoare_try_catch; [|apply private_handler].
  apply keeps_then; [|intros ?; apply private_finish].
  keeps_by state_leaf.
Qed.

Lemma flag_flushdb : keeps flag_agrees flushdb.
Proof.
  unfold flushdb. apply keeps_bind; [apply keeps_requireDb|]. intros ?.
  eapply hoare_bind; [apply private_begin|]. intros ?.
  eapply hoare_try_catch; [|apply private_handler].
  apply keeps_then; [|intros ?; apply private_commit].
  keeps_by state_leaf.
Qed.

End FlagFacts.

Ltac flag_leaf :=
  first [ apply flag_begin_unit | apply flag_commit_unit
        | apply flag_rollback_unit | state_method ].

Section FlagMethods.
Import Sql Engine Spec.

Lemma flag_lpush key values now : keeps flag_agrees (lpush key values now).
Proof. unfold lpush. keeps_by flag_leaf. Qed.

Lemma flag_rpush key values now : keeps flag_agrees (rpush key values now).
Proof. unfold rpush. keeps_by flag_leaf. Qed.

Lemma flag_lpop key : keeps flag_agrees (lpop key).
Proof. unfold lpop. keeps_by flag_leaf. Qed.

Lemma flag_rpop key arg : keeps flag_agrees (rpop key arg).
Proof. unfold rpop. keeps_by flag_leaf. Qed.

Lemma flag_sadd key members now : keeps flag_agrees (sadd key members now).
Proof. unfold sadd. keeps_by flag_leaf. Qed.

Lemma flag_rpoplpush source destination now :
  keeps flag_agrees (rpoplpush source destination now).
Proof.
  unfold rpoplpush.
  keeps_by ltac:(first [ apply flag_rpop | apply flag_lpush | flag_leaf ]).
Qed.

Lemma flag_call cmd now : keeps flag_agrees (call cmd now).
Proof.
  destruct cmd; cbn [call]; apply keeps_bind;
    try (intros ?; apply keeps_ret);
    first [ apply flag_lpush | apply flag_rpush | apply flag_lpop
          | apply flag_rpop | apply flag_sadd | apply flag_rpoplpush
          | apply flag_hmset | apply flag_del | apply flag_flushdb
          | flag_leaf ].
Qed.

End FlagMethods.

(** Inside [exec]: the guards [!this.inTransaction && !this.transactionMode]
    are false, and a BEGIN is rejected. *)
Section InsideExec.
Import Sql Engine Spec.

Lemma hoare_false {A} (m : M A) Q E : hoare (λ _, False) m Q E.
Proof. by intros e []. Qed.

Lemma exec_standalone {A} (k : bool → M A) :
  keeps inside_exec (k false) → keeps inside_exec (bind standalone k).
Proof.
  intros Hk e He. unfold bind, standalone.
  pose proof He as (c & Hdb & Hopen & Hflag & Hmode).
  rewrite Hflag, Hmode. cbn. by apply Hk.
Qed.

Lemma exec_begin_rejects :
  hoare inside_exec BEGIN_TRANSACTION (λ _ _, False) inside_exec.
Proof.
  intros e (c & Hdb & Hopen & Hflag). rewrite (as_connected e c Hdb).
  destruct c as [t s]. rewrite begin_connected.
  destruct s; [|done]. by apply state_connected.
Qed.

Lemma exec_private {A B} (k : M A) (Q : B → engine → Prop) (rest : A → M B) :
  hoare inside_exec (bind (BEGIN_TRANSACTION >> k) rest) Q inside_exec.
Proof.
  eapply hoare_bind; [|intros ?; apply hoare_false].
  eapply hoare_bind; [apply exec_begin_rejects|intros ?; apply hoare_false].
Qed.

Lemma exec_begin_unit {A} (k : M A) :
  hoare inside_exec
    (when true (BEGIN_TRANSACTION >> write (with_inTransaction true)) >> k)
    (λ _, inside_exec) inside_exec.
Proof. apply exec_private. Qed.

End InsideExec.

Ltac exec_leaf := state_method.

Ltac exec_step :=
  lazy beta zeta;
  lazymatch goal with
  | |- Spec.keeps _ (Engine.bind Engine.standalone _) => apply exec_standalone
  | |- Spec.keeps _ (Engine.when false _) => apply keeps_ret
  | _ => keeps_step
  end.

Ltac exec_by leaf := repeat first [ solve [leaf] | exec_step ].

Section ExecMethods.
Import Sql Engine Spec.

Lemma exec_lpush key values now : keeps inside_exec (lpush key values now).
Proof. unfold lpush. exec_by exec_leaf. Qed.

Lemma exec_rpush key values now : keeps inside_exec (rpush key values now).
Proof. unfold rpush. exec_by exec_leaf. Qed.

Lemma exec_lpop key : keeps inside_exec (lpop key).
Proof. unfold lpop. exec_by exec_leaf. Qed.

Lemma exec_sadd key members now : keeps inside_exec (sadd key members now).
Proof. unfold sadd. exec_by exec_leaf. Qed.

Lemma exec_rpop key arg : keeps inside_exec (rpop key arg).
Proof.
  unfold rpop. destruct arg; cbn [negb]; [exec_by exec_leaf|].
  apply keeps_bind; [apply keeps_requireDb|]. intros ?.
  apply keeps_bind; [apply state_query|]. intros [row|]; [|apply keeps_ret].
  apply exec_begin_unit.
Qed.

Lemma exec_rpoplpush source destination now :
  keeps inside_exec (rpoplpush source destination now).
Proof.
  unfold rpoplpush.
  exec_by ltac:(first [ apply exec_rpop | apply exec_lpush | exec_leaf ]).
Qed.

Lemma exec_hmset key fieldValues : keeps inside_exec (hmset key fieldValues).
Proof.
  unfold hmset. apply keeps_bind; [apply keeps_requireDb|]. intros ?.
  case_bool_decide; [apply keeps_throw|].
  eapply hoare_bind; [apply exec_begin_rejects|intros ?; apply hoare_false].
Qed.

Lemma exec_del keys : keeps inside_exec (del keys).
Proof.
  unfold del. apply keeps_bind; [apply keeps_requireDb|]. intros ?.
  eapply hoare_bind; [apply exec_begin_rejects|intros ?; apply hoare_false].
Qed.

Lemma exec_flushdb : keeps inside_exec flushdb.
Proof.
  unfold flushdb. apply keeps_bind; [apply keeps_requireDb|]. intros ?.
  eapply hoare_bind; [apply exec_begin_rejects|intros ?; apply hoare_false].
Qed.

Lemma exec_call cmd now : keeps inside_exec (call cmd now).
Proof.
  destruct cmd; cbn [call]; apply keeps_bind;
    try (intros ?; apply keeps_ret);
    first [ apply exec_lpush | apply exec_rpush | apply exec_lpop
          | apply exec_rpop | apply exec_sadd | apply exec_rpoplpush
          | apply exec_hmset | apply exec_del | apply exec_flushdb
          | state_method ].
Qed.

(** The loop of [exec]: one slot per command, and no command makes it
    throw. *)
Lemma exec_loop cmds now results :
  hoare inside_exec
    (for_of cmds results (λ results cmd,
       try_catch
         (match hash_command_key cmd with
          | Some key => rejectString key now
          | None => ret ()
          end >>
          let* result := call cmd now in
          ret (results ++ [Ok result]))
         (λ error, ret (results ++ [Throw error]))))
    (λ results' e,
       inside_exec e ∧ length results' = (length results + length cmds)%nat)
    (λ _, False).
Proof.
  revert results. induction cmds as [|cmd cmds IH]; intros results.
  { apply hoare_ret. intros e He. split; [done|]. cbn. lia. }
  cbn [for_of]. eapply hoare_bind; [|intros results'; cbn beta].
  - apply hoare_try_catch with
      (Q := λ results' e, inside_exec e
              ∧ length results' = S (length results))
      (E' := inside_exec).
    + eapply hoare_bind with (R := λ _, inside_exec).
      * destruct (hash_command_key cmd);
          [apply state_rejectString|apply keeps_ret].
      * intros ?. eapply hoare_bind; [apply exec_call|]. intros r.
        apply hoare_ret. intros e He. split; [done|].
        rewrite length_app. cbn. lia.
    + intros msg. apply hoare_ret. intros e He. split; [done|].
      rewrite length_app. cbn. lia.
  - intros e [He Hlen]. specialize (IH results' e He).
    destruct (for_of _ _ _ e) as [[r|msg] e']; [|done].
    destruct IH as [He' Hr]. split; [done|]. cbn. lia.
Qed.

End ExecMethods.

Section ExecRun.
Import Sql Engine Spec.

Lemma hoare_pure {A} (φ : Prop) P (m : M A) Q E :
  (φ → hoare P m Q E) → hoare (λ e, P e ∧ φ) m Q E.
Proof. intros Hm e [HP Hφ]. by apply Hm. Qed.

Lemma hoare_read {A} P (field : engine → A) E :
  hoare P (read field) (λ a e, P e ∧ a = field e) E.
Proof. by intros e HP. Qed.

Lemma hoare_write P f (Q : unit → engine → Prop) E :
  (∀ e, P e → Q () (f e)) → hoare P (write f) Q E.
Proof. intros Hf e HP. by apply Hf. Qed.

Lemma exec_begin cmds active :
  hoare (λ e, exec_ready cmds e ∧ active = inTransaction e)
    (when (negb active) (BEGIN_TRANSACTION >> write (with_inTransaction true)))
    (λ _ e, inside_exec e ∧ transactionCommands e = cmds)
    (λ _, False).
Proof.
  intros e [((c & Hdb & Hflag) & Hmode & Hcmds) ->].
  rewrite Hflag, (as_connected e c Hdb). destruct c as [t s].
  rewrite begin_if_connected.
  destruct s; cbn in *; (split; [|done]); apply state_connected; by cbn.
Qed.

Lemma exec_commit : hoare inside_exec COMMIT (λ _, committed) (λ _, False).
Proof.
  intros e (c & Hdb & Hopen & Hflag). rewrite (as_connected e c Hdb).
  destruct c as [t s]. rewrite commit_connected.
  destruct s; [|done]. by apply state_connected.
Qed.

Lemma exec_triple cmds now :
  hoare (exec_ready cmds) (exec now)
    (λ results e, length results = length cmds ∧ exec_done e) (λ _, False).
Proof.
  unfold exec. apply hoare_bind with (R := λ _, exec_ready cmds).
  { intros e He. pose proof He as [(c & Hdb & _) _].
    unfold requireDb. by rewrite Hdb. }
  intros ?. eapply hoare_bind; [apply hoare_read|]. intros mode.
  apply hoare_conseq with
    (P := λ e, exec_ready cmds e ∧ mode = true)
    (Q := λ results e, length results = length cmds ∧ exec_done e)
    (E := λ _, False); [|intros e [He ->]; split; [exact He|apply He]|done..].
  apply hoare_pure. intros ->. cbn [negb].
  eapply hoare_try_catch; [|intros ?; apply hoare_false].
  eapply hoare_bind; [apply hoare_read|]. intros active.
  eapply hoare_bind; [apply exec_begin|]. intros ?.
  eapply hoare_bind; [apply hoare_read|]. intros commands.
  apply hoare_conseq with
    (P := λ e, inside_exec e ∧ commands = cmds)
    (Q := λ results e, length results = length cmds ∧ exec_done e)
    (E := λ _, False); [|by intros e [[He <-] ->]|done..].
  apply hoare_pure. intros ->.
  eapply hoare_bind; [apply exec_loop|]. intros results. cbn beta.
  apply hoare_conseq with
    (P := λ e, inside_exec e ∧ length results = length cmds)
    (Q := λ results e, length results = length cmds ∧ exec_done e)
    (E := λ _, False); [|by intros e [He ->]|done..].
  apply hoare_pure. intros Hlen.
  eapply hoare_bind; [apply exec_commit|]. intros ?.
  apply hoare_bind with
    (R := λ _ e, committed e ∧ inTransaction e = false).
  { apply hoare_write. intros e (c & Hdb & Hopen). split; [by exists c|done]. }
  intros ?.
  apply hoare_bind with
    (R := λ _ e, (committed e ∧ inTransaction e = false)
                 ∧ transactionMode e = false).
  { apply hoare_write. intros e [(c & Hdb & Hopen) Hflag].
    split; [split; [by exists c|done]|done]. }
  intros ?.
  apply hoare_bind with (R := λ _, exec_done).
  { apply hoare_write. intros e [[(c & Hdb & Hopen) Hflag] Hmode].
    split; [|done]. exists c. split; [done|]. cbn. by rewrite Hflag, Hopen. }
  intros ?. by apply hoare_ret.
Qed.

(** One round of the loop of [exec]: the outcome of the queued command goes
    into its slot, and the loop goes on whatever the outcome. *)
Lemma exec_round cmd now results e :
  try_catch
    (match hash_command_key cmd with
     | Some key => rejectString key now
     | None => ret ()
     end >>
     let* result := call cmd now in
     ret (results ++ [Ok result]))
    (λ error, ret (results ++ [Throw error])) e
  = (Ok (results ++ [(queued cmd now e).1]), (queued cmd now e).2).
Proof.
  unfold queued, try_catch, bind, ret.
  destruct (match hash_command_key cmd with
            | Some key => rejectString key now
            | None => λ e, (Ok (), e)
            end e) as [[[]|msg] e1]; [|done].
  by destruct (call cmd now e1) as [[r|msg] e2].
Qed.

Lemma exec_loop_run cmds now results e :
  for_of cmds results (λ results cmd,
    try_catch
      (match hash_command_key cmd with
       | Some key => rejectString key now
       | None => ret ()
       end >>
       let* result := call cmd now in
       ret (results ++ [Ok result]))
      (λ error, ret (results ++ [Throw error]))) e
  = (Ok (results ++ (run_queue cmds now e).1), (run_queue cmds now e).2).
Proof.
  revert results e. induction cmds as [|cmd cmds IH]; intros results e.
  { cbn. by rewrite app_nil_r. }
  cbn [for_of run_queue fst snd]. unfold bind at 1. rewrite exec_round.
  rewrite IH. by rewrite <- app_assoc.
Qed.

Lemma length_run_queue cmds now e :
  length (run_queue cmds now e).1 = length cmds.
Proof.
  revert e. induction cmds as [|cmd cmds IH]; intros e; [done|].
  cbn [run_queue fst length]. by rewrite IH.
Qed.

(** [exec] in terms of the run of its queue. *)
Lemma exec_run now e :
  flag_agrees e → transactionMode e = true →
  exec now e
  = (Ok (run_queue (transactionCommands e) now (begun e)).1,
     ended (run_queue (transactionCommands e) now (begun e)).2)
  ∧ inside_exec (run_queue (transactionCommands e) now (begun e)).2.
Proof.
  intros Hflag Hmode. pose proof Hflag as (c & Hdb & Hopen).
  pose proof (exec_begin (transactionCommands e) (inTransaction e) e
                (conj (conj Hflag (conj Hmode eq_refl)) eq_refl)) as Hbegin.
  unfold begun.
  destruct (when (negb (inTransaction e))
              (BEGIN_TRANSACTION >> write (with_inTransaction true)) e)
    as [[[]|msg] e1] eqn:Hwhen; [|done].
  destruct Hbegin as [He1 Hqueue]. cbn [snd].
  pose proof (exec_loop (transactionCommands e) now [] e1 He1) as Hloop.
  rewrite exec_loop_run in Hloop. destruct Hloop as [He2 _].
  split; [|exact He2].
  set (e2 := (run_queue (transactionCommands e) now e1).2) in *.
  unfold exec. unfold bind at 1. unfold requireDb at 1. rewrite Hdb.
  unfold bind at 1. unfold read at 1. rewrite Hmode. cbn [negb].
  unfold try_catch at 1. unfold bind at 1. unfold read at 1.
  unfold bind at 1. rewrite Hwhen.
  unfold bind at 1. unfold read at 1. rewrite Hqueue. cbv beta.
  unfold bind at 1. rewrite exec_loop_run. fold e2. cbn [app].
  destruct He2 as (c2 & Hdb2 & Hopen2 & _).
  unfold ended. rewrite Hdb2. cbn [mbind option_bind].
  rewrite (as_connected e2 c2 Hdb2) at 1. destruct c2 as [t2 s2].
  unfold bind at 1. rewrite commit_connected. cbn [snapshot data].
  destruct s2; [|done]. reflexivity.
Qed.

(** X26.  Within MULTI, EXEC of a queue of data commands does not throw,
    whatever the queued commands do.  It runs BEGIN unless [inTransaction] is
    set, then the queued commands in order, each on the engine that the one
    before it left and a hash command after the type check of its key; it
    answers the outcome of each command in its slot, the reply or the error;
    it commits the rows that the last command left, and leaves the engine
    outside MULTI with an empty queue and no transaction open. *)
Theorem exec_answers_every_queued_command now e :
  flag_agrees e → transactionMode e = true →
  let run := run_queue (transactionCommands e) now (begun e) in
  exec now e = (Ok run.1, ended run.2)
  ∧ length run.1 = length (transactionCommands e)
  ∧ db (ended run.2) = Some (Connection (rows run.2) None)
  ∧ inTransaction (ended run.2) = false
  ∧ transactionMode (ended run.2) = false
  ∧ transactionCommands (ended run.2) = [].
Proof.
  intros Hflag Hmode run. subst run.
  destruct (exec_run now e Hflag Hmode) as [Hexec (c2 & Hdb2 & _)].
  split; [done|]. split; [apply length_run_queue|].
  split; [|done]. unfold ended, rows. by rewrite Hdb2.
Qed.

Lemma exec_answers_every_queued_command_witness :
  let e := (serve (AddCommand (LPOP "l")) 0
             (serve (AddCommand (GET "k")) 0
               (serve (AddCommand (HSET "k" "f" "v")) 0
                 (serve (AddCommand (SET "k" "v")) 0
                    (serve Multi 0
                       (serve (Command (LPUSH "l" ["c"])) 0
                         (serve (Command (LPUSH "l" ["b"])) 0
                           (serve (Command (LPUSH "l" ["a"])) 0
                              connected).2).2).2).2).2).2).2).2 in
  (exec 0 e).1
  = Ok [Ok Status; Throw WRONGTYPE; Ok (Bulk (Some "v")); Throw CONSTRAINT]
  ∧ db (exec 0 e).2
    = Some (Connection
        (Tables [StringRow "k" "v" None] []
                [ListRow "l" 2 "a" None; ListRow "l" 1 "b" None] []) None).
Proof.
  intros e.
  assert (flag_agrees e) as Hflag.
  { exists (Connection
      (Tables [] [] [ListRow "l" 2 "a" None; ListRow "l" 1 "b" None;
                     ListRow "l" 0 "c" None] [])
      (Some no_rows)).
    split; reflexivity. }
  destruct (exec_answers_every_queued_command 0 e Hflag eq_refl) as (Hexec & _).
  rewrite Hexec. split; reflexivity.
Defined.

End ExecRun.

Section FlagInvariant.
Import Sql Engine Spec.

Lemma state_write_other R f :
  (∀ e, db (f e) = db e ∧ inTransaction (f e) = inTransaction e
        ∧ transactionMode (f e) = transactionMode e) →
  keeps (transaction_state R) (write f).
Proof.
  intros Hf. apply keeps_write. intros e (c & Hdb & HR).
  destruct (Hf e) as (Hdb' & Hflag & Hmode). exists c.
  by rewrite Hdb', Hflag, Hmode.
Qed.

Lemma state_fresh R : keeps (transaction_state R) fresh.
Proof. apply keeps_intro. by intros e (c & Hdb & HR); exists c. Qed.

Lemma state_resolve R p value : keeps (transaction_state R) (resolve p value).
Proof.
  apply state_write_other. intros e. by destruct (settled e !! p).
Qed.

Lemma flag_brpoplpush source destination timeout_sec now :
  keeps flag_agrees (brpoplpush source destination timeout_sec now).
Proof.
  unfold brpoplpush, addBlockingOperation.
  keeps_by ltac:(first [ apply flag_rpoplpush | apply state_fresh
                       | by apply state_write_other ]).
Qed.

Lemma flag_exec now : keeps flag_agrees (exec now).
Proof.
  intros e He. destruct (transactionMode e) eqn:Hmode.
  - pose proof (exec_triple (transactionCommands e) now e
                  (conj He (conj Hmode eq_refl))) as H.
    destruct (exec now e) as [[results|msg] e']; [apply H|done].
  - destruct He as (c & Hdb & Hflag). unfold exec, bind, requireDb, read.
    rewrite Hdb, Hmode. cbn. by exists c.
Qed.

Lemma flag_serve rq now e :
  rq ≠ Close → flag_agrees e → flag_agrees (serve rq now e).2.
Proof.
  intros Hrq. apply keeps_elim. destruct rq; cbn [serve]; [..|done].
  - apply keeps_bind; [apply flag_call|intros ?; apply keeps_ret].
  - apply keeps_bind; [apply flag_brpoplpush|intros ?; apply keeps_ret].
  - apply keeps_bind; [|intros ?; apply keeps_ret].
    apply keeps_write. by intros e' (c & Hdb & Hflag); exists c.
  - apply keeps_bind; [|intros ?; apply keeps_ret].
    apply keeps_intro. intros e' (c & Hdb & Hflag). unfold addCommand.
    destruct (transactionMode e'); by exists c.
  - apply keeps_bind; [apply flag_exec|intros ?; apply keeps_ret].
Qed.

Lemma flag_onTimeout timeoutId : keeps flag_agrees (onTimeout timeoutId).
Proof.
  intros e He. unfold onTimeout. destruct (timeouts e !! timeoutId) as [tm|];
    [|done].
  assert (keeps flag_agrees
    (write (with_timeouts (delete timeoutId (timeouts e))) >>
     removeBlockingOperation (tm_source tm) (PromiseResolve (tm_promise tm)) >>
     resolve (tm_promise tm) None)) as Hkeeps; [|exact (Hkeeps e He)].
  unfold removeBlockingOperation.
  keeps_by ltac:(first [ apply state_resolve | by apply state_write_other ]).
Qed.

Lemma flag_onInterval id now : keeps flag_agrees (onInterval id now).
Proof.
  intros e He. unfold onInterval. destruct (decide (id ∈ intervals e)); [|done].
  destruct (db e) eqn:Hdb; [|done].
  assert (keeps flag_agrees (for_of table_names () (λ _ tb, run (reap tb now))))
    as Hkeeps; [|exact (Hkeeps e He)].
  keeps_by state_leaf.
Qed.

Lemma flag_step ev e : closes ev = false → flag_agrees e → flag_agrees (step ev e).
Proof.
  intros Hev He. destruct ev as [rq now|timeoutId|id now]; cbn [step].
  - apply flag_serve; [|done]. by intros ->.
  - by apply keeps_elim; [apply flag_onTimeout|].
  - by apply keeps_elim; [apply flag_onInterval|].
Qed.

(** X25.  As long as the database is not closed, the flag [inTransaction] is
    true exactly when the SQLite connection has a transaction open, whatever
    methods are called and whatever timers fire. *)
Theorem flag_tracks_the_transaction evs e :
  Forall (λ ev, closes ev = false) evs →
  flag_agrees e → flag_agrees (run_events evs e).
Proof.
  intros Hevs. revert e. induction Hevs as [|ev evs Hev _ IH]; intros e He.
  - exact He.
  - cbn [run_events]. apply IH. by apply flag_step.
Qed.

Lemma flag_tracks_the_transaction_witness :
  flag_agrees (run_events
    [Calls (Command (LPUSH "l" ["a"])) 0;
     Calls (Command (DEL ["l"])) 1;
     Calls Multi 2; Calls Exec 3] connected).
Proof.
  apply flag_tracks_the_transaction.
  - repeat constructor.
  - exists (Connection no_rows None). split; reflexivity.
Defined.

End FlagInvariant.

Section DelFacts.
Import Sql Engine Spec.

Lemma without_nil {R} `{Keyed R} (rows : list R) : without [] rows = rows.
Proof. unfold without. apply filter_all. intros r _. apply not_elem_of_nil. Qed.

Lemma without_cons {R} `{Keyed R} key keys (rows : list R) :
  without keys (delete_key key rows) = without (key :: keys) rows.
Proof.
  unfold without, delete_key. induction rows as [|r rows IH]; [done|].
  rewrite !filter_cons. destruct (decide (row_key r ≠ key)) as [Hne|Heq].
  - rewrite filter_cons, IH.
    destruct (decide (row_key r ∉ keys)) as [Hout|Hin].
    + rewrite decide_True; [done|]. rewrite not_elem_of_cons. done.
    + rewrite decide_False; [done|]. rewrite not_elem_of_cons. tauto.
  - rewrite IH. rewrite decide_False; [done|].
    rewrite not_elem_of_cons. tauto.
Qed.

Lemma of_key_delete_key {R} `{Keyed R} key key' (rows : list R) :
  key' ≠ key → of_key key' (delete_key key rows) = of_key key' rows.
Proof.
  intros Hne. unfold of_key, delete_key. induction rows as [|r rows IH]; [done|].
  rewrite !filter_cons. destruct (decide (row_key r ≠ key)) as [Hr|Hr].
  - by rewrite filter_cons, IH.
  - rewrite IH. rewrite decide_False; [done|]. intros Heq. apply Hr. congruence.
Qed.

Lemma on_table_without tb key keys t :
  on_table tb (λ R _, without keys) (delete_from tb key t).2
  = on_table tb (λ R _, without (key :: keys)) t.
Proof.
  destruct tb, t as [ss hs ls ms];
    unfold delete_from, on_table, on_strings, on_hashes, on_lists, on_sets;
    cbn [snd string_store hash_store list_store set_store];
    by rewrite without_cons.
Qed.

Lemma key_in_delete_from tb key key' t :
  key' ≠ key → key_in tb key' (delete_from tb key t).2 = key_in tb key' t.
Proof.
  intros Hne.
  destruct tb, t as [ss hs ls ms];
    unfold key_in, in_table, delete_from, on_table, on_strings, on_hashes,
      on_lists, on_sets;
    cbn [snd string_store hash_store list_store set_store];
    by rewrite of_key_delete_key.
Qed.

Lemma delete_from_changes tb key t :
  (if bool_decide (0 < (delete_from tb key t).1) then 1 else 0)
  = if key_in tb key t then 1 else 0.
Proof.
  destruct tb, t as [ss hs ls ms]; unfold delete_from, key_in, in_table;
    cbn [fst string_store hash_store list_store set_store];
    match goal with |- context [of_key key ?rows] =>
      destruct (of_key key rows) eqn:Hrows end; cbn [length].
  all: first
    [ rewrite (bool_decide_false (0 < _)) by lia;
      by rewrite bool_decide_false by (intros Hne; by apply Hne)
    | rewrite (bool_decide_true (0 < _)) by lia;
      by rewrite bool_decide_true ].
Qed.

Lemma key_in_deleted tb key t : key_in tb key (delete_from tb key t).2 = false.
Proof.
  destruct tb, t as [ss hs ls ms];
    unfold key_in, in_table, delete_from, on_table, on_strings, on_hashes,
      on_lists, on_sets;
    cbn [snd string_store hash_store list_store set_store];
    apply bool_decide_false; intros Hne; apply Hne;
    unfold of_key, delete_key; apply filter_filter_nil; tauto.
Qed.

Lemma filter_ext_in {A} (P Q : A → Prop) `{∀ x, Decision (P x)}
    `{∀ x, Decision (Q x)} (l : list A) :
  (∀ x, x ∈ l → P x ↔ Q x) → filter P l = filter Q l.
Proof.
  induction l as [|x l IH]; intros HPQ; [done|]. rewrite !filter_cons.
  rewrite IH by (intros y Hy; apply HPQ; by right).
  destruct (decide (P x)) as [HP|HP].
  - rewrite decide_True; [done|]. apply HPQ; [left|done].
  - rewrite decide_False; [done|]. intros HQ. apply HP. apply HPQ; [left|done].
Qed.

Lemma count_without (P : string → Prop) `{∀ x, Decision (P x)} key keys :
  NoDup keys → key ∈ keys →
  length (filter P keys)
  = ((if decide (P key) then 1 else 0)
     + length (filter (λ x, P x ∧ x ≠ key) keys))%nat.
Proof.
  intros Hnd. induction Hnd as [|k keys Hk Hnd IH]; [by intros ?%elem_of_nil|].
  intros [Heq|Hin]%elem_of_cons; [subst k|].
  - rewrite !filter_cons. rewrite (decide_False (P := _ ∧ key ≠ key)) by tauto.
    assert (filter (λ x, P x ∧ x ≠ key) keys = filter P keys) as ->.
    { apply filter_ext_in. intros x Hx. split; [tauto|].
      intros HP. split; [done|]. by intros ->. }
    by destruct (decide (P key)).
  - rewrite !filter_cons. specialize (IH Hin).
    assert (k ≠ key) as Hne by (intros ->; by apply Hk).
    destruct (decide (P k)) as [HP|HP].
    + rewrite (decide_True (P := P k ∧ k ≠ key)) by (by split).
      cbn [length]. lia.
    + rewrite (decide_False (P := P k ∧ k ≠ key)) by tauto. done.
Qed.

Lemma count_distinct_cons (P : string → Prop) `{∀ x, Decision (P x)} key keys :
  ((if decide (P key) then 1 else 0)
   + length (filter (λ x, P x ∧ x ≠ key) (remove_dups keys)))%nat
  = length (filter P (remove_dups (key :: keys))).
Proof.
  cbn [remove_dups]. destruct (decide_rel elem_of key keys) as [Hin|Hout].
  - rewrite (count_without P key)
      by (first [apply NoDup_remove_dups | by apply elem_of_remove_dups]).
    done.
  - rewrite filter_cons.
    assert (filter (λ x, P x ∧ x ≠ key) (remove_dups keys)
            = filter P (remove_dups keys)) as ->.
    { apply filter_ext_in. intros k Hk. rewrite elem_of_remove_dups in Hk.
      split; [tauto|]. intros ?. split; [done|]. intros ->. by apply Hout. }
    by destruct (decide (P key)).
Qed.

Lemma held_in_cons tb key keys t :
  ((if key_in tb key t then 1 else 0)
   + held_in tb keys (delete_from tb key t).2)%nat
  = held_in tb (key :: keys) t.
Proof.
  unfold held_in.
  rewrite <- (count_distinct_cons (λ k, key_in tb k t = true)).
  f_equal.
  - destruct (key_in tb key t); [by rewrite decide_True|by rewrite decide_False].
  - f_equal. apply list_filter_iff. intros k.
    destruct (decide (k = key)) as [->|Hne].
    + rewrite key_in_deleted. split; [done|tauto].
    + rewrite key_in_delete_from by done. tauto.
Qed.

(** The inner loop of [del], over the keys, on one table. *)
Lemma del_keys tb keys deleted t s e :
  for_of keys deleted (λ deleted key,
    let* changes := run (delete_from tb key) in
    ret (deleted + (if bool_decide (0 < changes) then 1 else 0)))
    (with_db (Some (Connection t s)) e)
  = (Ok (deleted + Z.of_nat (held_in tb keys t)),
     with_db (Some (Connection (on_table tb (λ R _, without keys) t) s)) e).
Proof.
  revert deleted t. induction keys as [|key keys IH]; intros deleted t.
  - cbn [for_of]. unfold ret, held_in. cbn [remove_dups filter length].
    rewrite Z.add_0_r. do 4 f_equal.
    destruct tb, t as [ss hs ls ms];
      unfold on_table, on_strings, on_hashes, on_lists, on_sets;
      cbn [string_store hash_store list_store set_store];
      by rewrite without_nil.
  - cbn [for_of]. unfold bind at 1. unfold bind at 1.
    rewrite run_connected. cbn [snapshot data]. unfold ret at 1.
    rewrite IH, on_table_without, delete_from_changes, <- held_in_cons.
    do 2 f_equal. destruct (key_in tb key t); lia.
Qed.

Lemma del_run keys t e :
  del keys (with_db (Some (Connection t None)) e)
  = (Ok (Z.of_nat (held_in string_table keys t + held_in hash_table keys t
                   + held_in list_table keys t + held_in set_table keys t)),
     with_db (Some (Connection (deleted_tables keys t) None)) e).
Proof.
  unfold del. rewrite (bind_ok _ _ _ _ _ (requireDb_connected _ _)).
  unfold bind at 1. rewrite begin_connected. cbn [snapshot data].
  unfold try_catch, table_names. cbn [for_of].
  unfold bind at 1. unfold bind at 1. rewrite del_keys.
  unfold bind at 1. rewrite del_keys.
  unfold bind at 1. rewrite del_keys.
  unfold bind at 1. rewrite del_keys.
  unfold ret at 1. unfold bind at 1. rewrite commit_connected.
  cbn [snapshot data]. unfold ret.
  destruct t as [ss hs ls ms]. f_equal. f_equal. unfold held_in, key_in. cbn.
  lia.
Qed.

Lemma of_key_without_in {R} `{Keyed R} key keys (rows : list R) :
  key ∈ keys → of_key key (without keys rows) = [].
Proof.
  intros Hin. unfold of_key, without. apply filter_filter_nil.
  intros r <- Hout. by apply Hout.
Qed.

Lemma of_key_without_out {R} `{Keyed R} key keys (rows : list R) :
  key ∉ keys → of_key key (without keys rows) = of_key key rows.
Proof.
  intros Hout. unfold of_key, without. induction rows as [|r rows IH]; [done|].
  rewrite !filter_cons. destruct (decide (row_key r ∉ keys)) as [Hr|Hr].
  - by rewrite filter_cons, IH.
  - rewrite IH. rewrite decide_False; [done|]. intros <-. by apply Hr.
Qed.

(** X8.  DEL, called while no transaction is open, removes every row of every
    given key from the four tables and leaves the rows of all other keys as
    they are.  Its answer counts, table by table, the different keys that had
    a row there, so a key with rows in two tables counts twice. *)
Theorem del_removes_every_row_of_its_keys keys t e :
  let r := del keys (with_db (Some (Connection t None)) e) in
  r.1 = Ok (Z.of_nat (held_in string_table keys t + held_in hash_table keys t
                      + held_in list_table keys t + held_in set_table keys t))
  ∧ r.2 = with_db (Some (Connection (deleted_tables keys t) None)) e
  ∧ (∀ key, key ∈ keys → held key (rows r.2) = false)
  ∧ (∀ key, key ∉ keys →
       of_key key (string_store (rows r.2)) = of_key key (string_store t)
       ∧ of_key key (hash_store (rows r.2)) = of_key key (hash_store t)
       ∧ of_key key (list_store (rows r.2)) = of_key key (list_store t)
       ∧ of_key key (set_store (rows r.2)) = of_key key (set_store t)).
Proof.
  intros r. subst r. rewrite del_run. cbn [fst snd].
  split; [done|]. split; [done|].
  unfold rows, deleted_tables.
  cbn [db with_db data string_store hash_store list_store set_store]. split.
  - intros key Hin. unfold held, key_in.
    cbn [in_table string_store hash_store list_store set_store].
    rewrite !of_key_without_in by done.
    by rewrite bool_decide_false by (intros Hne; by apply Hne).
  - intros key Hout. by rewrite !of_key_without_out.
Qed.

Lemma del_removes_every_row_of_its_keys_witness :
  let t := Tables [StringRow "k" "v" None] [HashRow "k" "f" "x" None] [] [] in
  let r := del ["k"; "k"] (with_db (Some (Connection t None)) (constructor None)) in
  r.1 = Ok 2 ∧ held "k" (rows r.2) = false.
Proof.
  intros t.
  pose proof (del_removes_every_row_of_its_keys ["k"; "k"] t (constructor None))
    as H.
  refine (conj (proj1 H) (proj1 (proj2 (proj2 H)) "k" _)).
  left.
Defined.

End DelFacts.

Section OpenTransaction.
Import Sql Engine Spec.

(** The methods that run BEGIN themselves, while a transaction is open. *)
Lemma del_open keys t t0 e :
  del keys (with_db (Some (Connection t (Some t0))) e)
  = (Throw NESTED_BEGIN, with_db (Some (Connection t (Some t0))) e).
Proof. reflexivity. Qed.

Lemma flushdb_open t t0 e :
  flushdb (with_db (Some (Connection t (Some t0))) e)
  = (Throw NESTED_BEGIN, with_db (Some (Connection t (Some t0))) e).
Proof. reflexivity. Qed.

Lemma hmset_open key fieldValues t t0 e :
  Nat.even (length fieldValues) = true →
  hmset key fieldValues (with_db (Some (Connection t (Some t0))) e)
  = (Throw NESTED_BEGIN, with_db (Some (Connection t (Some t0))) e).
Proof.
  intros Heven. unfold hmset.
  rewrite (bind_ok _ _ _ _ _ (requireDb_connected _ _)).
  rewrite bool_decide_false by (by rewrite Heven). reflexivity.
Qed.

Lemma rpop_open key row t t0 e :
  select_tail key (list_store t) = Some row →
  rpop key false (with_db (Some (Connection t (Some t0))) e)
  = (Throw NESTED_BEGIN, with_db (Some (Connection t (Some t0))) e).
Proof.
  intros Hrow. unfold rpop.
  rewrite (bind_ok _ _ _ _ _ (requireDb_connected _ _)).
  rewrite (bind_ok _ _ _ _ _ (query_connected _ _ _)). cbn [data].
  rewrite Hrow. reflexivity.
Qed.

(** X27.  An LPUSH outside MULTI, on an engine with no transaction open, runs
    BEGIN and sets [inTransaction], so that its own test
    [!this.inTransaction && !this.transactionMode] fails before COMMIT: the
    transaction stays open.  DEL, FLUSHDB and HMSET, which run BEGIN
    themselves, then reject with the error of SQLite for a nested BEGIN and
    change nothing. *)
Theorem lpush_outside_multi_leaves_its_transaction_open key values now t e :
  select_string key now (string_store t) = None →
  inTransaction e = false → transactionMode e = false →
  (∀ i, i ∈ indices key (list_store t) → 0 ≤ i) →
  let e1 := (lpush key values now (with_db (Some (Connection t None)) e)).2 in
  inTransaction e1 = true
  ∧ (∃ t1, db e1 = Some (Connection t1 (Some t)))
  ∧ (∀ keys, del keys e1 = (Throw NESTED_BEGIN, e1))
  ∧ flushdb e1 = (Throw NESTED_BEGIN, e1)
  ∧ (∀ key' fieldValues, Nat.even (length fieldValues) = true →
       hmset key' fieldValues e1 = (Throw NESTED_BEGIN, e1)).
Proof.
  intros Hstring Hflag Hmode Hpos e1. subst e1.
  rewrite lpush_run by done. rewrite Hflag, Hmode.
  destruct (shift_index _ key (list_store t)); cbn [negb andb snd].
  all: split; [done|]; split; [by eexists|]; split; [|split].
  all: first [ intros keys; apply del_open | apply flushdb_open
             | intros key' fieldValues Heven; by apply hmset_open ].
Qed.

Lemma lpush_outside_multi_leaves_its_transaction_open_witness :
  let e1 := (lpush "k" ["a"] 0 connected).2 in
  inTransaction e1 = true
  ∧ (∃ t1, db e1 = Some (Connection t1 (Some no_rows)))
  ∧ (∀ keys, del keys e1 = (Throw NESTED_BEGIN, e1))
  ∧ flushdb e1 = (Throw NESTED_BEGIN, e1)
  ∧ (∀ key' fieldValues, Nat.even (length fieldValues) = true →
       hmset key' fieldValues e1 = (Throw NESTED_BEGIN, e1)).
Proof.
  refine (lpush_outside_multi_leaves_its_transaction_open "k" ["a"] 0 no_rows
            (with_db None connected) _ _ _ _).
  - reflexivity.
  - reflexivity.
  - reflexivity.
  - intros i Hi. vm_compute in Hi. by apply elem_of_nil in Hi.
Defined.

End OpenTransaction.

Section HashRoundTrip.
Import Sql Engine Spec.

Lemma select_hash_replace_same key field value now rows :
  select_hash key field now (replace_hash key field value rows)
  = Some (HashRow key field value None).
Proof.
  unfold select_hash, replace_hash. rewrite filter_app.
  rewrite filter_filter_nil by (intros r [Hpk _] Hnot; by apply Hnot).
  cbn [app]. rewrite filter_cons, decide_True; [done|].
  by repeat split.
Qed.

Lemma select_hash_replace_other key field value key' field' now rows :
  (key', field') ≠ (key, field) →
  select_hash key' field' now (replace_hash key field value rows)
  = select_hash key' field' now rows.
Proof.
  intros Hne. unfold select_hash, replace_hash. rewrite filter_app.
  rewrite (filter_cons _ (HashRow key field value None)), decide_False.
  2:{ intros [[Hk Hf] _]. cbn in Hk, Hf. apply Hne. by rewrite Hk, Hf. }
  rewrite filter_nil, app_nil_r. f_equal.
  induction rows as [|r rows IH]; [done|].
  rewrite (filter_cons (λ r, ¬ hash_pk key field r)).
  destruct (decide (¬ hash_pk key field r)) as [Hr|Hr].
  - by rewrite !filter_cons, IH.
  - rewrite IH, filter_cons, decide_False; [done|].
    intros [[Hk Hf] _]. apply Hr. intros [Hk' Hf']. apply Hne. congruence.
Qed.

(** X10.  HGET after HSET answers the value just written, and HSET changes the
    answer of HGET for no other key or field.  The precondition is the one
    HGET checks and HSET does not: no live string is stored under the key. *)
Theorem hget_after_hset key field value now c e :
  select_string key now (string_store (data c)) = None →
  let s := with_db (Some c) e in
  ((hset key field value >> hget key field now) s).1 = Ok (Some value)
  ∧ ∀ key' field', (key', field') ≠ (key, field) →
      ((hset key field value >> hget key' field' now) s).1
      = (hget key' field' now s).1.
Proof.
  intros Hstring s. subst s. split.
  - unfold bind at 1. rewrite hset_run. rewrite hget_run.
    cbn [data string_store on_hashes hash_store]. rewrite Hstring.
    by rewrite select_hash_replace_same.
  - intros key' field' Hne. unfold bind at 1. rewrite hset_run, !hget_run.
    cbn [data string_store on_hashes hash_store].
    destruct (select_string key' now _); [done|]. cbn [fst].
    by rewrite select_hash_replace_other.
Qed.

Lemma hget_after_hset_witness :
  ((hset "h" "f" "v" >> hget "h" "f" 0) connected).1 = Ok (Some "v").
Proof.
  refine (proj1 (hget_after_hset "h" "f" "v" 0 (Connection no_rows None)
                   (with_db None connected) _)).
  reflexivity.
Defined.

Lemma filter_split_length {A} (P : A → Prop) `{∀ x, Decision (P x)} (l : list A) :
  (length (filter P l) + length (filter (λ x, ¬ P x) l))%nat = length l.
Proof.
  induction l as [|x l IH]; [done|]. rewrite !filter_cons.
  destruct (decide (P x)) as [HP|HP].
  - rewrite decide_False by tauto. cbn [length]. lia.
  - rewrite decide_True by done. cbn [length]. lia.
Qed.

Lemma select_hash_delete_in key fields field now rows :
  field ∈ fields → select_hash key field now (delete_hash key fields rows) = None.
Proof.
  intros Hin. unfold select_hash, delete_hash.
  rewrite filter_filter_nil; [done|].
  intros r [[Hk Hf] _] Hnot. apply Hnot. split; [done|]. by rewrite Hf.
Qed.

Lemma select_hash_delete_out key fields key' field' now rows :
  ¬ (key' = key ∧ field' ∈ fields) →
  select_hash key' field' now (delete_hash key fields rows)
  = select_hash key' field' now rows.
Proof.
  intros Hout. unfold select_hash, delete_hash. f_equal.
  induction rows as [|r rows IH]; [done|].
  rewrite (filter_cons (λ r, ¬ (hr_key r = key ∧ hr_field r ∈ fields))).
  destruct (decide (¬ (hr_key r = key ∧ hr_field r ∈ fields))) as [Hr|Hr].
  - by rewrite !filter_cons, IH.
  - rewrite IH, filter_cons, decide_False; [done|].
    intros [[Hk Hf] _]. apply Hr. intros [Hk' Hf']. apply Hout.
    split; congruence.
Qed.

(** X12.  HDEL answers the number of stored fields it removed, whether they had
    expired or not; afterwards HGET finds none of the given fields, and every
    other field of every hash is found as before. *)
Theorem hdel_counts_the_fields_it_removes key fields now c e :
  let r := hdel key fields (with_db (Some c) e) in
  r.1 = Ok (Z.of_nat (length
              (filter (λ r, hr_key r = key ∧ hr_field r ∈ fields)
                      (hash_store (data c)))))
  ∧ (∀ field, field ∈ fields →
       select_hash key field now (hash_store (rows r.2)) = None)
  ∧ (∀ key' field', ¬ (key' = key ∧ field' ∈ fields) →
       select_hash key' field' now (hash_store (rows r.2))
       = select_hash key' field' now (hash_store (data c))).
Proof.
  intros r. subst r. unfold hdel.
  rewrite (bind_ok _ _ _ _ _ (requireDb_connected _ _)).
  unfold bind at 1. rewrite run_connected. unfold ret.
  cbn [fst snd rows db with_db data on_hashes hash_store]. split; [|split].
  - f_equal. unfold removed, delete_hash.
    pose proof (filter_split_length
      (λ r, hr_key r = key ∧ hr_field r ∈ fields) (hash_store (data c))).
    lia.
  - intros field Hin. by apply select_hash_delete_in.
  - intros key' field' Hout. by apply select_hash_delete_out.
Qed.

Lemma hdel_counts_the_fields_it_removes_witness :
  let c := Connection (Tables [] [HashRow "h" "f" "x" None] [] []) None in
  let r := hdel "h" ["f"; "g"] (with_db (Some c) (constructor None)) in
  r.1 = Ok 1 ∧ select_hash "h" "f" 0 (hash_store (rows r.2)) = None.
Proof.
  intros c.
  pose proof (hdel_counts_the_fields_it_removes "h" ["f"; "g"] 0 c
                (constructor None)) as H.
  refine (conj (proj1 H) (proj1 (proj2 H) "f" _)).
  left.
Defined.

(** The loop of [hmset]. *)
Lemma hmset_loop key (fvs : list (string * string)) t s e :
  for_of fvs () (λ _ fv, let* _ := hset key fv.1 fv.2 in ret ())
    (with_db (Some (Connection t s)) e)
  = (Ok (),
     with_db (Some (Connection
       (on_hashes (λ rows,
          fold_left (λ rows fv, replace_hash key fv.1 fv.2 rows) fvs rows) t)
       s)) e).
Proof.
  revert t. induction fvs as [|fv fvs IH]; intros t.
  - cbn. by destruct t.
  - cbn [for_of fold_left]. unfold bind at 1. unfold bind at 1.
    rewrite hset_run. unfold ret at 1. cbn [data snapshot]. rewrite IH.
    by destruct t.
Qed.

Lemma select_hash_fold key field value now before after rows :
  field ∉ after.*1 →
  select_hash key field now
    (fold_left (λ rows fv, replace_hash key fv.1 fv.2 rows)
               (before ++ (field, value) :: after) rows)
  = Some (HashRow key field value None).
Proof.
  intros Hlast. rewrite fold_left_app. cbn [fold_left fst snd].
  generalize (fold_left (λ rows fv, replace_hash key fv.1 fv.2 rows) before rows).
  intros rows'. clear before rows.
  assert (∀ rows0,
    select_hash key field now rows0 = Some (HashRow key field value None) →
    select_hash key field now
      (fold_left (λ rows fv, replace_hash key fv.1 fv.2 rows) after rows0)
    = Some (HashRow key field value None)) as Hkeep.
  { induction after as [|[f v] after IH]; intros rows0 Hsel; [done|].
    cbn [fold_left fst snd]. cbn [fmap list_fmap fst] in Hlast.
    apply not_elem_of_cons in Hlast as [Hne Hlast]. apply IH; [done|].
    rewrite select_hash_replace_other; [done|]. congruence. }
  apply Hkeep, select_hash_replace_same.
Qed.

(** X11.  HMSET with an odd number of field and value arguments rejects before it
    writes anything.  With an even number, and no transaction open, it
    succeeds, and HGET then answers, for every field given, the value of its
    last occurrence in the arguments. *)
Theorem hget_after_hmset key fieldValues now t e :
  let s := with_db (Some (Connection t None)) e in
  (Nat.even (length fieldValues) = false →
     hmset key fieldValues s = (Throw HMSET_ARITY, s))
  ∧ (Nat.even (length fieldValues) = true →
     select_string key now (string_store t) = None →
     (hmset key fieldValues s).1 = Ok OK
     ∧ ∀ before field value after,
         pairs fieldValues = before ++ (field, value) :: after →
         field ∉ after.*1 →
         ((hmset key fieldValues >> hget key field now) s).1 = Ok (Some value)).
Proof.
  intros s. subst s. split.
  - intros Hodd. unfold hmset.
    rewrite (bind_ok _ _ _ _ _ (requireDb_connected _ _)).
    by rewrite bool_decide_true.
  - intros Heven Hstring.
    assert (hmset key fieldValues (with_db (Some (Connection t None)) e)
      = (Ok OK, with_db (Some (Connection
           (on_hashes (λ rows,
              fold_left (λ rows fv, replace_hash key fv.1 fv.2 rows)
                        (pairs fieldValues) rows) t) None)) e)) as Hrun.
    { unfold hmset. rewrite (bind_ok _ _ _ _ _ (requireDb_connected _ _)).
      rewrite bool_decide_false by (by rewrite Heven).
      unfold bind at 1. rewrite begin_connected. cbn [snapshot data].
      unfold try_catch. unfold bind at 1. rewrite hmset_loop.
      unfold bind at 1. rewrite commit_connected. reflexivity. }
    split; [by rewrite Hrun|].
    intros before field value after Hpairs Hlast.
    unfold bind at 1. rewrite Hrun, hget_run.
    cbn [data string_store on_hashes hash_store]. rewrite Hstring. cbn [fst].
    by rewrite Hpairs, select_hash_fold.
Qed.

Lemma hget_after_hmset_witness :
  ((hmset "h" ["f"; "1"; "g"; "2"; "f"; "3"] >> hget "h" "f" 0) connected).1
  = Ok (Some "3").
Proof.
  refine (proj2 (proj2 (hget_after_hmset "h" ["f"; "1"; "g"; "2"; "f"; "3"] 0
                   no_rows (with_db None connected)) _ _)
            [("f", "1"); ("g", "2")] "f" "3" [] _ _).
  - reflexivity.
  - reflexivity.
  - reflexivity.
  - cbn. apply not_elem_of_nil.
Defined.

End HashRoundTrip.

Section SetRoundTrip.
Import Sql Engine Spec.

Lemma insert_ignore_has key member member' rows :
  Exists (set_pk key member') (insert_ignore_set key member rows).2
  ↔ Exists (set_pk key member') rows ∨ member' = member.
Proof.
  unfold insert_ignore_set.
  destruct (decide (Exists (set_pk key member) rows)) as [Hhas|Hnew]; cbn [snd].
  - split; [by left|]. intros [?| ->]; done.
  - rewrite Exists_app, Exists_cons, Exists_nil. unfold set_pk at 2. cbn.
    split; [intros [?|[[_ ?]|[]]]; by eauto|].
    intros [?| ->]; [by left|]. right. by left.
Qed.

Lemma insert_ignore_changes key member rows :
  (insert_ignore_set key member rows).1
  = if decide (¬ Exists (set_pk key member) rows) then 1 else 0.
Proof.
  unfold insert_ignore_set.
  destruct (decide (Exists (set_pk key member) rows)) as [Hhas|Hnew]; cbn [fst].
  - by rewrite decide_False by tauto.
  - by rewrite decide_True.
Qed.

(** The loop of [sadd]. *)
Lemma sadd_loop key members added t s e :
  for_of members added (λ added member,
    let* changes := run (λ t,
      let '(changes, rows) := insert_ignore_set key member (set_store t) in
      (changes, on_sets (λ _, rows) t)) in
    ret (added + changes))
    (with_db (Some (Connection t s)) e)
  = (Ok (added + Z.of_nat (length (new_members key members (set_store t)))),
     with_db (Some (Connection (on_sets (after_sadd key members) t) s)) e).
Proof.
  revert added t. induction members as [|member members IH]; intros added t.
  - cbn. rewrite Z.add_0_r. by destruct t.
  - cbn [for_of]. unfold bind at 1. unfold bind at 1.
    rewrite run_connected. cbn [snapshot data]. unfold ret at 1.
    pose proof (insert_ignore_changes key member (set_store t)) as Hchanges.
    pose proof (λ member', insert_ignore_has key member member' (set_store t))
      as Hhas.
    destruct (insert_ignore_set key member (set_store t)) as [changes rows']
      eqn:Hins.
    cbn [fst snd] in *. rewrite IH. cbn [on_sets set_store].
    f_equal; [f_equal|].
    2:{ destruct t as [ss hs ls ms]. unfold on_sets, after_sadd. cbn [fold_left set_store] in *.
        by rewrite Hins. }
    unfold new_members.
    rewrite <- (count_distinct_cons
      (λ member, ¬ Exists (set_pk key member) (set_store t))).
    rewrite Hchanges.
    assert (filter (λ member0, ¬ Exists (set_pk key member0) rows')
              (remove_dups members)
            = filter (λ x, ¬ Exists (set_pk key x) (set_store t) ∧ x ≠ member)
                (remove_dups members)) as ->.
    { apply list_filter_iff. intros m. rewrite Hhas. tauto. }
    destruct (decide (¬ Exists (set_pk key member) (set_store t))); lia.
Qed.

Lemma sadd_run key members now t s e :
  select_string key now (string_store t) = None →
  (inTransaction e = false → transactionMode e = false → s = None) →
  sadd key members now (with_db (Some (Connection t s)) e)
  = (Ok (Z.of_nat (length (new_members key members (set_store t)))),
     if negb (inTransaction e) && negb (transactionMode e)
     then with_db (Some (Connection (on_sets (after_sadd key members) t) (Some t)))
            (with_inTransaction true e)
     else with_db (Some (Connection (on_sets (after_sadd key members) t) s)) e).
Proof.
  intros Hstring Htx. unfold sadd.
  rewrite (bind_ok _ _ _ _ _ (requireDb_connected _ _)).
  unfold bind at 1. rewrite rejectString_connected. cbn [data]. rewrite Hstring.
  rewrite (bind_ok _ _ _ _ _ (standalone_connected _ _)).
  unfold bind at 1. rewrite begin_if_connected.
  destruct (negb (inTransaction e) && negb (transactionMode e)) eqn:Hown.
  - apply andb_prop in Hown as [Hin Hmode].
    apply negb_true_iff in Hin, Hmode. rewrite (Htx Hin Hmode).
    unfold try_catch. unfold bind at 1. rewrite sadd_loop.
    rewrite (bind_ok _ _ _ _ _ (standalone_connected _ _)).
    cbn [inTransaction with_inTransaction negb andb when]. by rewrite Z.add_0_l.
  - unfold try_catch. unfold bind at 1. rewrite sadd_loop.
    rewrite (bind_ok _ _ _ _ _ (standalone_connected _ _)). rewrite Hown.
    cbn [when]. by rewrite Z.add_0_l.
Qed.

Lemma after_sadd_has key members member rows :
  Exists (set_pk key member) (after_sadd key members rows)
  ↔ Exists (set_pk key member) rows ∨ member ∈ members.
Proof.
  unfold after_sadd. revert rows.
  induction members as [|m members IH]; intros rows; cbn [fold_left].
  - rewrite elem_of_nil. tauto.
  - rewrite IH, insert_ignore_has, elem_of_cons. tauto.
Qed.

Lemma after_sadd_live key members now rows :
  (∀ row, row ∈ rows → mr_key row = key → is_live now (mr_expiry row) = true) →
  ∀ row, row ∈ after_sadd key members rows → mr_key row = key →
    is_live now (mr_expiry row) = true.
Proof.
  unfold after_sadd. revert rows.
  induction members as [|m members IH]; intros rows Hlive; cbn [fold_left];
    [done|].
  apply IH. unfold insert_ignore_set.
  destruct (decide (Exists (set_pk key m) rows)); cbn [snd]; [done|].
  intros row [Hin| ->%list_elem_of_singleton]%elem_of_app; [by apply Hlive|done].
Qed.

Lemma after_sadd_unique key members rows :
  set_unique rows → set_unique (after_sadd key members rows).
Proof.
  unfold after_sadd. revert rows.
  induction members as [|m members IH]; intros rows Hrows; cbn [fold_left];
    [done|].
  apply IH. unfold insert_ignore_set.
  destruct (decide (Exists (set_pk key m) rows)) as [Hhas|Hnew]; cbn [snd];
    [done|].
  unfold set_unique. rewrite fmap_app. apply NoDup_app. split; [done|].
  split; [|apply NoDup_singleton].
  intros [k' m'] (r & [= -> ->] & Hr)%list_elem_of_fmap Hin.
  apply list_elem_of_singleton in Hin as [= Hk Hm]. apply Hnew.
  apply Exists_exists. by exists r.
Qed.

Lemma select_member_live key member now rows :
  Exists (set_pk key member) rows →
  (∀ row, row ∈ rows → mr_key row = key → is_live now (mr_expiry row) = true) →
  is_Some (select_member key member now rows).
Proof.
  intros (r & Hr & Hpk)%Exists_exists Hlive. unfold select_member.
  destruct (filter _ rows) as [|r' rows'] eqn:Hfilter; [|by eexists].
  assert (r ∈ filter (λ r, set_pk key member r ∧ is_live now (mr_expiry r)) rows)
    as Hin.
  { apply list_elem_of_filter. split; [|done]. split; [done|].
    apply Is_true_true, Hlive; [done|apply Hpk]. }
  rewrite Hfilter in Hin. by apply elem_of_nil in Hin.
Qed.

(** X14.  SADD answers the number of different members among its arguments that
    the set did not hold, and adds a row for each of them and for no other:
    no member gets a second row.  When no member row of the key has expired,
    SISMEMBER then answers 1 for every argument. *)
Theorem sismember_after_sadd key members now t s e :
  select_string key now (string_store t) = None →
  (inTransaction e = false → transactionMode e = false → s = None) →
  let r := sadd key members now (with_db (Some (Connection t s)) e) in
  r.1 = Ok (Z.of_nat (length (new_members key members (set_store t))))
  ∧ (∀ member, Exists (set_pk key member) (set_store (rows r.2))
       ↔ Exists (set_pk key member) (set_store t) ∨ member ∈ members)
  ∧ (set_unique (set_store t) → set_unique (set_store (rows r.2)))
  ∧ ((∀ row, row ∈ set_store t → mr_key row = key →
        is_live now (mr_expiry row) = true) →
     ∀ member, member ∈ members → (sismember key member now r.2).1 = Ok 1).
Proof.
  intros Hstring Htx r. subst r. rewrite sadd_run by done. cbn [fst snd].
  assert (set_store (rows
    (if negb (inTransaction e) && negb (transactionMode e)
     then with_db (Some (Connection (on_sets (after_sadd key members) t) (Some t)))
            (with_inTransaction true e)
     else with_db (Some (Connection (on_sets (after_sadd key members) t) s)) e))
    = after_sadd key members (set_store t)) as Hrows.
  { by destruct (negb (inTransaction e) && negb (transactionMode e)). }
  rewrite Hrows. split; [done|]. split; [|split].
  - intros member. apply after_sadd_has.
  - apply after_sadd_unique.
  - intros Hlive member Hin.
    assert (is_Some (select_member key member now
                       (after_sadd key members (set_store t)))) as [row Hrow].
    { apply select_member_live.
      - apply after_sadd_has. by right.
      - by apply after_sadd_live. }
    destruct (negb (inTransaction e) && negb (transactionMode e));
      rewrite sismember_run; cbn [fst data on_sets set_store];
      by rewrite Hrow.
Qed.

Lemma sismember_after_sadd_witness :
  ((sadd "s" ["a"; "b"; "a"] 0 >> sismember "s" "b" 0) connected).1 = Ok 1.
Proof.
  refine (proj2 (proj2 (proj2 (sismember_after_sadd "s" ["a"; "b"; "a"] 0 no_rows
    None (with_db None connected) _ _))) _ "b" _).
  - reflexivity.
  - reflexivity.
  - intros row Hrow. by apply elem_of_nil in Hrow.
  - right. left.
Defined.

Lemma select_member_delete_in key members member now rows :
  member ∈ members →
  select_member key member now (delete_set key members rows) = None.
Proof.
  intros Hin. unfold select_member, delete_set.
  rewrite filter_filter_nil; [done|].
  intros r [[Hk Hm] _] Hnot. apply Hnot. split; [done|]. by rewrite Hm.
Qed.

Lemma select_member_delete_out key members key' member' now rows :
  ¬ (key' = key ∧ member' ∈ members) →
  select_member key' member' now (delete_set key members rows)
  = select_member key' member' now rows.
Proof.
  intros Hout. unfold select_member, delete_set. f_equal.
  induction rows as [|r rows IH]; [done|].
  rewrite (filter_cons (λ r, ¬ (mr_key r = key ∧ mr_member r ∈ members))).
  destruct (decide (¬ (mr_key r = key ∧ mr_member r ∈ members))) as [Hr|Hr].
  - by rewrite !filter_cons, IH.
  - rewrite IH, filter_cons, decide_False; [done|].
    intros [[Hk Hm] _]. apply Hr. intros [Hk' Hm']. apply Hout.
    split; congruence.
Qed.

(** X15.  SREM answers the number of stored members it removed, whether they
    had expired or not; afterwards SISMEMBER answers 0 for every given
    member, and every other member of every set is found as before. *)
Theorem srem_counts_the_members_it_removes key members now c e :
  let r := srem key members (with_db (Some c) e) in
  r.1 = Ok (Z.of_nat (length
              (filter (λ r, mr_key r = key ∧ mr_member r ∈ members)
                      (set_store (data c)))))
  ∧ (∀ member, member ∈ members → (sismember key member now r.2).1 = Ok 0)
  ∧ (∀ key' member', ¬ (key' = key ∧ member' ∈ members) →
       (sismember key' member' now r.2).1
       = (sismember key' member' now (with_db (Some c) e)).1).
Proof.
  intros r.
  assert (r = (Ok (removed (set_store (data c))
                           (delete_set key members (set_store (data c)))),
               with_db (Some (Connection
                 (on_sets (delete_set key members) (data c)) (snapshot c))) e))
    as ->.
  { subst r. unfold srem.
    rewrite (bind_ok _ _ _ _ _ (requireDb_connected _ _)).
    unfold bind at 1. by rewrite run_connected. }
  cbn [fst snd]. split; [|split].
  - f_equal. unfold removed, delete_set.
    pose proof (filter_split_length
      (λ r, mr_key r = key ∧ mr_member r ∈ members) (set_store (data c))).
    lia.
  - intros member Hin. rewrite sismember_run.
    cbn [fst data on_sets set_store]. by rewrite select_member_delete_in.
  - intros key' member' Hout. rewrite !sismember_run.
    cbn [fst data on_sets set_store]. by rewrite select_member_delete_out.
Qed.

Lemma srem_counts_the_members_it_removes_witness :
  let c := Connection (Tables [] [] [] [SetRow "s" "a" None]) None in
  let r := srem "s" ["a"; "b"] (with_db (Some c) (constructor None)) in
  r.1 = Ok 1 ∧ (sismember "s" "a" 0 r.2).1 = Ok 0.
Proof.
  intros c.
  pose proof (srem_counts_the_members_it_removes "s" ["a"; "b"] 0 c
                (constructor None)) as H.
  refine (conj (proj1 H) (proj1 (proj2 H) "a" _)).
  left.
Defined.

End SetRoundTrip.

Section Elements.
Import Sql Engine Spec.

#[local] Instance index_le_trans : Transitive index_le.
Proof. unfold index_le. intros r1 r2 r3 ? ?. lia. Qed.
#[local] Instance index_le_total : Total index_le.
Proof. unfold index_le. intros r1 r2. lia. Qed.

Lemma same_index (l : list list_row) r1 r2 :
  NoDup (lr_index <$> l) → r1 ∈ l → r2 ∈ l → lr_index r1 = lr_index r2 → r1 = r2.
Proof.
  induction l as [|r l IH]; [by intros _ ?%elem_of_nil|].
  rewrite fmap_cons, NoDup_cons.
  intros [Hr Hnd] [->|H1]%elem_of_cons [->|H2]%elem_of_cons Heq;
    [done| | |by apply IH].
  - destruct Hr. rewrite Heq. by apply list_elem_of_fmap_2.
  - destruct Hr. rewrite <- Heq. by apply list_elem_of_fmap_2.
Qed.

(** Rows with different indices have one order by index. *)
Lemma sorted_rows_unique (l sorted : list list_row) :
  NoDup (lr_index <$> l) → StronglySorted index_le sorted → sorted ≡ₚ l →
  merge_sort index_le l = sorted.
Proof.
  intros Hnd Hsorted Hperm. apply (StronglySorted_unique_strong index_le).
  - intros r1 r2 H1 H2 H12 H21. apply (same_index l); [done|..].
    + by rewrite merge_sort_Permutation in H1.
    + by rewrite Hperm in H2.
    + unfold index_le in *. lia.
  - apply StronglySorted_merge_sort; apply _.
  - done.
  - by rewrite merge_sort_Permutation.
Qed.

Lemma contiguous_NoDup key rows :
  contiguous key rows → NoDup (lr_index <$> of_key key rows).
Proof.
  unfold contiguous, contig, indices. intros ->. apply NoDup_seqZ.
Qed.

Lemma StronglySorted_seqZ m n : StronglySorted Z.le (seqZ m n).
Proof.
  destruct (decide (0 ≤ n)) as [Hn|Hn]; [|rewrite seqZ_nil by lia; constructor].
  rewrite <- (Z2Nat.id n) by done. generalize (Z.to_nat n). clear n Hn.
  intros k. revert m. induction k as [|k IH]; intros m.
  - rewrite seqZ_nil by lia. constructor.
  - rewrite seqZ_cons by lia. constructor.
    + replace (Z.pred (Z.of_nat (S k))) with (Z.of_nat k) by lia. apply IH.
    + apply Forall_forall. intros i Hi%elem_of_seqZ. lia.
Qed.

(** The indices of a contiguous list, in the order of LRANGE. *)
Lemma sorted_indices key rows :
  contiguous key rows →
  lr_index <$> merge_sort index_le (of_key key rows)
  = seqZ 0 (count_list key rows).
Proof.
  intros Hc. apply (StronglySorted_unique Z.le).
  - apply (StronglySorted_fmap _ index_le); [done|].
    apply StronglySorted_merge_sort; apply _.
  - apply StronglySorted_seqZ.
  - rewrite merge_sort_Permutation. unfold contiguous, contig, indices in Hc.
    rewrite Hc at 1. unfold count_list. by rewrite length_fmap.
Qed.

Lemma filter_range {A} (f : A → Z) (l : list A) c a b :
  f <$> l = seqZ c (Z.of_nat (length l)) → c ≤ a →
  filter (λ x, a ≤ f x ≤ b) l
  = take (Z.to_nat (b - a + 1)) (drop (Z.to_nat (a - c)) l).
Proof.
  revert a c. induction l as [|x l IH]; intros a c Hl Hc.
  { by rewrite drop_nil, take_nil. }
  cbn [length] in Hl. rewrite seqZ_cons in Hl by lia.
  rewrite fmap_cons in Hl. injection Hl as Hx Hl.
  replace (Z.pred (Z.of_nat (S (length l)))) with (Z.of_nat (length l)) in Hl
    by lia.
  rewrite filter_cons. destruct (decide (a = c)) as [->|Hne].
  - replace (Z.to_nat (c - c)) with 0%nat by lia. rewrite drop_0.
    assert (filter (λ x, c ≤ f x ≤ b) l
            = take (Z.to_nat (b - c)) l) as ->.
    { trans (filter (λ x, Z.succ c ≤ f x ≤ b) l).
      - apply filter_ext_in. intros y Hy. apply (list_elem_of_fmap_2 f) in Hy.
        rewrite Hl in Hy. apply elem_of_seqZ in Hy. lia.
      - rewrite (IH (Z.succ c) (Z.succ c)) by (done || lia).
        replace (Z.to_nat (Z.succ c - Z.succ c)) with 0%nat by lia.
        rewrite drop_0. f_equal. lia. }
    destruct (decide (c ≤ f x ≤ b)) as [Hin|Hout].
    + replace (Z.to_nat (b - c + 1)) with (S (Z.to_nat (b - c))) by lia. done.
    + replace (Z.to_nat (b - c + 1)) with 0%nat by lia.
      replace (Z.to_nat (b - c)) with 0%nat by lia. done.
  - rewrite decide_False by lia. rewrite (IH a (Z.succ c)) by (done || lia).
    replace (Z.to_nat (a - c)) with (S (Z.to_nat (a - Z.succ c))) by lia. done.
Qed.

Lemma StronglySorted_filter {A} (R : relation A) (P : A → Prop)
    `{∀ x, Decision (P x)} (l : list A) :
  StronglySorted R l → StronglySorted R (filter P l).
Proof.
  induction 1 as [|x l Hl IH Hall]; [constructor|].
  rewrite filter_cons. destruct (decide (P x)); [|done].
  constructor; [done|]. apply Forall_forall. intros y [_ Hy]%list_elem_of_filter.
  rewrite Forall_forall in Hall. by apply Hall.
Qed.

Lemma NoDup_fmap_filter {A B} (f : A → B) (P : A → Prop)
    `{∀ x, Decision (P x)} (l : list A) :
  NoDup (f <$> l) → NoDup (f <$> filter P l).
Proof.
  induction l as [|x l IH]; [done|]. rewrite fmap_cons, NoDup_cons.
  intros [Hx Hnd]. rewrite filter_cons. destruct (decide (P x)); [|by apply IH].
  rewrite fmap_cons. apply NoDup_cons. split; [|by apply IH].
  intros (y & Hy & [_ Hin]%list_elem_of_filter)%list_elem_of_fmap.
  apply Hx. rewrite Hy. by apply list_elem_of_fmap_2.
Qed.

(** SELECT ... WHERE "index" BETWEEN lo AND hi ORDER BY "index", on a
    contiguous list. *)
Lemma select_range_contiguous key lo hi rows :
  contiguous key rows → 0 ≤ lo →
  lr_value <$> select_range key lo hi rows
  = take (Z.to_nat (hi - lo + 1)) (drop (Z.to_nat lo) (elements key rows)).
Proof.
  intros Hc Hlo. unfold select_range, elements.
  assert (filter (λ r, lr_key r = key ∧ lo ≤ lr_index r ≤ hi) rows
          = filter (λ r, lo ≤ lr_index r ≤ hi) (of_key key rows)) as ->.
  { unfold of_key. rewrite list_filter_filter. apply list_filter_iff.
    intros r. cbn. tauto. }
  rewrite (sorted_rows_unique _
    (filter (λ r, lo ≤ lr_index r ≤ hi) (merge_sort index_le (of_key key rows)))).
  - rewrite (filter_range lr_index _ 0).
    + rewrite fmap_take, fmap_drop. do 3 f_equal. lia.
    + rewrite sorted_indices by done. unfold count_list.
      by rewrite merge_sort_Permutation.
    + done.
  - by apply NoDup_fmap_filter, contiguous_NoDup.
  - apply StronglySorted_filter, StronglySorted_merge_sort; apply _.
  - by rewrite merge_sort_Permutation.
Qed.

(** X16.  On a list whose indices are contiguous, LRANGE answers the elements
    from position [start] to position [stop] of the list, both included and
    in list order, after it has counted negative positions from the end and
    clamped both to the list. *)
Theorem lrange_reads_the_positions key start stop c e :
  contiguous key (list_store (data c)) →
  let n := count_list key (list_store (data c)) in
  let first := Z.max 0 (if bool_decide (0 ≤ start) then start else n + start) in
  let last := Z.min (n - 1) (if bool_decide (0 ≤ stop) then stop else n + stop) in
  lrange key start stop (with_db (Some c) e)
  = (Ok (take (Z.to_nat (last - first + 1))
           (drop (Z.to_nat first) (elements key (list_store (data c))))),
     with_db (Some c) e).
Proof.
  intros Hc n first last. rewrite lrange_run. cbv zeta. f_equal. f_equal.
  fold n. fold first. fold last. case_bool_decide as Hempty.
  - replace (Z.to_nat (last - first + 1)) with 0%nat by lia. done.
  - apply select_range_contiguous; [done|]. unfold first. lia.
Qed.

Lemma lrange_reads_the_positions_witness :
  lrange "l" 0 (-1) (with_db (Some (Connection
    (Tables [] [] [ListRow "l" 1 "b" None; ListRow "l" 0 "a" None] []) None))
    (constructor None))
  = (Ok ["a"; "b"],
     with_db (Some (Connection
       (Tables [] [] [ListRow "l" 1 "b" None; ListRow "l" 0 "a" None] []) None))
       (constructor None)).
Proof.
  refine (lrange_reads_the_positions "l" 0 (-1) (Connection
    (Tables [] [] [ListRow "l" 1 "b" None; ListRow "l" 0 "a" None] []) None)
    (constructor None) _).
  unfold contiguous, contig. vm_compute. apply perm_swap.
Defined.

End Elements.

Section ElementsOfWrites.
Import Sql Engine Spec.

#[local] Existing Instance index_le_trans.
#[local] Existing Instance index_le_total.

Lemma contig_NoDup l : contig l → NoDup l.
Proof. unfold contig. intros ->. apply NoDup_seqZ. Qed.

(** The rows of a key in index order, given any sorted arrangement of them. *)
Lemma elements_sorted key rows sorted :
  NoDup (indices key rows) → StronglySorted index_le sorted →
  sorted ≡ₚ of_key key rows → elements key rows = lr_value <$> sorted.
Proof.
  intros Hnd Hsorted Hperm. unfold elements.
  by rewrite (sorted_rows_unique _ sorted).
Qed.

Lemma StronglySorted_seq a n : StronglySorted le (seq a n).
Proof.
  revert a. induction n as [|n IH]; intros a; cbn [seq]; constructor; [done|].
  apply Forall_forall. intros i Hi%elem_of_seq. lia.
Qed.

Lemma of_key_app {R} `{Keyed R} key (rows rows' : list R) :
  of_key key (rows ++ rows') = of_key key rows ++ of_key key rows'.
Proof. unfold of_key. by rewrite filter_app. Qed.

Lemma of_key_pushed_rows key values :
  of_key key (pushed_rows key values) = pushed_rows key values.
Proof.
  rewrite pushed_rows_seq. unfold of_key. apply filter_all.
  by intros r (i & -> & _)%list_elem_of_fmap.
Qed.

Lemma of_key_pushed_rows_ne key key' values :
  key' ≠ key → of_key key' (pushed_rows key values) = [].
Proof.
  intros Hne. rewrite pushed_rows_seq. unfold of_key. apply filter_none.
  intros r (i & -> & _)%list_elem_of_fmap. cbn. congruence.
Qed.

Lemma values_pushed_rows key values :
  lr_value <$> pushed_rows key values = reverse values.
Proof.
  unfold pushed_rows. rewrite fmap_imap.
  rewrite (imap_ext _ (const id)) by done. by rewrite imap_const, list_fmap_id.
Qed.

Lemma elements_after_lpush key values rows :
  contiguous key rows →
  elements key (after_lpush key values rows)
  = reverse values ++ elements key rows.
Proof.
  intros Hc. unfold after_lpush.
  set (sh := λ r, ListRow (lr_key r) (lr_index r + Z.of_nat (length values))
                    (lr_value r) (lr_expiry r)).
  rewrite (elements_sorted _ _
    (pushed_rows key values ++ (sh <$> merge_sort index_le (of_key key rows)))).
  - rewrite fmap_app, values_pushed_rows. f_equal. unfold elements.
    rewrite <- list_fmap_compose. by apply list_fmap_ext.
  - apply contig_NoDup. rewrite indices_app, indices_shift, indices_pushed_rows.
    by apply contig_push.
  - apply StronglySorted_app_2.
    + intros r1 r2 Hr1 (r & -> & Hr)%list_elem_of_fmap.
      rewrite pushed_rows_seq in Hr1.
      apply list_elem_of_fmap in Hr1 as (i & -> & Hi%elem_of_seq).
      rewrite merge_sort_Permutation in Hr.
      apply (list_elem_of_fmap_2 lr_index) in Hr.
      apply (contig_elem _ _ Hc) in Hr. unfold index_le. cbn. lia.
    + rewrite pushed_rows_seq.
      apply (StronglySorted_fmap _ le); [|apply StronglySorted_seq].
      intros i j Hij. unfold index_le. cbn. lia.
    + apply (StronglySorted_fmap _ index_le).
      * intros r1 r2. unfold index_le. cbn. lia.
      * apply StronglySorted_merge_sort; apply _.
  - rewrite of_key_app, of_key_shift, of_key_pushed_rows.
    rewrite merge_sort_Permutation. apply Permutation_app_comm.
Qed.

Lemma elements_after_lpush_ne key key' values rows :
  key' ≠ key → elements key' (after_lpush key values rows) = elements key' rows.
Proof.
  intros Hne. unfold elements, after_lpush.
  rewrite of_key_app, of_key_shift_ne, of_key_pushed_rows_ne by done.
  by rewrite app_nil_r.
Qed.

Lemma of_key_appended_rows key from values :
  of_key key (appended_rows key from values) = appended_rows key from values.
Proof.
  revert from. induction values as [|v values IH]; intros from; [done|].
  cbn [appended_rows]. unfold of_key. rewrite filter_cons, decide_True by done.
  f_equal. apply IH.
Qed.

Lemma of_key_appended_rows_ne key key' from values :
  key' ≠ key → of_key key' (appended_rows key from values) = [].
Proof.
  intros Hne. revert from. induction values as [|v values IH]; intros from;
    [done|].
  cbn [appended_rows]. unfold of_key.
  rewrite filter_cons, decide_False by (cbn; congruence). apply IH.
Qed.

Lemma values_appended_rows key from values :
  lr_value <$> appended_rows key from values = values.
Proof.
  revert from. induction values as [|v values IH]; intros from; [done|].
  cbn [appended_rows]. rewrite fmap_cons. f_equal. apply IH.
Qed.

Lemma index_appended_rows key from values r :
  r ∈ appended_rows key from values → from ≤ lr_index r.
Proof.
  revert from. induction values as [|v values IH]; intros from;
    [by intros ?%elem_of_nil|].
  cbn [appended_rows]. intros [->|Hr%IH]%elem_of_cons; [done|lia].
Qed.

Lemma StronglySorted_appended_rows key from values :
  StronglySorted index_le (appended_rows key from values).
Proof.
  revert from. induction values as [|v values IH]; intros from; [constructor|].
  cbn [appended_rows]. constructor; [apply IH|].
  apply Forall_forall. intros r Hr%index_appended_rows. unfold index_le. cbn. lia.
Qed.

Lemma elements_after_rpush key values rows :
  contiguous key rows →
  elements key (rows ++ appended_rows key (count_list key rows) values)
  = elements key rows ++ values.
Proof.
  intros Hc.
  rewrite (elements_sorted _ _
    (merge_sort index_le (of_key key rows)
     ++ appended_rows key (count_list key rows) values)).
  - by rewrite fmap_app, values_appended_rows.
  - apply contig_NoDup. rewrite indices_app, indices_appended_rows.
    rewrite count_list_indices. by apply contig_extend.
  - apply StronglySorted_app_2.
    + intros r1 r2 Hr1 Hr2%index_appended_rows.
      rewrite merge_sort_Permutation in Hr1.
      apply (list_elem_of_fmap_2 lr_index) in Hr1.
      apply (contig_elem _ _ Hc) in Hr1. rewrite count_list_indices in Hr2.
      unfold index_le. lia.
    + apply StronglySorted_merge_sort; apply _.
    + apply StronglySorted_appended_rows.
  - rewrite of_key_app, of_key_appended_rows. by rewrite merge_sort_Permutation.
Qed.

Lemma elements_after_rpush_ne key key' from values rows :
  key' ≠ key →
  elements key' (rows ++ appended_rows key from values) = elements key' rows.
Proof.
  intros Hne. unfold elements.
  rewrite of_key_app, of_key_appended_rows_ne by done. by rewrite app_nil_r.
Qed.

Lemma rpush_run key values now t s e :
  select_string key now (string_store t) = None →
  (inTransaction e = false → transactionMode e = false → s = None) →
  contiguous key (list_store t) →
  rpush key values now (with_db (Some (Connection t s)) e)
  = (Ok (count_list key (list_store t) + Z.of_nat (length values)),
     let t' := on_lists (λ rows,
       rows ++ appended_rows key (count_list key (list_store t)) values) t in
     if negb (inTransaction e) && negb (transactionMode e)
     then with_db (Some (Connection t' (Some t))) (with_inTransaction true e)
     else with_db (Some (Connection t' s)) e).
Proof.
  intros Hstring Htx Hc. unfold rpush.
  rewrite (bind_ok _ _ _ _ _ (requireDb_connected _ _)).
  unfold bind at 1. rewrite rejectString_connected. cbn [data]. rewrite Hstring.
  rewrite (bind_ok _ _ _ _ _ (query_connected _ _ _)). cbn [data].
  rewrite (bind_ok _ _ _ _ _ (standalone_connected _ _)).
  unfold bind at 1. rewrite begin_if_connected.
  assert (∀ i, i ∈ indices key (list_store t) → i < count_list key (list_store t))
    as Hbelow.
  { intros i Hi. apply (contig_elem _ _ Hc) in Hi.
    rewrite count_list_indices. lia. }
  destruct (negb (inTransaction e) && negb (transactionMode e)) eqn:Hown.
  - apply andb_prop in Hown as [Hin Hmode].
    apply negb_true_iff in Hin, Hmode. rewrite (Htx Hin Hmode).
    unfold try_catch. unfold bind at 1. rewrite rpush_loop by done.
    rewrite (bind_ok _ _ _ _ _ (standalone_connected _ _)).
    cbn [inTransaction with_inTransaction negb andb when]. reflexivity.
  - unfold try_catch. unfold bind at 1. rewrite rpush_loop by done.
    rewrite (bind_ok _ _ _ _ _ (standalone_connected _ _)). rewrite Hown.
    reflexivity.
Qed.

Lemma of_key_delete_index key i rows :
  of_key key (delete_index key i rows)
  = filter (λ r, lr_index r ≠ i) (of_key key rows).
Proof.
  unfold of_key, delete_index, list_pk. rewrite !list_filter_filter.
  apply list_filter_iff. intros r. cbn. split.
  - intros [Hk Hpk]. split; [|done]. intros Hi. by apply Hpk.
  - intros [Hi Hk]. split; [done|]. by intros [_ ?].
Qed.

Lemma of_key_delete_index_ne key key' i rows :
  key' ≠ key → of_key key' (delete_index key i rows) = of_key key' rows.
Proof.
  intros Hne. unfold of_key, delete_index, list_pk. rewrite list_filter_filter.
  apply list_filter_iff. intros r. cbn. split; [tauto|].
  intros Hk. split; [done|]. intros [Hk' _]. congruence.
Qed.

Lemma sorted_length key rows :
  Z.of_nat (length (merge_sort index_le (of_key key rows))) = count_list key rows.
Proof. unfold count_list. by rewrite merge_sort_Permutation. Qed.

Lemma sorted_index_range key rows r :
  contiguous key rows → r ∈ merge_sort index_le (of_key key rows) →
  0 ≤ lr_index r < count_list key rows.
Proof.
  intros Hc Hr. rewrite merge_sort_Permutation in Hr.
  apply (list_elem_of_fmap_2 lr_index) in Hr.
  apply (contig_elem _ _ Hc) in Hr. by rewrite count_list_indices.
Qed.

(** The DELETE of LPOP alone: the rest of the list, at the indices from 1. *)
Lemma elements_after_delete_head key rows :
  contiguous key rows →
  elements key (delete_index key 0 rows) = tail (elements key rows).
Proof.
  intros Hc.
  rewrite (elements_sorted _ _
    (filter (λ r, lr_index r ≠ 0) (merge_sort index_le (of_key key rows)))).
  - rewrite (filter_ext_in _
      (λ r, 1 ≤ lr_index r ≤ count_list key rows)).
    2:{ intros r Hr%(sorted_index_range _ _ _ Hc). lia. }
    rewrite (filter_range lr_index _ 0).
    + replace (Z.to_nat (1 - 0)) with 1%nat by lia.
      rewrite take_ge by (rewrite length_drop; pose proof (sorted_length key rows); lia).
      unfold elements. rewrite fmap_drop.
      by destruct (lr_value <$> merge_sort index_le (of_key key rows)).
    + by rewrite sorted_indices, sorted_length.
    + done.
  - rewrite indices_delete_index. by apply NoDup_filter, contig_NoDup.
  - apply StronglySorted_filter, StronglySorted_merge_sort; apply _.
  - rewrite of_key_delete_index. by rewrite merge_sort_Permutation.
Qed.

Lemma elements_after_lpop key rows :
  contiguous key rows →
  elements key (shifted (-1) key (delete_index key 0 rows))
  = tail (elements key rows).
Proof.
  intros Hc.
  set (sh := λ r, ListRow (lr_key r) (lr_index r + -1) (lr_value r) (lr_expiry r)).
  rewrite (elements_sorted _ _
    (sh <$> filter (λ r, lr_index r ≠ 0) (merge_sort index_le (of_key key rows)))).
  - rewrite <- list_fmap_compose.
    rewrite (list_fmap_ext (lr_value ∘ sh) lr_value) by done.
    rewrite (filter_ext_in _
      (λ r, 1 ≤ lr_index r ≤ count_list key rows)).
    2:{ intros r Hr%(sorted_index_range _ _ _ Hc). lia. }
    rewrite (filter_range lr_index _ 0).
    + replace (Z.to_nat (1 - 0)) with 1%nat by lia.
      rewrite take_ge by (rewrite length_drop; pose proof (sorted_length key rows); lia).
      unfold elements. rewrite fmap_drop.
      by destruct (lr_value <$> merge_sort index_le (of_key key rows)).
    + by rewrite sorted_indices, sorted_length.
    + done.
  - apply contig_NoDup. rewrite indices_shift, indices_delete_index.
    by apply contig_pop_head.
  - apply (StronglySorted_fmap _ index_le).
    + intros r1 r2. unfold index_le. cbn. lia.
    + apply StronglySorted_filter, StronglySorted_merge_sort; apply _.
  - rewrite of_key_shift, of_key_delete_index.
    by rewrite merge_sort_Permutation.
Qed.

Lemma elements_after_lpop_ne key key' rows :
  key' ≠ key →
  elements key' (shifted (-1) key (delete_index key 0 rows))
  = elements key' rows.
Proof.
  intros Hne. unfold elements.
  by rewrite of_key_shift_ne, of_key_delete_index_ne.
Qed.

Lemma select_head_elements key rows :
  lr_value <$> select_head key rows = head (elements key rows).
Proof.
  unfold select_head, elements.
  by destruct (merge_sort index_le (of_key key rows)).
Qed.

Lemma select_tail_in key rows row :
  select_tail key rows = Some row → row ∈ of_key key rows.
Proof.
  unfold select_tail. intros Hhead.
  rewrite <- (merge_sort_Permutation index_ge).
  destruct (merge_sort index_ge (of_key key rows)); [done|].
  injection Hhead as ->. left.
Qed.

Lemma select_tail_index key rows row :
  contiguous key rows → select_tail key rows = Some row →
  lr_index row = count_list key rows - 1.
Proof.
  intros Hc Htail. destruct (select_tail_max _ _ _ Htail) as [Hin Hmax].
  apply (contig_elem _ _ Hc) in Hin. rewrite count_list_indices.
  assert (Z.of_nat (length (indices key rows)) - 1 ∈ indices key rows) as Hlast
    by (apply (contig_elem _ _ Hc); lia).
  apply Hmax in Hlast. lia.
Qed.

Lemma last_sorted key rows row :
  contiguous key rows → select_tail key rows = Some row →
  last (merge_sort index_le (of_key key rows)) = Some row.
Proof.
  intros Hc Htail.
  pose proof (select_tail_index _ _ _ Hc Htail) as Hindex.
  pose proof (select_tail_in _ _ _ Htail) as Hin.
  pose proof (sorted_indices _ _ Hc) as Hsorted.
  assert (0 < count_list key rows) as Hpos.
  { unfold count_list. destruct (of_key key rows); [by apply elem_of_nil in Hin|].
    cbn [length]. lia. }
  destruct (last (merge_sort index_le (of_key key rows))) as [r|] eqn:Hlast.
  - f_equal. apply (same_index (of_key key rows)).
    + by apply contiguous_NoDup.
    + rewrite <- (merge_sort_Permutation index_le). by apply last_Some_elem_of.
    + done.
    + apply (f_equal (fmap lr_index)) in Hlast. rewrite <- fmap_last in Hlast.
      rewrite Hsorted in Hlast.
      replace (count_list key rows)
        with (Z.of_nat (S (Z.to_nat (count_list key rows - 1)))) in Hlast by lia.
      rewrite seqZ_S, last_snoc in Hlast. injection Hlast as <-. lia.
  - apply last_None in Hlast. pose proof (sorted_length key rows) as Hlen.
    rewrite Hlast in Hlen. cbn in Hlen. lia.
Qed.

Lemma elements_after_rpop key rows row :
  contiguous key rows → select_tail key rows = Some row →
  last (elements key rows) = Some (lr_value row)
  ∧ elements key (delete_index key (lr_index row) rows)
    = take (length (elements key rows) - 1) (elements key rows).
Proof.
  intros Hc Htail. split.
  { unfold elements. by rewrite fmap_last, (last_sorted _ _ row). }
  pose proof (select_tail_index _ _ _ Hc Htail) as Hindex.
  destruct (select_tail_max _ _ _ Htail) as [Hin Hmax].
  rewrite (elements_sorted _ _
    (filter (λ r, lr_index r ≠ lr_index row)
       (merge_sort index_le (of_key key rows)))).
  - rewrite (filter_ext_in _
      (λ r, 0 ≤ lr_index r ≤ count_list key rows - 2)).
    2:{ intros r Hr%(sorted_index_range _ _ _ Hc). lia. }
    rewrite (filter_range lr_index _ 0).
    + replace (Z.to_nat (0 - 0)) with 0%nat by lia. rewrite drop_0.
      unfold elements. rewrite fmap_take, length_fmap. f_equal.
      pose proof (sorted_length key rows). lia.
    + by rewrite sorted_indices, sorted_length.
    + done.
  - apply contig_NoDup. rewrite indices_delete_index.
    by apply contig_pop_tail.
  - apply StronglySorted_filter, StronglySorted_merge_sort; apply _.
  - rewrite of_key_delete_index. by rewrite merge_sort_Permutation.
Qed.

Lemma elements_after_rpop_ne key key' i rows :
  key' ≠ key → elements key' (delete_index key i rows) = elements key' rows.
Proof. intros Hne. unfold elements. by rewrite of_key_delete_index_ne. Qed.

End ElementsOfWrites.

Section ListRuns.
Import Sql Engine Spec.

(** LPOP: what it answers and leaves, by whether the UPDATE that follows its
    DELETE goes through.  When it does not, the catch block finds the flag
    set, or MULTI on, and runs no ROLLBACK: the DELETE stays. *)
Lemma lpop_run key t s e :
  (inTransaction e = false → transactionMode e = false → s = None) →
  lpop key (with_db (Some (Connection t s)) e)
  = match select_head key (list_store t) with
    | None => (Ok None, with_db (Some (Connection t s)) e)
    | Some row =>
        match shift_index (-1) key (delete_index key 0 (list_store t)) with
        | Some _ =>
            (Ok (Some (lr_value row)),
             let t' := on_lists (shifted (-1) key)
                         (on_lists (delete_index key 0) t) in
             if negb (inTransaction e) && negb (transactionMode e)
             then with_db (Some (Connection t' (Some t))) (with_inTransaction true e)
             else with_db (Some (Connection t' s)) e)
        | None =>
            (Throw CONSTRAINT,
             let t' := on_lists (delete_index key 0) t in
             if negb (inTransaction e) && negb (transactionMode e)
             then with_db (Some (Connection t' (Some t))) (with_inTransaction true e)
             else with_db (Some (Connection t' s)) e)
        end
    end.
Proof.
  intros Htx. unfold lpop.
  rewrite (bind_ok _ _ _ _ _ (requireDb_connected _ _)).
  rewrite (bind_ok _ _ _ _ _ (query_connected _ _ _)). cbn [data].
  destruct (select_head key (list_store t)) as [row|]; [|done].
  rewrite (bind_ok _ _ _ _ _ (standalone_connected _ _)).
  unfold bind at 1. rewrite begin_if_connected.
  destruct (negb (inTransaction e) && negb (transactionMode e)) eqn:Hown.
  - apply andb_prop in Hown as [Hin Hmode].
    apply negb_true_iff in Hin, Hmode. rewrite (Htx Hin Hmode).
    unfold try_catch.
    rewrite (bind_ok _ _ _ _ _ (run_connected _ _ _)).
    unfold bind at 1. rewrite run_checked_connected.
    cbn [fst snd data snapshot on_lists list_store].
    destruct (shift_index _ key _) as [shifted_rows|] eqn:Hshift;
      cbn [mbind option_bind].
    + apply shift_index_some in Hshift as ->.
      rewrite (bind_ok _ _ _ _ _ (standalone_connected _ _)).
      reflexivity.
    + rewrite (bind_ok _ _ _ _ _ (standalone_connected _ _)).
      reflexivity.
  - unfold try_catch.
    rewrite (bind_ok _ _ _ _ _ (run_connected _ _ _)).
    unfold bind at 1. rewrite run_checked_connected.
    cbn [fst snd data snapshot on_lists list_store].
    destruct (shift_index _ key _) as [shifted_rows|] eqn:Hshift;
      cbn [mbind option_bind].
    + apply shift_index_some in Hshift as ->.
      rewrite (bind_ok _ _ _ _ _ (standalone_connected _ _)). rewrite Hown.
      reflexivity.
    + rewrite (bind_ok _ _ _ _ _ (standalone_connected _ _)). rewrite Hown.
      reflexivity.
Qed.

Lemma rpop_run key arg t s e :
  (arg = false → s = None) →
  rpop key arg (with_db (Some (Connection t s)) e)
  = match select_tail key (list_store t) with
    | None => (Ok None, with_db (Some (Connection t s)) e)
    | Some row =>
        (Ok (Some (lr_value row)),
         let t' := on_lists (delete_index key (lr_index row)) t in
         if arg then with_db (Some (Connection t' s)) e
         else with_db (Some (Connection t' None)) (with_inTransaction false e))
    end.
Proof.
  intros Htx. unfold rpop.
  rewrite (bind_ok _ _ _ _ _ (requireDb_connected _ _)).
  rewrite (bind_ok _ _ _ _ _ (query_connected _ _ _)). cbn [data].
  destruct (select_tail key (list_store t)) as [row|]; [|done].
  unfold bind at 1. rewrite begin_if_connected.
  destruct arg; cbn [negb].
  - unfold try_catch. rewrite (bind_ok _ _ _ _ _ (run_connected _ _ _)).
    reflexivity.
  - rewrite (Htx eq_refl). unfold try_catch.
    rewrite (bind_ok _ _ _ _ _ (run_connected _ _ _)).
    reflexivity.
Qed.

Lemma rows_if (b : bool) (e1 e2 : engine) t :
  rows e1 = t → rows e2 = t → rows (if b then e1 else e2) = t.
Proof. by destruct b. Qed.

Lemma length_elements key rows :
  Z.of_nat (length (elements key rows)) = count_list key rows.
Proof. unfold elements. rewrite length_fmap. apply sorted_length. Qed.

Lemma shift_free_empty n key rows : indices key rows = [] → shift_free n key rows.
Proof.
  intros Hnil. apply shift_free_apart. rewrite Hnil. intros i j Hi.
  by apply elem_of_nil in Hi.
Qed.



(** X18.  RPUSH on a contiguous list puts its arguments behind the list, in
    their order, answers the new length and leaves every other list as it
    is. *)
Theorem rpush_appends_in_order key values now t s e :
  select_string key now (string_store t) = None →
  (inTransaction e = false → transactionMode e = false → s = None) →
  contiguous key (list_store t) →
  let r := rpush key values now (with_db (Some (Connection t s)) e) in
  r.1 = Ok (Z.of_nat (length (elements key (list_store t)) + length values))
  ∧ elements key (list_store (rows r.2))
    = elements key (list_store t) ++ values
  ∧ ∀ key', key' ≠ key →
      elements key' (list_store (rows r.2)) = elements key' (list_store t).
Proof.
  intros Hstring Htx Hc r.
  assert (r.1 = Ok (count_list key (list_store t) + Z.of_nat (length values))
          ∧ rows r.2 = on_lists (λ rows,
              rows ++ appended_rows key (count_list key (list_store t)) values) t)
    as [Hr1 Hr2].
  { subst r. rewrite rpush_run by done. split; [done|]. by apply rows_if. }
  rewrite Hr1, Hr2. cbn [on_lists list_store]. split; [|split].
  - f_equal. rewrite Nat2Z.inj_add, length_elements. done.
  - by apply elements_after_rpush.
  - intros key' Hne. by apply elements_after_rpush_ne.
Qed.

Lemma rpush_appends_in_order_witness :
  let r := rpush "l" ["a"; "b"] 0 connected in
  elements "l" (list_store (rows r.2)) = ["a"; "b"].
Proof.
  refine (proj1 (proj2 (rpush_appends_in_order "l" ["a"; "b"] 0 no_rows None
                          (with_db None connected) _ _ _))).
  - reflexivity.
  - reflexivity.
  - unfold contiguous, contig. reflexivity.
Defined.

(** X19.  LPOP on a contiguous list, when the UPDATE that follows its DELETE
    goes through, answers the first element and leaves the rest of the list,
    in order and contiguous; on an empty list it answers null.  The UPDATE
    goes through when no remaining row of the key is moved onto the index
    that a row with a higher rowid holds ([shift_free]): so on a list built
    by RPUSH alone, and on a list of at most two elements.  When it does not
    go through, as on a list of three elements built by LPUSH, LPOP rejects
    with the error of SQLite after its DELETE and nothing rolls the DELETE
    back: the first element is gone, and the rest of the list stays at the
    indices from 1, which is not contiguous.  Every other list stays as it
    is. *)
Theorem lpop_takes_the_first_element key t s e :
  (inTransaction e = false → transactionMode e = false → s = None) →
  contiguous key (list_store t) →
  let r := lpop key (with_db (Some (Connection t s)) e) in
  let list := elements key (list_store t) in
  (if decide (shift_free (-1) key (delete_index key 0 (list_store t))) then
     r.1 = Ok (head list)
     ∧ contiguous key (list_store (rows r.2))
   else
     r.1 = Throw CONSTRAINT
     ∧ indices key (list_store (rows r.2))
       = filter (λ i, i ≠ 0) (indices key (list_store t))
     ∧ ¬ contiguous key (list_store (rows r.2)))
  ∧ elements key (list_store (rows r.2)) = tail list
  ∧ ∀ key', key' ≠ key →
      elements key' (list_store (rows r.2)) = elements key' (list_store t).
Proof.
  intros Htx Hc r list. subst r list. rewrite lpop_run by done.
  rewrite shift_index_spec
    by (rewrite indices_delete_index; by apply NoDup_filter, contig_NoDup).
  rewrite <- select_head_elements.
  destruct (select_head key (list_store t)) as [row|] eqn:Hhead.
  - destruct (decide (shift_free _ _ _)) as [Hfree|Hfree].
    + cbn [fst snd fmap option_fmap option_map].
      rewrite (rows_if _ _ _ (on_lists (shifted (-1) key)
                                (on_lists (delete_index key 0) t))) by done.
      cbn [on_lists list_store]. split; [split; [done|]|split].
      * unfold contiguous. rewrite indices_shift, indices_delete_index.
        by apply contig_pop_head.
      * by apply elements_after_lpop.
      * intros key' Hne. by apply elements_after_lpop_ne.
    + cbn [fst snd fmap option_fmap option_map].
      rewrite (rows_if _ _ _ (on_lists (delete_index key 0) t)) by done.
      cbn [on_lists list_store]. split; [split; [done|split]|split].
      * apply indices_delete_index.
      * intros Hgap. apply Hfree.
        destruct (indices key (delete_index key 0 (list_store t))) as [|i l]
          eqn:Hrest; [by apply shift_free_empty|].
        exfalso.
        assert (0 ∈ indices key (delete_index key 0 (list_store t))) as Hzero.
        { apply (contig_elem _ _ Hgap). rewrite Hrest. cbn [length]. lia. }
        rewrite indices_delete_index in Hzero.
        apply list_elem_of_filter in Hzero as [Hzero _]. by apply Hzero.
      * by apply elements_after_delete_head.
      * intros key' Hne. by apply elements_after_rpop_ne.
  - assert (shift_free (-1) key (delete_index key 0 (list_store t))) as Hfree.
    { apply shift_free_empty. rewrite indices_delete_index.
      unfold indices, select_head in *.
      pose proof (merge_sort_Permutation index_le (of_key key (list_store t)))
        as Hperm.
      destruct (merge_sort index_le (of_key key (list_store t))); [|done].
      apply Permutation_nil in Hperm. by rewrite Hperm. }
    rewrite decide_True by done.
    cbn [fst snd rows db with_db data]. split; [by split|]. split; [|done].
    pose proof (select_head_elements key (list_store t)) as Hnone.
    rewrite Hhead in Hnone. cbn in Hnone.
    by destruct (elements key (list_store t)).
Qed.

Lemma lpop_takes_the_first_element_witness :
  (let t := Tables [] []
              [ListRow "l" 0 "a" None; ListRow "l" 1 "b" None;
               ListRow "l" 2 "c" None] [] in
   let r := lpop "l" (with_db (Some (Connection t None)) (constructor None)) in
   r.1 = Ok (Some "a") ∧ elements "l" (list_store (rows r.2)) = ["b"; "c"])
  ∧ (let t := Tables [] []
                [ListRow "l" 2 "c" None; ListRow "l" 1 "b" None;
                 ListRow "l" 0 "a" None] [] in
     let r := lpop "l" (with_db (Some (Connection t None)) (constructor None)) in
     r.1 = Throw CONSTRAINT
     ∧ indices "l" (list_store (rows r.2)) = [2; 1]
     ∧ elements "l" (list_store (rows r.2)) = ["b"; "c"]).
Proof.
  split.
  - intros t r.
    pose proof (lpop_takes_the_first_element "l" t None (constructor None)) as H.
    cbv zeta in H. rewrite decide_True in H by compute_done.
    refine (let H' := H _ _ in conj (proj1 (proj1 H')) (proj1 (proj2 H'))).
    + reflexivity.
    + unfold contiguous, contig. reflexivity.
  - intros t r.
    pose proof (lpop_takes_the_first_element "l" t None (constructor None)) as H.
    cbv zeta in H. rewrite decide_False in H by compute_done.
    refine (let H' := H _ _ in
            conj (proj1 (proj1 H'))
              (conj (proj1 (proj2 (proj1 H'))) (proj1 (proj2 H')))).
    + reflexivity.
    + unfold contiguous, contig. vm_compute.
      change (reverse [0; 1; 2] ≡ₚ [0; 1; 2]). apply reverse_Permutation.
Defined.

Lemma select_tail_none key rows :
  select_tail key rows = None → elements key rows = [].
Proof.
  unfold elements, select_tail. intros Htail.
  destruct (of_key key rows) as [|r l] eqn:Hrows; [done|].
  pose proof (merge_sort_Permutation index_ge (r :: l)) as Hperm.
  destruct (merge_sort index_ge (r :: l)); [|done].
  by apply Permutation_nil_cons in Hperm.
Qed.

(** X20.  RPOP, called while no transaction is open, answers the last element of
    a contiguous list and leaves the elements before it, in order; on an
    empty list it answers null.  Every other list stays as it is, and RPOP
    has committed: no transaction is open afterwards. *)
Theorem rpop_takes_the_last_element key t e :
  contiguous key (list_store t) →
  let r := rpop key false (with_db (Some (Connection t None)) e) in
  r.1 = Ok (last (elements key (list_store t)))
  ∧ elements key (list_store (rows r.2))
    = take (length (elements key (list_store t)) - 1)
           (elements key (list_store t))
  ∧ (∀ key', key' ≠ key →
       elements key' (list_store (rows r.2)) = elements key' (list_store t))
  ∧ ∃ t', db r.2 = Some (Connection t' None).
Proof.
  intros Hc r. subst r. rewrite rpop_run by done.
  destruct (select_tail key (list_store t)) as [row|] eqn:Htail.
  - destruct (elements_after_rpop _ _ _ Hc Htail) as [Hlast Hrest].
    cbn [fst snd rows db with_db data on_lists list_store].
    rewrite Hlast. split; [done|]. split; [done|]. split; [|by eexists].
    intros key' Hne. by apply elements_after_rpop_ne.
  - cbn [fst snd rows db with_db data].
    rewrite (select_tail_none _ _ Htail).
    split; [done|]. split; [done|]. split; [done|by eexists].
Qed.

Lemma rpop_takes_the_last_element_witness :
  (rpop "l" false (with_db (Some (Connection
     (Tables [] [] [ListRow "l" 1 "b" None; ListRow "l" 0 "a" None] []) None))
     (constructor None))).1 = Ok (Some "b").
Proof.
  refine (proj1 (rpop_takes_the_last_element "l"
    (Tables [] [] [ListRow "l" 1 "b" None; ListRow "l" 0 "a" None] [])
    (constructor None) _)).
  unfold contiguous, contig. vm_compute. apply perm_swap.
Defined.

Lemma lpush_wrongtype key values now row c e :
  select_string key now (string_store (data c)) = Some row →
  lpush key values now (with_db (Some c) e)
  = (Throw WRONGTYPE, with_db (Some c) e).
Proof.
  intros Hstring. unfold lpush.
  rewrite (bind_ok _ _ _ _ _ (requireDb_connected _ _)).
  unfold bind at 1. by rewrite rejectString_connected, Hstring.
Qed.

(** [rpoplpush] after its BEGIN, or inside a transaction that is open
    already: its guards are false.  The rows that RPOP leaves stay when LPUSH
    throws. *)
Lemma rpoplpush_body source destination now t s e :
  negb (inTransaction e) && negb (transactionMode e) = false →
  contiguous_tables t →
  try_catch
    (let* value := rpop source true in
     match value with
     | Some v =>
         let* _ := lpush destination [v] now in
         let* own := standalone in
         when own (COMMIT >> write (with_inTransaction false)) >>
         ret (Some v)
     | None =>
         let* own := standalone in
         when own (ROLLBACK >> write (with_inTransaction false)) >>
         ret None
     end)
    (λ error,
     let* own := standalone in
     when own (ROLLBACK >> write (with_inTransaction false)) >>
     throw error)
    (with_db (Some (Connection t s)) e)
  = match select_tail source (list_store t) with
    | None => (Ok None, with_db (Some (Connection t s)) e)
    | Some row =>
        let t1 := on_lists (delete_index source (lr_index row)) t in
        match select_string destination now (string_store t) with
        | Some _ => (Throw WRONGTYPE, with_db (Some (Connection t1 s)) e)
        | None =>
            if decide (shift_free 1 destination (list_store t1)) then
              (Ok (Some (lr_value row)),
               with_db (Some (Connection
                 (on_lists (after_lpush destination [lr_value row]) t1) s)) e)
            else (Throw CONSTRAINT, with_db (Some (Connection t1 s)) e)
        end
    end.
Proof.
  intros Hown Ht. unfold try_catch. unfold bind at 1.
  rewrite rpop_run by done.
  destruct (select_tail source (list_store t)) as [row|] eqn:Htail.
  - cbv zeta.
    destruct (select_string destination now (string_store t)) as [srow|]
      eqn:Hstring.
    + unfold bind at 1. rewrite (lpush_wrongtype _ _ _ srow) by done.
      rewrite (bind_ok _ _ _ _ _ (standalone_connected _ _)). by rewrite Hown.
    + pose proof (contiguous_after_rpop _ _ _ Ht Htail) as Ht1.
      unfold bind at 1. rewrite lpush_run_free.
      * rewrite Hown. cbn [length]. change (Z.of_nat 1) with 1.
        case_decide.
        -- rewrite (bind_ok _ _ _ _ _ (standalone_connected _ _)).
           by rewrite Hown.
        -- rewrite (bind_ok _ _ _ _ _ (standalone_connected _ _)).
           by rewrite Hown.
      * done.
      * intros Hin Hmode. by rewrite Hin, Hmode in Hown.
      * intros i. by apply contiguous_nonneg.
      * apply contig_NoDup, Ht1.
  - rewrite (bind_ok _ _ _ _ _ (standalone_connected _ _)). by rewrite Hown.
Qed.

Lemma rpoplpush_run source destination now t s e :
  (inTransaction e = false → transactionMode e = false → s = None) →
  contiguous_tables t →
  ∃ s' e',
    rpoplpush source destination now (with_db (Some (Connection t s)) e)
      = match select_tail source (list_store t) with
        | None => (Ok None, with_db (Some (Connection t s')) e')
        | Some row =>
            let t1 := on_lists (delete_index source (lr_index row)) t in
            match select_string destination now (string_store t) with
            | Some _ => (Throw WRONGTYPE, with_db (Some (Connection t1 s')) e')
            | None =>
                if decide (shift_free 1 destination (list_store t1)) then
                  (Ok (Some (lr_value row)),
                   with_db (Some (Connection
                     (on_lists (after_lpush destination [lr_value row]) t1) s')) e')
                else (Throw CONSTRAINT, with_db (Some (Connection t1 s')) e')
            end
        end.
Proof.
  intros Htx Ht. unfold rpoplpush.
  rewrite (bind_ok _ _ _ _ _ (requireDb_connected _ _)).
  rewrite (bind_ok _ _ _ _ _ (standalone_connected _ _)).
  unfold bind at 1. rewrite begin_if_connected.
  destruct (negb (inTransaction e) && negb (transactionMode e)) eqn:Hown.
  - apply andb_prop in Hown as [Hin Hmode].
    apply negb_true_iff in Hin, Hmode. rewrite (Htx Hin Hmode).
    exists (Some t), (with_inTransaction true e). by apply rpoplpush_body.
  - exists s, e. by apply rpoplpush_body.
Qed.

(** X21.  RPOPLPUSH on contiguous lists, when no live string is stored under
    the destination and the UPDATE of its LPUSH goes through, answers the
    last element of the source list, removes it there and puts it in front of
    the destination list; with the source as destination it rotates the
    list.  On an empty source it answers null and moves nothing.  The UPDATE
    goes through when, after the removal, no row of the destination is moved
    onto the index that a row with a higher rowid holds ([shift_free]): so on
    a destination that is empty or holds one element, or was built by LPUSH
    alone.  When it does not go through, as with the source as destination on
    a list of three elements built by RPUSH, RPOPLPUSH rejects with the error
    of SQLite after the removal and nothing rolls the removal back: the
    element is gone from the source and was put nowhere.  The lists of all
    other keys stay as they are. *)
Theorem rpoplpush_moves_the_last_element source destination now t s e :
  (inTransaction e = false → transactionMode e = false → s = None) →
  contiguous_tables t →
  select_string destination now (string_store t) = None →
  let r := rpoplpush source destination now
             (with_db (Some (Connection t s)) e) in
  let src := elements source (list_store t) in
  let moved := option_list (last src) in
  let removed := delete_index source (Z.of_nat (length src) - 1) (list_store t) in
  if decide (src = [] ∨ shift_free 1 destination removed) then
    r.1 = Ok (last src)
    ∧ (destination ≠ source →
         elements source (list_store (rows r.2)) = take (length src - 1) src
         ∧ elements destination (list_store (rows r.2))
           = moved ++ elements destination (list_store t))
    ∧ (destination = source →
         elements source (list_store (rows r.2))
         = moved ++ take (length src - 1) src)
    ∧ ∀ key', key' ≠ source → key' ≠ destination →
        elements key' (list_store (rows r.2)) = elements key' (list_store t)
  else
    r.1 = Throw CONSTRAINT
    ∧ elements source (list_store (rows r.2)) = take (length src - 1) src
    ∧ ∀ key', key' ≠ source →
        elements key' (list_store (rows r.2)) = elements key' (list_store t).
Proof.
  intros Htx Ht Hstring r src moved removed. subst r src moved removed.
  destruct (rpoplpush_run source destination now t s e Htx Ht)
    as (s' & e' & ->).
  rewrite Hstring.
  destruct (select_tail source (list_store t)) as [row|] eqn:Htail.
  - destruct (elements_after_rpop _ _ _ (Ht source) Htail) as [Hlast Hrest].
    pose proof (select_tail_index _ _ _ (Ht source) Htail) as Hindex.
    rewrite <- length_elements in Hindex. rewrite <- Hindex.
    cbv zeta. cbn [on_lists list_store].
    pose proof (contiguous_after_rpop _ _ _ Ht Htail) as Ht1.
    assert (elements source (list_store t) ≠ []) as Hsrc.
    { intros Hnil. by rewrite Hnil in Hlast. }
    destruct (decide (shift_free 1 destination
                (delete_index source (lr_index row) (list_store t))))
      as [Hfree|Hfree].
    + rewrite decide_True by (by right).
      cbn [fst snd rows db with_db data on_lists list_store].
      rewrite Hlast. cbn [option_list].
      split; [done|]. split; [|split].
      * intros Hne. split.
        -- by rewrite elements_after_lpush_ne.
        -- rewrite elements_after_lpush by apply (Ht1 destination).
           cbn [on_lists list_store]. by rewrite elements_after_rpop_ne.
      * intros ->. rewrite elements_after_lpush by apply (Ht1 source).
        cbn [on_lists list_store]. by rewrite Hrest.
      * intros key' Hsrc' Hdst.
        by rewrite elements_after_lpush_ne, elements_after_rpop_ne.
    + rewrite decide_False by (intros [?|?]; done).
      cbn [fst snd rows db with_db data on_lists list_store].
      split; [done|]. split; [done|].
      intros key' Hne. by apply elements_after_rpop_ne.
  - rewrite decide_True by (left; by apply select_tail_none).
    cbn [fst snd rows db with_db data]. rewrite (select_tail_none _ _ Htail).
    cbn [last option_list length take app]. repeat split; done.
Qed.

Lemma rpoplpush_moves_the_last_element_witness :
  (let t := Tables [] []
              [ListRow "a" 0 "x" None; ListRow "a" 1 "y" None;
               ListRow "b" 0 "z" None] [] in
   let r := rpoplpush "a" "b" 0
              (with_db (Some (Connection t None)) (constructor None)) in
   r.1 = Ok (Some "y")
   ∧ elements "a" (list_store (rows r.2)) = ["x"]
   ∧ elements "b" (list_store (rows r.2)) = ["y"; "z"])
  ∧ (let t := Tables [] []
                [ListRow "a" 0 "x" None; ListRow "a" 1 "y" None;
                 ListRow "a" 2 "z" None] [] in
     let r := rpoplpush "a" "a" 0
                (with_db (Some (Connection t None)) (constructor None)) in
     r.1 = Throw CONSTRAINT
     ∧ elements "a" (list_store (rows r.2)) = ["x"; "y"]).
Proof.
  split.
  - intros t r.
    pose proof (rpoplpush_moves_the_last_element "a" "b" 0 t None
                  (constructor None)) as H.
    cbv zeta in H. rewrite decide_True in H by compute_done.
    assert (contiguous_tables t) as Ht.
    { intros key. unfold contiguous, contig, indices, of_key.
      cbn [list_store t]. rewrite !filter_cons, filter_nil. simpl row_key.
      destruct (decide ("a" = key)), (decide ("b" = key));
        try congruence; reflexivity. }
    assert ("b" ≠ "a") as Hne by discriminate.
    exact (let H' := H (λ _ _, eq_refl) Ht eq_refl in
           conj (proj1 H') (proj1 (proj2 H') Hne)).
  - intros t r.
    pose proof (rpoplpush_moves_the_last_element "a" "a" 0 t None
                  (constructor None)) as H.
    cbv zeta in H. rewrite decide_False in H by compute_done.
    assert (contiguous_tables t) as Ht.
    { intros key. unfold contiguous, contig, indices, of_key.
      cbn [list_store t]. rewrite !filter_cons, filter_nil. simpl row_key.
      destruct (decide ("a" = key)); reflexivity. }
    exact (let H' := H (λ _ _, eq_refl) Ht eq_refl in
           conj (proj1 H') (proj1 (proj2 H'))).
Defined.

(** X22.  RPOPLPUSH onto a destination that holds a live string rejects with
    WRONGTYPE only after it has removed the last element from the source
    list, and it does not roll back: the element is gone from the source
    and was put nowhere. *)
Theorem rpoplpush_wrong_type_loses_the_element source destination now t s e row :
  (inTransaction e = false → transactionMode e = false → s = None) →
  contiguous_tables t →
  select_string destination now (string_store t) = Some row →
  elements source (list_store t) ≠ [] →
  let r := rpoplpush source destination now
             (with_db (Some (Connection t s)) e) in
  let src := elements source (list_store t) in
  r.1 = Throw WRONGTYPE
  ∧ elements source (list_store (rows r.2)) = take (length src - 1) src
  ∧ ∀ key', key' ≠ source →
      elements key' (list_store (rows r.2)) = elements key' (list_store t).
Proof.
  intros Htx Ht Hstring Hsrc r src. subst r src.
  destruct (rpoplpush_run source destination now t s e Htx Ht)
    as (s' & e' & ->).
  rewrite Hstring.
  destruct (select_tail source (list_store t)) as [tail_row|] eqn:Htail.
  - destruct (elements_after_rpop _ _ _ (Ht source) Htail) as [Hlast Hrest].
    cbv zeta. cbn [fst snd rows db with_db data on_lists list_store].
    split; [done|]. split; [done|].
    intros key' Hne. by apply elements_after_rpop_ne.
  - by apply select_tail_none in Htail.
Qed.

Lemma rpoplpush_wrong_type_loses_the_element_witness :
  let r := rpoplpush "a" "s" 0 (with_db (Some (Connection
     (Tables [StringRow "s" "v" None] []
             [ListRow "a" 0 "x" None; ListRow "a" 1 "y" None] []) None))
     (constructor None)) in
  r.1 = Throw WRONGTYPE ∧ elements "a" (list_store (rows r.2)) = ["x"].
Proof.
  pose proof (rpoplpush_wrong_type_loses_the_element "a" "s" 0
    (Tables [StringRow "s" "v" None] []
            [ListRow "a" 0 "x" None; ListRow "a" 1 "y" None] []) None
    (constructor None) (StringRow "s" "v" None)) as H.
  refine (let H' := H _ _ _ _ in conj (proj1 H') (proj1 (proj2 H'))).
  - reflexivity.
  - intros key. unfold contiguous, contig, indices, of_key.
    cbn [list_store]. rewrite !filter_cons, filter_nil. simpl row_key.
    destruct (decide ("a" = key)); reflexivity.
  - reflexivity.
  - vm_compute. discriminate.
Defined.

End ListRuns.

Section ContiguityOfRequests.
Import Sql Engine Spec.

Lemma lists_ok_write_other f :
  (∀ e, db (f e) = db e) → keeps lists_ok (write f).
Proof.
  intros Hf. apply keeps_write. intros e (c & Hdb & Hc). exists c.
  by rewrite Hf.
Qed.

Lemma lists_ok_fresh : keeps lists_ok fresh.
Proof. apply keeps_intro. by intros e (c & Hdb & Hc); exists c. Qed.

Lemma lists_ok_resolve p value : keeps lists_ok (resolve p value).
Proof. apply lists_ok_write_other. intros e. by destruct (settled e !! p). Qed.

Lemma brpoplpush_lists_ok source destination timeout_sec now :
  keeps lists_ok (brpoplpush source destination timeout_sec now).
Proof.
  unfold brpoplpush, addBlockingOperation.
  keeps_by ltac:(first [ apply rpoplpush_lists_ok | apply lists_ok_fresh
                       | by apply lists_ok_write_other ]).
Qed.

Lemma onTimeout_lists_ok timeoutId : keeps lists_ok (onTimeout timeoutId).
Proof.
  intros e He. unfold onTimeout. destruct (timeouts e !! timeoutId) as [tm|];
    [|done].
  assert (keeps lists_ok
    (write (with_timeouts (delete timeoutId (timeouts e))) >>
     removeBlockingOperation (tm_source tm) (PromiseResolve (tm_promise tm)) >>
     resolve (tm_promise tm) None)) as Hkeeps; [|exact (Hkeeps e He)].
  unfold removeBlockingOperation.
  keeps_by ltac:(first [ apply lists_ok_resolve | by apply lists_ok_write_other ]).
Qed.

(** *** The queue of MULTI

    No method but multi, addCommand and exec writes the queue. *)

Lemma queue_on_db {A} q (call : connection → outcome A * connection) :
  keeps (λ e, transactionCommands e = q) (on_db call).
Proof. by apply frame_on_db. Qed.

Lemma queue_call q cmd now : keeps (λ e, transactionCommands e = q) (call cmd now).
Proof. by apply frame_call. Qed.

Lemma queue_write_other q f :
  (∀ e, transactionCommands (f e) = transactionCommands e) →
  keeps (λ e, transactionCommands e = q) (write f).
Proof. intros Hf. apply keeps_write. intros e He. by rewrite Hf. Qed.

Lemma queue_resolve q p value :
  keeps (λ e, transactionCommands e = q) (resolve p value).
Proof. apply queue_write_other. intros e. by destruct (settled e !! p). Qed.

Lemma queue_brpoplpush q source destination timeout_sec now :
  keeps (λ e, transactionCommands e = q)
    (brpoplpush source destination timeout_sec now).
Proof. apply frame_brpoplpush; try done. by intros key r e He. Qed.

Lemma queue_onTimeout q timeoutId :
  keeps (λ e, transactionCommands e = q) (onTimeout timeoutId).
Proof.
  intros e He. unfold onTimeout. destruct (timeouts e !! timeoutId) as [tm|];
    [|done].
  assert (keeps (λ e, transactionCommands e = q)
    (write (with_timeouts (delete timeoutId (timeouts e))) >>
     removeBlockingOperation (tm_source tm) (PromiseResolve (tm_promise tm)) >>
     resolve (tm_promise tm) None)) as Hkeeps; [|exact (Hkeeps e He)].
  unfold removeBlockingOperation.
  keeps_by ltac:(first [ apply queue_resolve | by apply queue_write_other ]).
Qed.

(** A method that keeps the lists contiguous and leaves the queue alone keeps
    [quiet]. *)
Lemma quiet_of {A} (m : M A) :
  keeps lists_ok m → (∀ q, keeps (λ e, transactionCommands e = q) m) →
  keeps quiet m.
Proof.
  intros Hlists Hqueue e [He Hq].
  specialize (Hlists e He). specialize (Hqueue (transactionCommands e) e eq_refl).
  destruct (m e) as [[a|msg] e']; cbn in *; (split; [done|by rewrite Hqueue]).
Qed.

Lemma quiet_on_db {A} (call : connection → outcome A * connection) :
  (∀ c, connection_ok c → connection_ok (call c).2) →
  keeps quiet (on_db call).
Proof.
  intros Hcall. apply quiet_of; [by apply lists_ok_on_db|].
  intros q. apply queue_on_db.
Qed.

Lemma quiet_flag b : keeps quiet (write (with_inTransaction b)).
Proof.
  apply quiet_of; [|intros q; by apply queue_write_other].
  apply keeps_write. intros e. apply lists_ok_inTransaction.
Qed.

Lemma quiet_mode b : keeps quiet (write (with_transactionMode b)).
Proof.
  apply quiet_of; [|intros q; by apply queue_write_other].
  apply keeps_write. intros e. apply lists_ok_transactionMode.
Qed.

Lemma quiet_emptied : keeps quiet (write (with_transactionCommands [])).
Proof.
  apply keeps_write. intros e [He _]. split; [|constructor].
  by apply lists_ok_transactionCommands.
Qed.

Lemma quiet_begin : keeps quiet BEGIN_TRANSACTION.
Proof. apply quiet_of; [apply lists_ok_begin|intros q; apply queue_on_db]. Qed.

Lemma quiet_commit : keeps quiet COMMIT.
Proof. apply quiet_of; [apply lists_ok_commit|intros q; apply queue_on_db]. Qed.

Lemma quiet_rollback : keeps quiet ROLLBACK.
Proof. apply quiet_of; [apply lists_ok_rollback|intros q; apply queue_on_db]. Qed.

Lemma quiet_rejectString key now : keeps quiet (rejectString key now).
Proof.
  unfold rejectString.
  keeps_by ltac:(apply quiet_of; [apply lists_ok_query|intros q; apply queue_on_db]).
Qed.

Lemma quiet_call cmd now : is_lpop cmd = false → keeps quiet (call cmd now).
Proof.
  intros Hcmd. apply quiet_of; [by apply call_lists_ok|].
  intros q. apply queue_call.
Qed.

(** EXEC of a queue without LPOP. *)
Lemma quiet_exec now : keeps quiet (exec now).
Proof.
  pose proof quiet_begin. pose proof quiet_commit. pose proof quiet_rollback.
  pose proof quiet_flag. pose proof quiet_mode. pose proof quiet_emptied.
  unfold exec.
  apply keeps_bind; [apply keeps_requireDb|intros _].
  apply keeps_bind; [apply keeps_read|intros mode].
  destruct mode; cbn [negb]; [|apply keeps_throw].
  apply keeps_try_catch; [|intros msg; keeps_by ltac:(eauto)].
  apply keeps_bind; [apply keeps_read|intros active].
  apply keeps_bind; [keeps_by ltac:(eauto)|intros _].
  eapply hoare_bind; [apply hoare_read|]. intros commands. cbn beta.
  apply hoare_conseq with
    (P := λ e, quiet e ∧ Forall (λ cmd, is_lpop cmd = false) commands)
    (Q := λ _, quiet) (E := quiet);
    [|intros e [He ->]; split; [done|apply He]|done..].
  apply hoare_pure. intros Hcommands. rewrite Forall_forall in Hcommands.
  apply keeps_bind; [|intros results; keeps_by ltac:(eauto)].
  apply (hoare_for_of (λ _, quiet)). intros results cmd Hcmd.
  apply keeps_try_catch; [|intros msg; apply keeps_ret].
  apply keeps_bind.
  - destruct (hash_command_key cmd); [apply quiet_rejectString|apply keeps_ret].
  - intros _. apply keeps_bind; [|intros r; apply keeps_ret].
    by apply quiet_call, Hcommands.
Qed.

Lemma quiet_multi : keeps quiet multi.
Proof.
  apply keeps_write. intros e [He _]. split; [|constructor].
  by apply lists_ok_transactionCommands, lists_ok_transactionMode.
Qed.

Lemma quiet_addCommand cmd : is_lpop cmd = false → keeps quiet (addCommand cmd).
Proof.
  intros Hcmd. apply keeps_intro. intros e [He Hq]. unfold addCommand.
  destruct (transactionMode e); [|done]. split.
  - by apply lists_ok_transactionCommands.
  - cbn. apply Forall_app. split; [done|by constructor].
Qed.

Lemma quiet_batch cmds now :
  Forall (λ cmd, is_lpop cmd = false) cmds → keeps quiet (batch cmds now).
Proof.
  intros Hcmds. rewrite Forall_forall in Hcmds. unfold batch.
  apply keeps_bind; [apply quiet_multi|intros _].
  apply keeps_bind; [|intros _; apply quiet_exec].
  apply (hoare_for_of (λ _, quiet)). intros [] cmd Hcmd.
  by apply quiet_addCommand, Hcmds.
Qed.

Lemma quiet_serve rq now e :
  rq ≠ Close → lpops (Calls rq now) = false → quiet e → quiet (serve rq now e).2.
Proof.
  intros Hrq Hlpop. apply keeps_elim. destruct rq; cbn [serve]; [..|done].
  - apply keeps_bind; [by apply quiet_call|intros ?; apply keeps_ret].
  - apply keeps_bind; [|intros ?; apply keeps_ret].
    apply quiet_of; [apply brpoplpush_lists_ok|intros q; apply queue_brpoplpush].
  - apply keeps_bind; [apply quiet_multi|intros ?; apply keeps_ret].
  - apply keeps_bind; [by apply quiet_addCommand|intros ?; apply keeps_ret].
  - apply keeps_bind; [apply quiet_exec|intros ?; apply keeps_ret].
Qed.

Lemma connected_quiet : quiet connected.
Proof. split; [apply connected_lists_ok|constructor]. Qed.

(** X23.  LPOP apart, every method call other than close, and every timeout
    of a blocking call, keeps the indices of every list contiguous: all other
    commands, whether they are list commands or not, MULTI, BRPOPLPUSH, and
    EXEC of a queue that holds no LPOP.  LPUSH and RPOPLPUSH keep them
    contiguous even when their UPDATE fails, because the failed statement
    changes no row.  LPOP is left out because its DELETE stays when its
    UPDATE fails, and the ticks of the expiry checker because they delete
    rows by their expiry. *)
Theorem requests_keep_the_lists_contiguous evs e :
  Forall (λ ev, closes ev = false ∧ reaps ev = false ∧ lpops ev = false) evs →
  quiet e →
  quiet (run_events evs e)
  ∧ ∀ key, contiguous key (list_store (rows (run_events evs e))).
Proof.
  intros Hevs He.
  assert (quiet (run_events evs e)) as Hok.
  { revert e He.
    induction Hevs as [|ev evs (Hclose & Hreap & Hlpop) _ IH]; intros e He;
      [done|].
    cbn [run_events]. apply IH.
    destruct ev as [rq now|timeoutId|id now]; cbn [step]; [| |done].
    - apply quiet_serve; [|done|done]. by intros ->.
    - apply keeps_elim; [|done].
      apply quiet_of; [apply onTimeout_lists_ok|intros q; apply queue_onTimeout]. }
  split; [done|]. intros key. apply lists_ok_contiguous, Hok.
Qed.

Lemma requests_keep_the_lists_contiguous_witness :
  contiguous "l"
    (list_store (rows (run_events
       [Calls (Command (RPUSH "l" ["a"; "b"; "c"])) 0;
        Calls (Command (LPUSH "l" ["z"])) 1;
        Calls (Brpoplpush "l" "l" 1) 2;
        Calls Multi 3;
        Calls (AddCommand (RPOP "l")) 3;
        Calls Exec 4;
        Calls (Command (DEL ["m"])) 5] connected))).
Proof.
  refine (proj2 (requests_keep_the_lists_contiguous
    [Calls (Command (RPUSH "l" ["a"; "b"; "c"])) 0;
     Calls (Command (LPUSH "l" ["z"])) 1;
     Calls (Brpoplpush "l" "l" 1) 2;
     Calls Multi 3;
     Calls (AddCommand (RPOP "l")) 3;
     Calls Exec 4;
     Calls (Command (DEL ["m"])) 5] connected _ _) "l").
  - repeat constructor.
  - split; [|constructor].
    exists (Connection no_rows None). split; [reflexivity|]. split.
    + intros key. apply contig_nil.
    + intros t H. discriminate H.
Defined.

Lemma gap_not_contig : ¬ contig [2; 1].
Proof.
  unfold contig. cbn. intros Hperm.
  assert (2 ∈ [0; 1]) as Hin by (rewrite <- Hperm; left).
  apply elem_of_cons in Hin as [?|Hin]; [done|].
  by apply list_elem_of_singleton in Hin.
Qed.

Lemma quiet_list_run s e :
  pops_head s = false → quiet e → quiet (list_run s e).
Proof.
  intros Hs He. destruct s as [op now|ops now]; cbn [list_run pops_head] in *.
  - by apply keeps_elim; [apply quiet_call|].
  - apply keeps_elim; [|done]. apply quiet_batch.
    apply Forall_fmap, Forall_forall. intros op Hop. cbn.
    destruct (is_lpop (list_command op)) eqn:Hlpop; [|done].
    assert (existsb (λ op, is_lpop (list_command op)) ops = true) as Hex.
    { apply existsb_exists. exists op. split; [|done].
      by apply list_elem_of_In. }
    by rewrite Hex in Hs.
Qed.

Lemma quiet_list_trace steps e :
  Forall (λ s, pops_head s = false) steps → quiet e →
  Forall quiet (list_trace steps e).
Proof.
  intros Hsteps. revert e. induction Hsteps as [|s steps Hs _ IH]; intros e He;
    [constructor|].
  cbn [list_trace]. constructor.
  - by apply quiet_list_run.
  - by apply IH, quiet_list_run.
Qed.

(** C4.  Contiguity is not an invariant of the list operations: LPOP can
    leave a gap.  Its DELETE of index 0 is followed by the UPDATE that moves
    the other indices down by one, which SQLite checks against PRIMARY KEY
    (key, "index") row by row, in the order of the rowids.  On a list built
    by LPUSH a, LPUSH b, LPUSH c the rows are in descending order of index:
    the row of a would take index 1, which the row of b holds, so the UPDATE
    throws.  The catch block finds [inTransaction] set, or MULTI on, and
    runs no ROLLBACK: the DELETE stays, LPOP rejects, and the stored indices
    are 2 and 1.  This is so for the four operations called directly, and
    for the four queued between MULTI and EXEC, where EXEC answers the error
    in the slot of LPOP and commits the gap.

    What holds: after every step of every sequence of LPUSH, RPUSH, RPOP and
    LRANGE, called directly or queued between MULTI and EXEC, from an engine
    on an empty database, the stored indices of every key are 0 .. len-1 in
    some order. *)
Theorem lpop_can_leave_a_gap :
  (∀ steps key,
     Forall (λ s, pops_head s = false) steps →
     Forall (λ e,
       indices key (list_store (rows e))
       ≡ₚ seqZ 0 (Z.of_nat (length (indices key (list_store (rows e))))))
       (list_trace steps connected))
  ∧ (let steps := (λ op, Direct op 0) <$> three_pushes_and_a_pop "l" in
     (λ e, (λ r, (lr_index r, lr_value r)) <$> list_store (rows e))
       <$> list_trace steps connected
     = [[(0, "a")];
        [(1, "a"); (0, "b")];
        [(2, "a"); (1, "b"); (0, "c")];
        [(2, "a"); (1, "b")]]
     ∧ (direct (list_command <$> three_pushes_and_a_pop "l") 0 connected).1
       = Ok [Ok (Int 1); Ok (Int 2); Ok (Int 3); Throw CONSTRAINT])
  ∧ (let r := batch (list_command <$> three_pushes_and_a_pop "l") 0 connected in
     r.1 = Ok [Ok (Int 1); Ok (Int 2); Ok (Int 3); Throw CONSTRAINT]
     ∧ db r.2
       = Some (Connection
           (Tables [] [] [ListRow "l" 2 "a" None; ListRow "l" 1 "b" None] [])
           None)
     ∧ indices "l" (list_store (rows r.2)) = [2; 1])
  ∧ ¬ (∀ steps key,
         Forall (λ e,
           indices key (list_store (rows e))
           ≡ₚ seqZ 0 (Z.of_nat (length (indices key (list_store (rows e))))))
           (list_trace steps connected)).
Proof.
  split; [|split; [|split]].
  - intros steps key Hsteps.
    eapply Forall_impl; [by apply quiet_list_trace, connected_quiet|].
    intros e [He _]. by apply lists_ok_contiguous.
  - split; reflexivity.
  - split; [|split]; reflexivity.
  - intros Hall.
    specialize (Hall [Batch (three_pushes_and_a_pop "l") 0] "l").
    apply Forall_cons in Hall as [Hgap _]. by apply gap_not_contig.
Qed.

Lemma lpop_can_leave_a_gap_witness :
  Forall (λ e, contiguous "l" (list_store (rows e)))
    (list_trace [Batch [Rpush "l" ["a"; "b"; "c"]; Lpush "l" ["z"]] 0;
                 Direct (Rpop "l") 1; Direct (Lpush "l" ["y"]) 2] connected).
Proof.
  apply (proj1 lpop_can_leave_a_gap
    [Batch [Rpush "l" ["a"; "b"; "c"]; Lpush "l" ["z"]] 0;
     Direct (Rpop "l") 1; Direct (Lpush "l" ["y"]) 2] "l").
  repeat constructor.
Defined.

Lemma delete_elapsed_appended_rows now key from values :
  delete_elapsed now (appended_rows key from values)
  = appended_rows key from values.
Proof.
  unfold delete_elapsed. apply filter_all.
  revert from. induction values as [|v values IH]; intros from r;
    [by intros ?%elem_of_nil|].
  cbn [appended_rows]. intros [->|Hr]%elem_of_cons; [by intros []|].
  by apply (IH (from + 1)).
Qed.

Lemma indices_delete_elapsed_all now key rows :
  (∀ row, row ∈ of_key key rows → is_elapsed now (lr_expiry row) = true) →
  indices key (delete_elapsed now rows) = [].
Proof.
  intros Hall. unfold indices, of_key, delete_elapsed.
  rewrite filter_none; [done|].
  intros r [Hlive Hr]%list_elem_of_filter Hk. apply Hlive.
  apply Is_true_true, Hall. by apply list_elem_of_filter.
Qed.

(** X24.  The rows RPUSH adds have no expiry, also when the rows of the list
    have one.  When the older rows have expired, a tick of the expiry checker
    deletes them and leaves the newer ones at their indices: the indices of
    the list then start at the old length, not at 0. *)
Theorem expiry_of_the_older_rows_leaves_a_gap key values now now' id t e :
  id ∈ intervals e →
  select_string key now (string_store t) = None →
  contiguous key (list_store t) →
  (∀ row, row ∈ of_key key (list_store t) →
     is_elapsed now' (lr_expiry row) = true) →
  let e1 := (rpush key values now (with_db (Some (Connection t None)) e)).2 in
  let e2 := (onInterval id now' e1).2 in
  indices key (list_store (rows e2))
  = seqZ (count_list key (list_store t)) (Z.of_nat (length values))
  ∧ (0 < count_list key (list_store t) → values ≠ [] →
     ¬ contiguous key (list_store (rows e2))).
Proof.
  intros Hid Hstring Hc Hold e1 e2.
  assert (indices key (list_store (rows e2))
          = seqZ (count_list key (list_store t)) (Z.of_nat (length values)))
    as Hindices.
  { subst e1 e2. rewrite rpush_run by done. cbn [snd]. cbv zeta.
    destruct (negb (inTransaction e) && negb (transactionMode e));
      rewrite onInterval_run by done;
      cbn [snd rows db with_db data reaped on_lists list_store];
      unfold delete_elapsed; rewrite filter_app;
      fold (delete_elapsed now' (list_store t));
      fold (delete_elapsed now'
              (appended_rows key (count_list key (list_store t)) values));
      rewrite indices_app, indices_delete_elapsed_all by done;
      by rewrite delete_elapsed_appended_rows, indices_appended_rows. }
  split; [done|]. intros Hpos Hvalues Hcontig. unfold contiguous in Hcontig.
  rewrite Hindices in Hcontig.
  assert (0 ∈ seqZ (count_list key (list_store t)) (Z.of_nat (length values)))
    as Hzero.
  { apply (contig_elem _ _ Hcontig). rewrite length_seqZ.
    destruct values; [done|]. cbn [length]. lia. }
  apply elem_of_seqZ in Hzero. lia.
Qed.

Lemma expiry_of_the_older_rows_leaves_a_gap_witness :
  let t := Tables [] [] [ListRow "l" 0 "a" (Some 5)] [] in
  let e1 := (rpush "l" ["b"] 0 (with_db (Some (Connection t None)) connected)).2 in
  indices "l" (list_store (rows (onInterval 0 10 e1).2)) = [1].
Proof.
  intros t.
  refine (proj1 (expiry_of_the_older_rows_leaves_a_gap "l" ["b"] 0 10 0%nat t
                   connected _ _ _ _)).
  - change (intervals connected) with ({[0%nat]} ∪ ∅ : gset nat).
    apply elem_of_union_l, elem_of_singleton. reflexivity.
  - reflexivity.
  - unfold contiguous, contig. reflexivity.
  - intros row Hrow. vm_compute in Hrow.
    apply list_elem_of_singleton in Hrow as ->. reflexivity.
Defined.

End ContiguityOfRequests.

Section ExpireRoundTrip.
Import Sql Engine Spec.

Lemma first_expiry_all {R} `{Keyed R} x (l : list R) :
  Forall (λ r, row_expiry r = Some x) l →
  first_expiry l = if bool_decide (l ≠ []) then Some x else None.
Proof.
  destruct l as [|r l]; [done|]. intros [Hr _]%Forall_cons.
  unfold first_expiry. cbn [omap list_omap]. by rewrite Hr.
Qed.

Lemma updated_rows_expiry {R} `{Keyed R} x key (rows : list R) :
  (∀ y r, row_expiry (with_expiry y r) = y) →
  Forall (λ r, row_expiry r = Some x) (of_key key (update_expiry x key rows)).
Proof.
  intros Hexpiry. apply Forall_forall. intros r.
  unfold of_key, update_expiry.
  intros [Hk (r0 & -> & _)%list_elem_of_fmap]%list_elem_of_filter.
  destruct (decide (row_key r0 = key)); [apply Hexpiry|done].
Qed.

Lemma updated_rows_nil {R} `{Keyed R} x key (rows : list R) :
  (∀ y r, row_key (with_expiry y r) = row_key r) →
  of_key key (update_expiry x key rows) = [] ↔ of_key key rows = [].
Proof.
  intros Hkey. unfold update_expiry, of_key.
  induction rows as [|r rows IH]; [done|].
  rewrite fmap_cons, !filter_cons.
  destruct (decide (row_key r = key)) as [Hr|Hr].
  - rewrite decide_True by (by rewrite Hkey). done.
  - by rewrite decide_False.
Qed.

Lemma merge_sort_nil {A} (R : relation A) `{∀ x y, Decision (R x y)} (l : list A) :
  merge_sort R l = [] ↔ l = [].
Proof.
  split; [|by intros ->]. intros Hnil.
  pose proof (merge_sort_Permutation R l) as Hperm. rewrite Hnil in Hperm.
  by apply Permutation_nil in Hperm.
Qed.

Lemma expiry_in_expired_tables tb x key t :
  expiry_in tb key (expired_tables x key t)
  = if key_in tb key t then Some x else None.
Proof.
  unfold expiry_in, key_in, expired_tables, select_expiry_string,
    select_expiry_hash, select_expiry_list, select_expiry_set.
  destruct tb; cbn [in_table string_store hash_store list_store set_store];
    (rewrite (first_expiry_all x);
     [|rewrite ?merge_sort_Permutation; apply updated_rows_expiry; by intros ? []]);
    apply (f_equal (λ b : bool, if b then Some x else None));
    apply bool_decide_ext; rewrite ?merge_sort_nil;
    (rewrite updated_rows_nil; [done|by intros ? []]).
Qed.

Lemma of_key_update_expiry {R} `{Keyed R} x key key' (rows : list R) :
  (∀ y r, row_key (with_expiry y r) = row_key r) →
  of_key key (update_expiry x key' rows) = [] ↔ of_key key rows = [].
Proof.
  intros Hkey. unfold update_expiry, of_key.
  induction rows as [|r rows IH]; [done|].
  rewrite fmap_cons, !filter_cons.
  assert (row_key (if decide (row_key r = key')
                   then with_expiry (Some x) r else r) = row_key r) as Hsame.
  { destruct (decide (row_key r = key')); [apply Hkey|done]. }
  destruct (decide (row_key r = key)) as [Hr|Hr].
  - rewrite decide_True by (by rewrite Hsame). done.
  - rewrite decide_False by (by rewrite Hsame). done.
Qed.

Lemma held_expired_tables x key key' t :
  held key (expired_tables x key' t) = held key t.
Proof.
  unfold held, key_in, expired_tables.
  cbn [in_table string_store hash_store list_store set_store].
  repeat f_equal; apply bool_decide_ext;
    (split; intros Hne Hnil; apply Hne;
     [revert Hnil|revert Hnil]; apply of_key_update_expiry; by intros ? []).
Qed.

(** X5.  TTL after EXPIRE, for a whole number of seconds and clock readings
    that keep the arithmetic inside the safe integers of JavaScript, where
    the doubles of the code compute what the integers of the model do.  For a
    key with a row in some table, EXPIRE with [seconds] answers 1 and TTL then
    answers the time left, in seconds rounded up, or -1 when none is left;
    asked at once, TTL answers [seconds] when it is positive.  For a key
    without rows EXPIRE answers 0 and TTL -2. *)
Theorem ttl_after_expire key seconds now now' c e :
  safe_integer now → safe_integer now' →
  safe_integer (seconds * 1000) → safe_integer (now + seconds * 1000) →
  safe_integer (now + seconds * 1000 - now') →
  let s := with_db (Some c) e in
  (expire key seconds now s).1 = Ok (if held key (data c) then 1 else 0)
  ∧ ((expire key seconds now >> ttl key now') s).1
    = Ok (if held key (data c)
          then let left := ceil_seconds (now + seconds * 1000 - now') in
               if bool_decide (0 < left) then left else -1
          else -2)
  ∧ (held key (data c) = true → 0 < seconds →
     ((expire key seconds now >> ttl key now) s).1 = Ok seconds).
Proof.
  intros _ _ _ _ _ s. subst s.
  assert (∀ now',
    ((expire key seconds now >> ttl key now') (with_db (Some c) e)).1
    = Ok (if held key (data c)
          then let left := ceil_seconds (now + seconds * 1000 - now') in
               if bool_decide (0 < left) then left else -1
          else -2)) as Httl.
  { intros now0. unfold bind at 1. rewrite expire_answer, ttl_run.
    cbn [fst data]. rewrite !expiry_in_expired_tables. unfold held.
    by destruct (key_in string_table key (data c)),
      (key_in hash_table key (data c)), (key_in list_table key (data c)),
      (key_in set_table key (data c)). }
  split; [by rewrite expire_answer|]. split; [apply Httl|].
  intros Hheld Hpos. rewrite Httl, Hheld. cbv zeta.
  replace (now + seconds * 1000 - now) with (seconds * 1000) by lia.
  pose proof (ceil_seconds_spec (seconds * 1000)).
  rewrite bool_decide_true by lia. f_equal. lia.
Qed.

Lemma ttl_after_expire_witness :
  ((set "k" "v" >> expire "k" 10 1750716224167 >> ttl "k" 1750716224167)
     connected).1 = Ok 10
  ∧ ((set "k" "v" >> expire "k" 10 1750716224167 >> ttl "k" 1750716229001)
       connected).1 = Ok 6.
Proof.
  assert (∀ z, bool_decide (- 2 ^ 53 < z < 2 ^ 53) = true → safe_integer z)
    as Hsafe by (intros z Hz; by apply bool_decide_eq_true in Hz).
  split.
  - refine (proj2 (proj2 (ttl_after_expire "k" 10 1750716224167 1750716224167
      (Connection (Tables [StringRow "k" "v" None] [] [] []) None)
      (with_db None connected) _ _ _ _ _)) _ _);
      first [ apply Hsafe; reflexivity | reflexivity | lia ].
  - refine (proj1 (proj2 (ttl_after_expire "k" 10 1750716224167 1750716229001
      (Connection (Tables [StringRow "k" "v" None] [] [] []) None)
      (with_db None connected) _ _ _ _ _)));
      apply Hsafe; reflexivity.
Defined.

(** X6.  EXISTS answers the number of its arguments that have a row in any of
    the four tables, counting an argument as often as it is given.  It does
    not look at the expiry: EXPIRE, whatever its time, changes no answer of
    EXISTS. *)
Theorem exists_counts_rows_whatever_their_expiry keys key seconds now c e :
  let s := with_db (Some c) e in
  exists_ keys s
  = (Ok (Z.of_nat (length (filter (λ key, held key (data c)) keys))), s)
  ∧ ((expire key seconds now >> exists_ keys) s).1 = (exists_ keys s).1.
Proof.
  intros s. subst s. split; [apply exists_run|].
  unfold bind at 1. rewrite expire_answer, !exists_run. cbn [fst data].
  do 3 f_equal. apply list_filter_iff. intros key'.
  by rewrite held_expired_tables.
Qed.

(** X9.  FLUSHDB and FLUSHALL, called while no transaction is open, delete
    every row of the four tables and commit; afterwards no key is held. *)
Theorem flushdb_empties_every_table t e :
  let s := with_db (Some (Connection t None)) e in
  flushdb s = (Ok (), with_db (Some (Connection no_rows None)) e)
  ∧ flushall s = (Ok (), with_db (Some (Connection no_rows None)) e)
  ∧ ∀ keys, ((flushdb >> exists_ keys) s).1 = Ok 0.
Proof.
  intros s. subst s.
  assert (flushdb (with_db (Some (Connection t None)) e)
          = (Ok (), with_db (Some (Connection no_rows None)) e)) as Hrun.
  { by destruct t. }
  split; [done|]. split; [done|]. intros keys.
  unfold bind at 1. rewrite Hrun, exists_run. cbn [fst data]. do 2 f_equal.
  rewrite filter_none; [done|]. intros key _ Hheld. exact Hheld.
Qed.

End ExpireRoundTrip.

Section Commutes.
Import Sql Engine Spec.
Context (f : engine → engine).

Lemma commutes_ret {A} (a : A) : commutes f (ret a).
Proof. by intros e. Qed.

Lemma commutes_throw {A} msg : commutes f (throw (A := A) msg).
Proof. by intros e. Qed.

Lemma commutes_bind {A B} (m : M A) (k : A → M B) :
  commutes f m → (∀ a, commutes f (k a)) → commutes f (bind m k).
Proof.
  intros Hm Hk e. unfold bind. rewrite Hm.
  destruct (m e) as [[a|msg] e']; cbn [fst snd]; [apply Hk|done].
Qed.

Lemma commutes_try_catch {A} (body : M A) handler :
  commutes f body → (∀ msg, commutes f (handler msg)) →
  commutes f (try_catch body handler).
Proof.
  intros Hb Hh e. unfold try_catch. rewrite Hb.
  destruct (body e) as [[a|msg] e']; cbn [fst snd]; [done|apply Hh].
Qed.

Lemma commutes_for_of {A X} (xs : list X) (acc : A) body :
  (∀ acc x, commutes f (body acc x)) → commutes f (for_of xs acc body).
Proof.
  intros Hbody. revert acc. induction xs as [|x xs IH]; intros acc.
  - apply commutes_ret.
  - cbn [for_of]. apply commutes_bind; [apply Hbody|apply IH].
Qed.

Lemma commutes_when b m : commutes f m → commutes f (when b m).
Proof. intros Hm. destruct b; [done|apply commutes_ret]. Qed.

Lemma commutes_read {A} (field : engine → A) :
  (∀ e, field (f e) = field e) → commutes f (read field).
Proof. intros Hf e. unfold read. by rewrite Hf. Qed.

Lemma commutes_write g : (∀ e, g (f e) = f (g e)) → commutes f (write g).
Proof. intros Hg e. unfold write. by rewrite Hg. Qed.

End Commutes.

(** One structural step of a proof that a method commutes with a change. *)
Ltac commutes_step :=
  lazy beta zeta;
  lazymatch goal with
  | |- Spec.commutes _ (Engine.bind _ _) => apply commutes_bind; [|intros ?]
  | |- Spec.commutes _ (Engine.try_catch _ _) =>
      apply commutes_try_catch; [|intros ?]
  | |- Spec.commutes _ (Engine.for_of _ _ _) => apply commutes_for_of; intros ? ?
  | |- Spec.commutes _ (Engine.when _ _) => apply commutes_when
  | |- Spec.commutes _ (Engine.ret _) => apply commutes_ret
  | |- Spec.commutes _ (Engine.throw _) => apply commutes_throw
  | |- Spec.commutes _ (match ?x with _ => _ end) => destruct x
  end.

Ltac commutes_by leaf := repeat first [ solve [leaf] | commutes_step ].

Section Credentials.
Import Sql Engine Spec.
Context (pw : option string) (b : bool).

Lemma credentials_on_db {A} (call : connection → outcome A * connection) :
  commutes (with_credentials pw b) (on_db call).
Proof.
  intros e. unfold on_db. cbn [db with_credentials].
  destruct (db e) as [c|]; [|done]. by destruct (call c).
Qed.

Lemma credentials_requireDb : commutes (with_credentials pw b) requireDb.
Proof. intros e. unfold requireDb. cbn [db with_credentials]. by destruct (db e). Qed.

Lemma credentials_standalone : commutes (with_credentials pw b) standalone.
Proof. by intros e. Qed.

Lemma credentials_fresh : commutes (with_credentials pw b) fresh.
Proof. by intros e. Qed.

End Credentials.

Ltac credentials_leaf :=
  first [ apply credentials_on_db | apply credentials_requireDb
        | apply credentials_standalone | apply credentials_fresh
        | apply commutes_read; by intros ?
        | apply commutes_write; by intros ? ].

Ltac credentials_method :=
  unfold Engine.rejectString, Engine.query, Engine.run, Engine.run_checked,
    Engine.BEGIN_TRANSACTION, Engine.COMMIT, Engine.ROLLBACK;
  commutes_by credentials_leaf.

Section CredentialsOfMethods.
Import Sql Engine Spec.
Context (pw : option string) (b : bool).

Lemma credentials_lpush key values now :
  commutes (with_credentials pw b) (lpush key values now).
Proof. unfold lpush. credentials_method. Qed.

Lemma credentials_rpop key arg : commutes (with_credentials pw b) (rpop key arg).
Proof. unfold rpop. credentials_method. Qed.

Lemma credentials_rpoplpush source destination now :
  commutes (with_credentials pw b) (rpoplpush source destination now).
Proof.
  unfold rpoplpush.
  commutes_by ltac:(first [ apply credentials_rpop | apply credentials_lpush
                          | credentials_leaf ]).
Qed.

Lemma credentials_call cmd now :
  is_auth cmd = false → commutes (with_credentials pw b) (call cmd now).
Proof.
  intros Hcmd. destruct cmd; try discriminate Hcmd; cbn [call];
    (apply commutes_bind; [|intros ?; apply commutes_ret]);
    first [ apply credentials_lpush | apply credentials_rpop
          | apply credentials_rpoplpush | idtac ];
    unfold set, mget, get, rpush, lrange, lpop, hmset, hset, hget, hdel, del,
      exists_, hmget, sismember, smembers, sadd, srem, expire, ttl, flushall,
      flushdb, info;
    credentials_method.
Qed.

Lemma credentials_brpoplpush source destination timeout_sec now :
  commutes (with_credentials pw b)
    (brpoplpush source destination timeout_sec now).
Proof.
  unfold brpoplpush, addBlockingOperation.
  commutes_by ltac:(first [ apply credentials_rpoplpush | credentials_leaf ]).
Qed.

Lemma credentials_multi : commutes (with_credentials pw b) multi.
Proof. by intros e. Qed.

Lemma credentials_addCommand cmd : commutes (with_credentials pw b) (addCommand cmd).
Proof.
  intros e. unfold addCommand. cbn [transactionMode with_credentials].
  by destruct (transactionMode e).
Qed.

Lemma credentials_close : commutes (with_credentials pw b) close.
Proof.
  intros [d ? ? ? ? ? ? checker ? ? ? ?]. unfold close.
  cbn [expiryCheckerId with_credentials].
  destruct checker, d; reflexivity.
Qed.

(** The loop of [exec] over a queue without AUTH. *)
Lemma credentials_exec_loop cmds now results :
  existsb is_auth cmds = false →
  commutes (with_credentials pw b)
    (for_of cmds results (λ results cmd,
       try_catch
         (match hash_command_key cmd with
          | Some key => rejectString key now
          | None => ret ()
          end >>
          let* result := call cmd now in
          ret (results ++ [Ok result]))
         (λ error, ret (results ++ [Throw error])))).
Proof.
  revert results. induction cmds as [|cmd cmds IH]; intros results Hcmds.
  - apply commutes_ret.
  - cbn [existsb] in Hcmds. apply orb_false_iff in Hcmds as [Hcmd Hcmds].
    cbn [for_of]. apply commutes_bind; [|intros ?; by apply IH].
    apply commutes_try_catch; [|intros ?; apply commutes_ret].
    apply commutes_bind.
    + destruct (hash_command_key cmd); [credentials_method|apply commutes_ret].
    + intros ?. apply commutes_bind; [|intros ?; apply commutes_ret].
      by apply credentials_call.
Qed.

Lemma commutes_bind_at {A B} (m : M A) (k : A → M B) e :
  commutes (with_credentials pw b) m →
  (∀ a e', m e = (Ok a, e') →
     k a (with_credentials pw b e') = ((k a e').1, with_credentials pw b (k a e').2)) →
  bind m k (with_credentials pw b e)
  = ((bind m k e).1, with_credentials pw b (bind m k e).2).
Proof.
  intros Hm Hk. unfold bind. rewrite Hm.
  destruct (m e) as [[a|msg] e']; cbn [fst snd]; [by apply Hk|done].
Qed.

Lemma begin_keeps_the_queue active e a e' :
  when (negb active) (BEGIN_TRANSACTION >> write (with_inTransaction true)) e
  = (Ok a, e') →
  transactionCommands e' = transactionCommands e.
Proof.
  unfold when, bind, BEGIN_TRANSACTION, on_db, write, ret.
  destruct (negb active); [|by intros [= _ <-]].
  destruct (db e) as [c|]; [|done].
  destruct (sql_begin c) as [[[]|msg] c']; [|done]. by intros [= _ <-].
Qed.

Lemma commutes_try_catch_at {A} (body : M A) handler e :
  body (with_credentials pw b e)
  = ((body e).1, with_credentials pw b (body e).2) →
  (∀ msg, commutes (with_credentials pw b) (handler msg)) →
  try_catch body handler (with_credentials pw b e)
  = ((try_catch body handler e).1,
     with_credentials pw b (try_catch body handler e).2).
Proof.
  intros Hbody Hhandler. unfold try_catch. rewrite Hbody.
  destruct (body e) as [[a|msg] e']; cbn [fst snd]; [done|apply Hhandler].
Qed.

Lemma credentials_exec now e :
  existsb is_auth (transactionCommands e) = false →
  exec now (with_credentials pw b e)
  = ((exec now e).1, with_credentials pw b (exec now e).2).
Proof.
  intros Hqueue. unfold exec.
  apply commutes_bind_at; [apply credentials_requireDb|]. intros [] e1 Hreq.
  assert (e1 = e) as ->.
  { unfold requireDb in Hreq. destruct (db e); by injection Hreq. }
  apply commutes_bind_at; [credentials_leaf|]. intros mode e1 [= <- <-].
  destruct (negb (transactionMode e)); [done|].
  apply commutes_try_catch_at; [|intros msg; credentials_method].
  apply commutes_bind_at; [credentials_leaf|]. intros active e1 [= <- <-].
  apply commutes_bind_at; [credentials_method|]. intros [] e1 Hbegin.
  apply begin_keeps_the_queue in Hbegin.
  apply commutes_bind_at; [credentials_leaf|]. intros commands e2 [= <- <-].
  rewrite Hbegin. clear Hbegin. revert e1.
  refine (commutes_bind _ _ _ _ _).
  - by apply credentials_exec_loop.
  - intros results. credentials_method.
Qed.

End CredentialsOfMethods.

Section Credentials2.
Import Sql Engine Spec.

(** X28.  No method but AUTH reads the password or the authentication flag:
    [checkAuth] is never called.  Every request that does not run AUTH has
    the same outcome and the same effect on an engine with a password and no
    authentication as on one without a password. *)
Theorem password_is_never_checked pw b rq now e :
  runs_auth rq e = false →
  serve rq now (with_credentials pw b e)
  = ((serve rq now e).1, with_credentials pw b (serve rq now e).2).
Proof.
  intros Hrq. destruct rq as [cmd|source destination timeout_sec| |cmd| |];
    cbn [serve runs_auth] in *.
  - revert e. refine (commutes_bind _ _ _ _ _);
      [by apply credentials_call|intros ?; apply commutes_ret].
  - revert e Hrq. intros e _. revert e. refine (commutes_bind _ _ _ _ _);
      [apply credentials_brpoplpush|intros ?; apply commutes_ret].
  - revert e Hrq. intros e _. revert e. refine (commutes_bind _ _ _ _ _);
      [apply credentials_multi|intros ?; apply commutes_ret].
  - revert e Hrq. intros e _. revert e. refine (commutes_bind _ _ _ _ _);
      [apply credentials_addCommand|intros ?; apply commutes_ret].
  - unfold bind. rewrite credentials_exec by done.
    by destruct (exec now e) as [[rs|msg] e'].
  - revert e Hrq. intros e _. revert e. refine (commutes_bind _ _ _ _ _);
      [apply credentials_close|intros ?; apply commutes_ret].
Qed.

Lemma password_is_never_checked_witness :
  serve (Command (SET "k" "v")) 0 (with_credentials (Some "secret") false connected)
  = ((serve (Command (SET "k" "v")) 0 connected).1,
     with_credentials (Some "secret") false
       (serve (Command (SET "k" "v")) 0 connected).2).
Proof.
  apply (password_is_never_checked (Some "secret") false
           (Command (SET "k" "v")) 0 connected).
  reflexivity.
Defined.

End Credentials2.

Section ManyKeys.
Import Sql Engine Spec.

Lemma select_replace_string_other key value key' now rows :
  key' ≠ key →
  select_string key' now (replace_string key value rows)
  = select_string key' now rows.
Proof.
  intros Hne. unfold select_string, replace_string, delete_key.
  rewrite filter_app, (filter_cons _ (StringRow key value None)), decide_False
    by (intros [Hk _]; cbn in Hk; congruence).
  rewrite filter_nil, app_nil_r. f_equal.
  induction rows as [|r rows IH]; [done|].
  rewrite (filter_cons (λ r, row_key r ≠ key)).
  destruct (decide (row_key r ≠ key)) as [Hr|Hr].
  - by rewrite !filter_cons, IH.
  - rewrite IH, filter_cons, decide_False; [done|].
    intros [Hk _]. apply Hr. cbn. congruence.
Qed.

(** X3.  MGET answers, key by key, what GET answers, and SET changes that
    answer for its own key only: after SET, MGET answers the new value for
    the key of SET and the old answers for all other keys. *)
Theorem mget_after_set key value keys now c e :
  let s := with_db (Some c) e in
  let stored k := sr_value <$> select_string k now (string_store (data c)) in
  (∀ k, (get k now s).1 = Ok (stored k))
  ∧ (mget keys now s).1 = Ok (stored <$> keys)
  ∧ ((set key value >> mget keys now) s).1
    = Ok ((λ k, if decide (k = key) then Some value else stored k) <$> keys).
Proof.
  intros s stored. subst s stored. split; [|split].
  - intros k. by rewrite get_run.
  - by rewrite mget_run.
  - unfold bind at 1. rewrite set_run, mget_run.
    cbn [fst data on_strings string_store]. f_equal. apply list_fmap_ext.
    intros i k _. destruct (decide (k = key)) as [->|Hne].
    + by rewrite select_replace_string.
    + by rewrite select_replace_string_other.
Qed.

(** X13.  HMGET answers, field by field, the value HGET reads, but without the
    type check of HGET: on a key that holds a live string every HGET rejects
    with WRONGTYPE and HMGET still answers. *)
Theorem hmget_skips_the_type_check key fields now c e :
  let s := with_db (Some c) e in
  let answers :=
    (λ field, hr_value <$> select_hash key field now (hash_store (data c)))
      <$> fields in
  hmget key fields now s = (Ok answers, s)
  ∧ (select_string key now (string_store (data c)) = None →
     ∀ field, (hget key field now s).1
       = Ok (hr_value <$> select_hash key field now (hash_store (data c))))
  ∧ (select_string key now (string_store (data c)) ≠ None →
     ∀ field, (hget key field now s).1 = Throw WRONGTYPE).
Proof.
  intros s answers. subst s answers. split; [apply hmget_run|]. split.
  - intros Hstring field. by rewrite hget_run, Hstring.
  - intros Hstring field. rewrite hget_run.
    by destruct (select_string key now (string_store (data c))).
Qed.

Lemma hmget_skips_the_type_check_witness :
  let s := with_db (Some (Connection
             (Tables [StringRow "k" "v" None] [HashRow "k" "f" "x" None] [] [])
             None)) (constructor None) in
  hmget "k" ["f"] 0 s = (Ok [Some "x"], s)
  ∧ (hget "k" "f" 0 s).1 = Throw WRONGTYPE.
Proof.
  intros s.
  pose proof (hmget_skips_the_type_check "k" ["f"] 0 (Connection
    (Tables [StringRow "k" "v" None] [HashRow "k" "f" "x" None] [] []) None)
    (constructor None)) as H.
  refine (conj (proj1 H) (proj2 (proj2 H) _ "f")).
  discriminate.
Defined.

End ManyKeys.

Section TypePersistExpiry.
Import Sql Engine Spec.

Lemma typepersist_fold_update x (result rows : list TypePersist.record) :
  fold_left (λ rows r, TypePersist.update_expiry (TypePersist.id r) x rows)
            result rows
  = (λ r, if decide (TypePersist.id r ∈ TypePersist.id <$> result)
          then TypePersist.Rec (TypePersist.id r) (TypePersist.key r)
                 (TypePersist.value r) (TypePersist.field r)
                 (TypePersist.member r) (TypePersist.index r) (Some x)
          else r) <$> rows.
Proof.
  revert rows. induction result as [|r0 result IH]; intros rows.
  - cbn [fold_left fmap list_fmap]. rewrite <- (list_fmap_id rows) at 1.
    apply list_fmap_ext. intros i r _. rewrite decide_False; [done|].
    apply not_elem_of_nil.
  - cbn [fold_left]. rewrite IH. unfold TypePersist.update_expiry.
    rewrite <- list_fmap_compose. apply list_fmap_ext. intros i r _.
    cbn [compose]. rewrite fmap_cons.
    destruct (decide (TypePersist.id r = TypePersist.id r0)) as [Heq|Hne]; cbn.
    + rewrite (decide_True (P := _ ∈ _ :: _)) by (rewrite Heq; left).
      by destruct (decide (TypePersist.id r ∈ TypePersist.id <$> result)).
    + destruct (decide (TypePersist.id r ∈ TypePersist.id <$> result)) as [Hin|Hout].
      * rewrite decide_True; [done|]. by right.
      * rewrite decide_False; [done|]. rewrite not_elem_of_cons. done.
Qed.

(** The first record of the key that is live at [now'], after [expire]. *)
Lemma typepersist_head_expired k x now' (rows : list TypePersist.record) :
  head (filter (λ r, TypePersist.key r = k ∧ TypePersist.expiry_gt now' r)
          (TypePersist.expire_table k x rows).2)
    ≫= TypePersist.value
  = if bool_decide (now' < x)
    then head (filter (λ r, TypePersist.key r = k) rows) ≫= TypePersist.value
    else None.
Proof.
  unfold TypePersist.expire_table. cbn [snd]. rewrite typepersist_fold_update.
  set (ids := TypePersist.id <$> filter (λ r, TypePersist.key r = k) rows).
  assert (∀ r, r ∈ rows → TypePersist.key r = k → TypePersist.id r ∈ ids) as Hids.
  { intros r Hr Hk. apply list_elem_of_fmap_2. by apply list_elem_of_filter. }
  clearbody ids.
  assert (∀ r : TypePersist.record,
    TypePersist.expiry_gt now'
      (TypePersist.Rec (TypePersist.id r) (TypePersist.key r)
         (TypePersist.value r) (TypePersist.field r) (TypePersist.member r)
         (TypePersist.index r) (Some x))
    = bool_decide (now' < x)) as Hgt by done.
  induction rows as [|r rows IH].
  { cbn. by destruct (bool_decide (now' < x)). }
  assert (∀ r', r' ∈ rows → TypePersist.key r' = k → TypePersist.id r' ∈ ids)
    as Hrest by (intros r' Hr'; apply Hids; by right).
  specialize (IH Hrest). rewrite fmap_cons, !filter_cons.
  destruct (decide (TypePersist.key r = k)) as [Hk|Hk].
  - rewrite (decide_True (P := TypePersist.id r ∈ ids))
      by (apply Hids; [left|done]).
    destruct (bool_decide (now' < x)) eqn:Hlive.
    + rewrite decide_True; [done|]. split; [done|]. by rewrite Hgt.
    + rewrite decide_False; [exact IH|]. intros [_ Hlive'].
      by rewrite Hgt in Hlive'.
  - destruct (decide (TypePersist.id r ∈ ids)); cbn [TypePersist.key];
      (rewrite decide_False by (by intros [? _])); exact IH.
Qed.

(** X29.  In the typepersist engine, GET after SET and EXPIRE answers the
    value until the expiry and null from then on: the lookup of GET, which
    misses a row without expiry, finds the row once EXPIRE has stamped it. *)
Theorem typepersist_get_after_set_and_expire k v seconds now now' d :
  TypePersist.get k now'
    (TypePersist.expire k seconds now (TypePersist.set k v d).2).2
  = if bool_decide (now' < now + seconds * 1000) then Some v else None.
Proof.
  unfold TypePersist.get, TypePersist.expire.
  cbn [snd TypePersist.string_rows]. rewrite typepersist_head_expired.
  case_bool_decide; [|done]. unfold TypePersist.set.
  destruct (head (filter (λ r, TypePersist.key r = k)
                    (TypePersist.string_rows d))) as [result|] eqn:Hhead;
    cbn [snd TypePersist.string_rows].
  - by rewrite (typepersist_update_head k v _ _ result).
  - rewrite filter_app, filter_cons, decide_True by done.
    destruct (filter (λ r, TypePersist.key r = k) (TypePersist.string_rows d));
      [done|discriminate Hhead].
Qed.

End TypePersistExpiry.
